(** * Slide-to-video assembly pipeline of the placement-cell video generator

    A shallow embedding of [src/main.py]: the slide renderer
    ([AdvancedVideoGenerator._create_enhanced_slide] and its helpers), the
    slide clip builder ([_create_slide_video_clip]), the assembly coordinator
    and exporter ([create_professional_placement_video]).

    Conventions of the embedding.
    - A Python [str] is a list of Unicode code points ([str := list N]);
      identifiers that the program only compares or passes on (template
      names, font paths, language codes) are Rocq [string]s.
    - Python [int] is [Z]; floor division [//] is [Z.div].
    - Python [float] durations live in an arbitrary carrier with a
      comparison [ltb] (class [FloatOps]); only the comparisons that
      [min] and [max] perform are used.
    - A PIL image is its size together with the list of drawing operations
      applied to it, in order.
    - Third-party calls whose failure the program guards against are decided
      by an environment ([Env]); every call site has a name ([Site]).
    - Stateful code runs in a state-and-exception monad over [World]: the
      generator's fields, the files on disk and the trace of observable
      events. *)

From Stdlib Require Import ZArith QArith List String Ascii Bool Lia DecimalString.
From stdpp Require Import base decidable option list sorting strings gmap.

Set Warnings "-register-all".

Local Open Scope string_scope.
Local Open Scope list_scope.
Local Open Scope Z_scope.

(** ** Python built-ins used by the program *)

Module Py.

(** A code point, and a string as the sequence of its code points. *)
Definition char := N.
Definition str := list char.

(** A string literal of the source as a [str]. *)
Definition lit (s : string) : str :=
  map (fun a => N_of_ascii a) (list_ascii_of_string s).

(** [str.isspace] on one code point: the code points for which
    CPython's [Py_UNICODE_ISSPACE] holds. *)
Definition is_space (c : char) : bool :=
  ((9 <=? c) && (c <=? 13) || (28 <=? c) && (c <=? 32) ||
   (c =? 133) || (c =? 160) || (c =? 5760) ||
   (8192 <=? c) && (c <=? 8202) || (c =? 8232) || (c =? 8233) ||
   (c =? 8239) || (c =? 8287) || (c =? 12288))%N.

(** [s.split()] with no argument: maximal runs of non-space code points,
    in order; [cur] is the run being read. *)
Fixpoint split_aux (cur : str) (s : str) : list str :=
  match s with
  | [] => match cur with [] => [] | _ => [cur] end
  | c :: s' =>
      if is_space c
      then match cur with
           | [] => split_aux [] s'
           | _ => cur :: split_aux [] s'
           end
      else split_aux (cur ++ [c]) s'
  end.

Definition split (s : str) : list str := split_aux [] s.

(** [sep.join(parts)]. *)
Fixpoint join (sep : str) (parts : list str) : str :=
  match parts with
  | [] => []
  | [p] => p
  | p :: rest => p ++ sep ++ join sep rest
  end.

(** [s.strip()]: leading and trailing white space removed. *)
Fixpoint lstrip (s : str) : str :=
  match s with
  | [] => []
  | c :: s' => if is_space c then lstrip s' else s
  end.

Definition strip (s : str) : str := rev (lstrip (rev (lstrip s))).

(** [s.upper()] on the ASCII letters; the case mapping of the other code
    points belongs to the interpreter's Unicode tables and is not needed
    by any statement below, they are left as they are. *)
Definition upper_char (c : char) : char :=
  if ((97 <=? c) && (c <=? 122))%N then (c - 32)%N else c.

Definition upper (s : str) : str := map upper_char s.

(** Truth value of a list or string: non-empty. *)
Definition truthy {A} (l : list A) : bool :=
  match l with [] => false | _ => true end.

(** [list.sort(key=...)] on integer keys: a stable merge sort. *)
Definition key_le {A} (key : A -> nat) : relation A :=
  fun a b => (key a <= key b)%nat.

Global Instance key_le_dec {A} (key : A -> nat) : RelDecision (key_le key).
Proof. intros a b. unfold key_le. apply _. Defined.

Definition sort_by_key {A} (key : A -> nat) (l : list A) : list A :=
  merge_sort (key_le key) l.

End Py.

Import Py.

Definition SPACE : str := lit " ".

(** ** Floating-point numbers

    Durations, times and sizes are Python floats.  The program adds them,
    compares them and passes them on; the embedding keeps them in an
    arbitrary carrier with the comparison that [min], [max] and [!=]
    perform.  [f_ltb x x = false] holds of IEEE comparison, [nan] included. *)

Class FloatOps := {
  float : Type;
  f_lit : Z -> Z -> float;               (* the literal n/d, e.g. 0.5 *)
  f_add : float -> float -> float;
  f_sub : float -> float -> float;
  f_ltb : float -> float -> bool;
  f_eqb : float -> float -> bool;
  f_ltb_irrefl : forall x, f_ltb x x = false
}.

(** ** Images, calls and exceptions *)

Inductive Color :=
| RGB (r g b : Z)
| RGBA (r g b a : Z)
| ColorName (name : string).

Inductive Font :=
| TrueType (path : string) (size : Z)
| DefaultFont.

Inductive DrawOp (I : Type) :=
| Fill (c : Color)
| Line (x0 y0 x1 y1 : Z) (fill : Color) (width : Z)
| Rectangle (x0 y0 x1 y1 : Z) (fill : Color)
| Ellipse (x0 y0 x1 y1 : Z) (fill outline : option Color) (width : Z)
| Text (x y : Z) (text : str) (font : Font) (fill : Color)
| Paste (src : I) (x y : Z)
| Converted (mode : string)
| Resized (size : Z * Z)
| UnsharpMask (radius percent threshold : Z)
| EnhanceContrast (percent : Z)
| EnhanceColor (percent : Z).

Arguments Fill {I}.
Arguments Line {I}.
Arguments Rectangle {I}.
Arguments Ellipse {I}.
Arguments Text {I}.
Arguments Paste {I}.
Arguments Converted {I}.
Arguments Resized {I}.
Arguments UnsharpMask {I}.
Arguments EnhanceContrast {I}.
Arguments EnhanceColor {I}.

(** An image: its mode, its size, and what was drawn on it, oldest first. *)
Inductive Image := MkImage {
  img_mode : string;
  img_size : Z * Z;
  img_ops : list (DrawOp Image)
}.

Definition draw (op : DrawOp Image) (img : Image) : Image :=
  MkImage (img_mode img) (img_size img) (img_ops img ++ [op]).

(** [Image.new(mode, size, color)]. *)
Definition Image_new (mode : string) (size : Z * Z) (c : Color) : Image :=
  MkImage mode size [Fill c].

(** The [company_logo] argument is untyped: [None], a path, an image, or
    some other object (of the given truth value). *)
Inductive Logo :=
| LogoNone
| LogoPath (p : string)
| LogoImage (img : Image)
| LogoOther (truth : bool).

Definition logo_truthy (l : Logo) : bool :=
  match l with
  | LogoNone => false
  | LogoPath p => negb (String.eqb p "")
  | LogoImage _ => true
  | LogoOther b => b
  end.

(** Calls into Pillow that the program guards with [try]; whether one
    raises is a function of its arguments. *)
Inductive PilCall :=
| Call_truetype (path : string) (size : Z)
| Call_open (path : string)
| Call_convert (img : Image) (mode : string)
| Call_thumbnail (img : Image) (size : Z * Z)
| Call_paste (dst src : Image) (x y : Z)
| Call_filter (img : Image)
| Call_enhance_contrast (img : Image)
| Call_enhance_color (img : Image).

(** Calls that reach the network, the file system or the encoders; whether
    one raises may differ from one call to the next. *)
Inductive Site :=
| Requests_get
| GTTS_new
| GTTS_save
| AudioSegment_from_mp3
| AudioSegment_speedup
| AudioSegment_export
| Image_save
| AudioFileClip_new
| ImageClip_new
| Fx_fadein
| Fx_fadeout
| Fx_volumex
| Set_audio
| Concatenate_videoclips
| Video_resize
| Write_videofile
| Os_unlink.

Inductive Exn :=
| ZeroDivisionError
| KeyError (key : string)
| PilError (c : PilCall)
| ExtError (s : Site)
| FileNotFoundError (path : nat).

Inductive Result (A : Type) :=
| Ok (a : A)
| Raise (e : Exn).

Arguments Ok {A}.
Arguments Raise {A}.

(** A message of the logger or of the user interface: its text and the
    numbers formatted into it. *)
Inductive Msg :=
| Say (text : string)
| Say1 (text : string) (n : Z)
| Say2 (text : string) (n m : Z).

Section Model.

Context `{FO : FloatOps}.

Definition f_one : float := f_lit 1 1.

(** [min(a, b)] keeps [a] unless [b < a]; [max(a, b)] keeps [a] unless
    [b > a]. *)
Definition py_min (a b : float) : float := if f_ltb b a then b else a.
Definition py_max (a b : float) : float := if f_ltb a b then b else a.

(** [a <= b] as the negation of [b < a]. *)
Definition f_le (a b : float) : Prop := f_ltb b a = false.

(** ** Data model *)

Record VideoConfig := {
  resolution : Z * Z;
  fps : Z;
  video_codec : string;
  audio_codec : string;
  preset : string;
  crf : Z;
  max_slide_duration : float;
  min_slide_duration : float;
  fade_duration : float;
  background_music : bool;
  watermark : bool;
  subtitle_support : bool
}.

(** [VideoConfig()] with the dataclass defaults. *)
Definition default_config : VideoConfig := {|
  resolution := (1920, 1080);
  fps := 30;
  video_codec := "libx264";
  audio_codec := "aac";
  preset := "medium";
  crf := 23;
  max_slide_duration := f_lit 20 1;
  min_slide_duration := f_lit 3 1;
  fade_duration := f_lit 1 2;
  background_music := false;
  watermark := true;
  subtitle_support := true
|}.

Record SlideMetrics := {
  total_slides : Z;
  processed_slides : Z;
  failed_slides : Z;
  total_duration : float;
  file_size_mb : float;
  generation_time : float
}.

Definition new_metrics : SlideMetrics := {|
  total_slides := 0;
  processed_slides := 0;
  failed_slides := 0;
  total_duration := f_lit 0 1;
  file_size_mb := f_lit 0 1;
  generation_time := f_lit 0 1
|}.

(** A slide is a [dict] with the keys ["title"] and ["content"]. *)
Definition Slide := gmap string str.

Definition mk_slide (title content : str) : Slide :=
  <["title" := title]> (<["content" := content]> ∅).

(** *** Clips and files *)

Inductive Fx := FadeIn (d : float) | FadeOut (d : float).

Record AudioClip := {
  audio_file : nat;
  audio_duration : float
}.

Record Clip := {
  clip_frame : Image;
  clip_duration : float;
  clip_fx : list Fx;
  clip_audio : option AudioClip
}.

(** A temporary file is named by a number; its content is what was last
    written to it. *)
Inductive File :=
| Blank
| Png (img : Image)
| Mp3 (seconds : float)
| Mp4 (clips : list Clip).

(** ** The outside world *)

Inductive Event :=
| StError (m : Msg)
| StSuccess (m : Msg)
| ShowProgress (stage : Z) (m : Msg) (shown : SlideMetrics)
| LogWarning (m : Msg)
| LogError (m : Msg)
| PoolCreated (max_workers : Z)
| Concatenate (clips : list Clip)
| ResizeVideo (size : Z * Z)
| WriteVideofile (path : nat) (settings : VideoConfig)
| ClipClosed (c : Clip).

Record Env := {
  VIDEO_LIBS_AVAILABLE : bool;
  (* the host's fonts and Pillow *)
  os_path_exists : string -> bool;
  pil_fails : PilCall -> bool;
  textbbox : Font -> str -> Z * Z * Z * Z;
  getbbox : Font -> str -> Z * Z * Z * Z;
  thumbnail_size : Z * Z -> Z * Z -> Z * Z;
  Image_open : string -> Image;
  (* [int(base + slope * (num / den))] in float arithmetic, [den] not 0 *)
  float_int : Z -> Z -> Z -> Z -> Z;
  (* the interpreter's string hash *)
  hash : str -> Z;
  (* the [k]-th call of the run into the network, disk or encoders *)
  ext_fails : Site -> nat -> bool;
  logo_response : nat -> option Image;
  speech_seconds : nat -> float;
  speedup_seconds : float -> float -> float;
  time_time : nat -> float;
  getsize_mb : File -> float;
  (* the order in which the pool's futures complete *)
  as_completed : list nat
}.

(** The generator object, the temporary directory and what the run has
    shown, logged and called so far. *)
Record World := {
  metrics : SlideMetrics;
  temp_files : list nat;
  disk : gmap nat File;
  next_tmp : nat;
  tick : nat;
  trace : list Event
}.

Definition set_metrics (f : SlideMetrics -> SlideMetrics) (w : World) : World :=
  {| metrics := f (metrics w); temp_files := temp_files w; disk := disk w;
     next_tmp := next_tmp w; tick := tick w; trace := trace w |}.

Definition set_temp_files (f : list nat -> list nat) (w : World) : World :=
  {| metrics := metrics w; temp_files := f (temp_files w); disk := disk w;
     next_tmp := next_tmp w; tick := tick w; trace := trace w |}.

Definition set_disk (f : gmap nat File -> gmap nat File) (w : World) : World :=
  {| metrics := metrics w; temp_files := temp_files w; disk := f (disk w);
     next_tmp := next_tmp w; tick := tick w; trace := trace w |}.

Definition set_next_tmp (n : nat) (w : World) : World :=
  {| metrics := metrics w; temp_files := temp_files w; disk := disk w;
     next_tmp := n; tick := tick w; trace := trace w |}.

Definition set_tick (n : nat) (w : World) : World :=
  {| metrics := metrics w; temp_files := temp_files w; disk := disk w;
     next_tmp := next_tmp w; tick := n; trace := trace w |}.

Definition add_event (e : Event) (w : World) : World :=
  {| metrics := metrics w; temp_files := temp_files w; disk := disk w;
     next_tmp := next_tmp w; tick := tick w; trace := trace w ++ [e] |}.

(** ** The monad of the program: state and exceptions *)

Definition M (A : Type) : Type := World -> Result A * World.

Definition ret {A} (a : A) : M A := fun w => (Ok a, w).

Definition bind {A B} (m : M A) (k : A -> M B) : M B :=
  fun w =>
    match m w with
    | (Ok a, w') => k a w'
    | (Raise e, w') => (Raise e, w')
    end.

Definition throw {A} (e : Exn) : M A := fun w => (Raise e, w).

(** [try: m  except Exception as e: h e]. *)
Definition try_except {A} (m : M A) (h : Exn -> M A) : M A :=
  fun w =>
    match m w with
    | (Ok a, w') => (Ok a, w')
    | (Raise e, w') => h e w'
    end.

Definition get {A} (f : World -> A) : M A := fun w => (Ok (f w), w).

Definition modify (f : World -> World) : M unit := fun w => (Ok tt, f w).

Definition emit (e : Event) : M unit := modify (add_event e).

Notation "'let*' x ':=' m 'in' k" := (bind m (fun x => k))
  (at level 10, x name, m at level 100, k at level 200).
Notation "m '>>' k" := (bind m (fun _ => k))
  (at level 90, right associativity).

Section Calls.

Variable E : Env.

(** A guarded Pillow call. *)
Definition pil (c : PilCall) : M unit :=
  if pil_fails E c then throw (PilError c) else ret tt.

(** The number of the next call into the outside world. *)
Definition next_call : M nat :=
  fun w => (Ok (tick w), set_tick (S (tick w)) w).

(** A call into the outside world; it returns its number in the run. *)
Definition ext (s : Site) : M nat :=
  let* k := next_call in
  if ext_fails E s k then throw (ExtError s) else ret k.

(** [tempfile.NamedTemporaryFile(delete=False)]: a new, empty file. *)
Definition NamedTemporaryFile : M nat :=
  fun w =>
    let p := next_tmp w in
    (Ok p, set_next_tmp (S p) (set_disk (insert p Blank) w)).

Definition write_file (p : nat) (f : File) : M unit :=
  modify (set_disk (insert p f)).

Definition read_file (p : nat) : M File :=
  let* d := get disk in
  match d !! p with
  | Some f => ret f
  | None => throw (FileNotFoundError p)
  end.

(** [os.path.exists] on a temporary file. *)
Definition tmp_exists (p : nat) : M bool :=
  let* d := get disk in
  ret (bool_decide (is_Some (d !! p))).

(** [os.unlink]. *)
Definition os_unlink (p : nat) : M unit :=
  ext Os_unlink >>
  let* d := get disk in
  match d !! p with
  | Some _ => modify (set_disk (delete p))
  | None => throw (FileNotFoundError p)
  end.

(** [for x in xs: acc = body acc x]. *)
Fixpoint for_each {A S} (xs : list A) (body : S -> A -> M S) (acc : S) : M S :=
  match xs with
  | [] => ret acc
  | x :: rest => let* acc' := body acc x in for_each rest body acc'
  end.

(** [range(n)] and [enumerate]. *)
Definition range (n : Z) : list Z := map Z.of_nat (seq 0 (Z.to_nat n)).

Definition enumerate {A} (xs : list A) : list (nat * A) :=
  imap (fun i x => (i, x)) xs.

(** ** The slide renderer: [AdvancedVideoGenerator], first half *)

(** [a / b] on integers raises on a zero divisor; the quotient is kept as
    the pair it was formed from. *)
Definition true_div (num den : Z) : M (Z * Z) :=
  if den =? 0 then throw ZeroDivisionError else ret (num, den).

(** [int(base + slope * q)]. *)
Definition int_affine (base slope : Z) (q : Z * Z) : Z :=
  float_int E base slope (fst q) (snd q).

(** [range(start, stop, step)] for a positive step. *)
Definition range3 (start stop step : Z) : list Z :=
  map (fun k => start + Z.of_nat k * step)
      (seq 0 (Z.to_nat ((stop - start + step - 1) / step))).

Definition gradient (img : Image) (width height : Z)
    (r0 rs g0 gs b0 bs : Z) : M Image :=
  for_each (range height)
    (fun img y =>
       let* factor := true_div y height in
       let r := int_affine r0 rs factor in
       let g := int_affine g0 gs factor in
       let b := int_affine b0 bs factor in
       ret (draw (Line 0 y width y (RGB r g b) 0) img))
    img.

Definition _add_geometric_patterns (img : Image) (width height : Z)
    (color : Color) : Image :=
  let spacing := 100 in
  fold_left
    (fun img x => draw (Line x 0 (x + height) height color 1) img)
    (range3 (- height) width spacing) img.

Definition _apply_corporate_template (img : Image) (width height : Z) : M Image :=
  let* img := gradient img width height 25 70 50 120 100 155 in
  ret (_add_geometric_patterns img width height (RGBA 255 255 255 30)).

Definition _apply_modern_template (img : Image) (width height : Z) : M Image :=
  let* img := gradient img width height 45 155 25 200 85 170 in
  let accent_color := RGBA 255 255 255 100 in
  ret (fold_left
         (fun img i => draw (Line i 0 (i + 100) height accent_color 2) img)
         (range3 0 width 150) img).

Definition _apply_minimalist_template (img : Image) (width height : Z) : M Image :=
  let img := draw (Rectangle 0 0 width height (RGB 248 249 250)) img in
  let accent_height := height / 20 in
  ret (draw (Rectangle 0 0 width accent_height (RGB 59 130 246)) img).

Definition _apply_default_template (img : Image) (width height : Z) : M Image :=
  gradient img width height 240 (-40) 240 (-40) 240 (-40).

(** The exception handlers of the renderer log and keep the image as it
    was when the guarded block was entered: the guarded calls that can
    raise all come before the block draws. *)
Definition _add_company_logo (img : Image) (logo : Logo) (width height : Z)
    : M Image :=
  try_except
    (let* logo_img :=
       match logo with
       | LogoPath p =>
           if os_path_exists E p
           then pil (Call_open p) >> ret (Some (Image_open E p))
           else ret None
       | LogoImage i => ret (Some i)
       | _ => ret None
       end in
     match logo_img with
     | None => ret img
     | Some logo_img =>
         let logo_size := Z.min (width / 8) (height / 8) in
         pil (Call_convert logo_img "RGBA") >>
         let logo_img := MkImage "RGBA" (img_size logo_img)
                           (img_ops logo_img ++ [Converted "RGBA"]) in
         pil (Call_thumbnail logo_img (logo_size, logo_size)) >>
         let size' := thumbnail_size E (img_size logo_img) (logo_size, logo_size) in
         let logo_img := MkImage "RGBA" size' (img_ops logo_img ++ [Resized size']) in
         let logo_x := width - fst size' - 50 in
         let logo_y := 50 in
         pil (Call_paste img logo_img logo_x logo_y) >>
         ret (draw (Paste logo_img logo_x logo_y) img)
     end)
    (fun e => emit (LogWarning (Say "Failed to add company logo")) >> ret img).

Definition font_paths : list string :=
  [ "/System/Library/Fonts/Arial.ttf";
    "/usr/share/fonts/truetype/dejavu/DejaVuSans-Bold.ttf";
    "C:/Windows/Fonts/arial.ttf" ].

(** The loop of [_get_font]: the first candidate that exists and loads. *)
Fixpoint probe_fonts (paths : list string) (base_size : Z) : M Font :=
  match paths with
  | [] => ret DefaultFont
  | font_path :: rest =>
      let* found :=
        try_except
          (if os_path_exists E font_path
           then pil (Call_truetype font_path base_size) >>
                ret (Some (TrueType font_path base_size))
           else ret None)
          (fun _ => ret None) in
      match found with
      | Some font => ret font
      | None => probe_fonts rest base_size
      end
  end.

Definition _get_font (font_type : string) (width : Z) : M Font :=
  let base_size :=
    if String.eqb font_type "title" then width / 25 else width / 35 in
  probe_fonts font_paths base_size.

Definition bbox_width (bbox : Z * Z * Z * Z) : Z :=
  let '(x0, _, x1, _) := bbox in x1 - x0.

(** [shadow_color[:3]]. *)
Definition first3 (c : Color) : Color :=
  match c with
  | RGBA r g b _ => RGB r g b
  | _ => c
  end.

Definition _draw_text_with_shadow (img : Image) (text : str) (font : Font)
    (width y : Z) (align : string) (text_color shadow_color : Color) : Image :=
  let text_width := bbox_width (textbbox E font text) in
  let x :=
    if String.eqb align "center" then (width - text_width) / 2
    else if String.eqb align "right" then width - text_width - 50
    else 50 in
  let shadow_offset := 3 in
  let img := draw (Text (x + shadow_offset) (y + shadow_offset) text font
                        (first3 shadow_color)) img in
  draw (Text x y text font text_color) img.

(** The loop of [_wrap_text]: the lines finished so far and the words of
    the line being filled. *)
Fixpoint wrap_words (font : Font) (max_width : Z) (words : list str)
    (lines : list str) (current_line : list str) : list str * list str :=
  match words with
  | [] => (lines, current_line)
  | word :: rest =>
      let test_line := join SPACE (current_line ++ [word]) in
      if bbox_width (getbbox E font test_line) <=? max_width
      then wrap_words font max_width rest lines (current_line ++ [word])
      else if truthy current_line
      then wrap_words font max_width rest
             (lines ++ [join SPACE current_line]) [word]
      else wrap_words font max_width rest (lines ++ [word]) current_line
  end.

Definition _wrap_text (text : str) (font : Font) (max_width : Z) : list str :=
  let words := split text in
  let '(lines, current_line) := wrap_words font max_width words [] [] in
  if truthy current_line then lines ++ [join SPACE current_line] else lines.

Definition slide_get (slide : Slide) (key : string) : str :=
  default [] (slide !! key).

Definition _add_slide_content (img : Image) (slide : Slide) (width height : Z)
    : M Image :=
  try_except
    (let* title_font := _get_font "title" width in
     let* content_font := _get_font "content" width in
     let title := strip (slide_get slide "title") in
     let img :=
       if truthy title
       then let title_y := height / 6 in
            _draw_text_with_shadow img title title_font width title_y "center"
              (RGB 255 255 255) (RGBA 0 0 0 128)
       else img in
     let content := strip (slide_get slide "content") in
     let img :=
       if truthy content
       then let content_y := height / 3 in
            let content_lines := _wrap_text content content_font (width - 200) in
            fold_left
              (fun img '(i, line) =>
                 let line_y := content_y + Z.of_nat i * 80 in
                 if line_y <? height - 100
                 then _draw_text_with_shadow img line content_font width line_y
                        "center" (RGB 255 255 255) (RGBA 0 0 0 100)
                 else img)
              (enumerate content_lines) img
       else img in
     ret img)
    (fun e => emit (LogError (Say "Failed to add slide content")) >> ret img).

(** [str(n)] for an integer. *)
Definition str_of_Z (n : Z) : str :=
  lit (DecimalString.NilZero.string_of_int (Z.to_int n)).

Definition _add_slide_metadata (img : Image) (slide_num total_slides : Z)
    (width height : Z) : M Image :=
  let progress_width := width - 100 in
  let progress_height := 8 in
  let progress_x := 50 in
  let progress_y := height - 60 in
  let img := draw (Rectangle progress_x progress_y
                     (progress_x + progress_width) (progress_y + progress_height)
                     (RGB 200 200 200)) img in
  let* ratio := true_div slide_num total_slides in
  let fill_width := int_affine 0 progress_width ratio in
  let img := draw (Rectangle progress_x progress_y
                     (progress_x + fill_width) (progress_y + progress_height)
                     (RGB 59 130 246)) img in
  let slide_text := str_of_Z slide_num ++ lit " / " ++ str_of_Z total_slides in
  let* font := _get_font "content" width in
  ret (draw (Text progress_x (progress_y - 30) slide_text font (RGB 100 100 100)) img).

(** [img] is reassigned after each effect; the handler returns the image
    as it stood when the effect raised. *)
Definition _apply_visual_effects (img : Image) (template : string) : M Image :=
  let warn (cur : Image) (e : Exn) : M Image :=
    emit (LogWarning (Say "Failed to apply visual effects")) >> ret cur in
  try_except
    (pil (Call_filter img) >>
     let img1 := draw (UnsharpMask 1 150 3) img in
     try_except
       (pil (Call_enhance_contrast img1) >>
        let img2 := draw (EnhanceContrast 105) img1 in
        if String.eqb template "modern"
        then try_except
               (pil (Call_enhance_color img2) >>
                ret (draw (EnhanceColor 110) img2))
               (warn img2)
        else ret img2)
       (warn img1))
    (warn img).

Definition _create_enhanced_slide (cfg : VideoConfig) (slide : Slide)
    (template : string) (slide_num total_slides : Z) (company_logo : Logo)
    : M Image :=
  let '(width, height) := resolution cfg in
  let img := Image_new "RGB" (width, height) (ColorName "white") in
  let* img :=
    if String.eqb template "corporate"
    then _apply_corporate_template img width height
    else if String.eqb template "modern"
    then _apply_modern_template img width height
    else if String.eqb template "minimalist"
    then _apply_minimalist_template img width height
    else _apply_default_template img width height in
  let* img :=
    if logo_truthy company_logo
    then _add_company_logo img company_logo width height
    else ret img in
  let* img := _add_slide_content img slide width height in
  let* img := _add_slide_metadata img slide_num total_slides width height in
  _apply_visual_effects img template.

(** ** Narration *)

Fixpoint is_prefix (p s : str) : bool :=
  match p, s with
  | [], _ => true
  | a :: p', b :: s' => (a =? b)%N && is_prefix p' s'
  | _ :: _, [] => false
  end.

(** [s.replace(old, new)] for a non-empty [old]: occurrences are replaced
    from the left and do not overlap; [skip] counts the code points of the
    occurrence just replaced that are still to be passed over. *)
Fixpoint replace_go (old new : str) (skip : nat) (s : str) : str :=
  match s with
  | [] => []
  | c :: s' =>
      match skip with
      | S k => replace_go old new k s'
      | O =>
          if is_prefix old s
          then new ++ replace_go old new (length old - 1) s'
          else c :: replace_go old new 0 s'
      end
  end.

Definition replace (old new : str) (s : str) : str := replace_go old new 0 s.

Definition enhanced_text_to_speech (text : str) (lang : string)
    (speed_factor : float) : M (option nat) :=
  try_except
    (let clean_text :=
       strip (replace (lit ":") (lit ".")
               (replace (lit "]") [] (replace (lit "[SLIDE") [] text))) in
     if negb (truthy clean_text) then ret None
     else
       ext GTTS_new >>
       let* tts_path := NamedTemporaryFile in
       let* k := ext GTTS_save in
       write_file tts_path (Mp3 (speech_seconds E k)) >>
       ext AudioSegment_from_mp3 >>
       let* f := read_file tts_path in
       let* sound :=
         match f with
         | Mp3 d => ret d
         | _ => throw (ExtError AudioSegment_from_mp3)
         end in
       let* sound :=
         if negb (f_eqb speed_factor (f_lit 1 1))
         then ext AudioSegment_speedup >> ret (speedup_seconds E sound speed_factor)
         else ret sound in
       let* enhanced_path := NamedTemporaryFile in
       ext AudioSegment_export >>
       write_file enhanced_path (Mp3 sound) >>
       os_unlink tts_path >>
       ret (Some enhanced_path))
    (fun e => emit (StError (Say "Error in enhanced TTS")) >> ret None).

Definition _process_slide_audio (slide : Slide) (tts_lang : string)
    (speed_factor : float) : M (option nat) :=
  try_except
    (let* content :=
       match slide !! "content" with
       | Some c => ret c
       | None => throw (KeyError "content")
       end in
     let* audio_file_path := enhanced_text_to_speech content tts_lang speed_factor in
     let* found :=
       match audio_file_path with
       | Some p => tmp_exists p
       | None => ret false
       end in
     match audio_file_path, found with
     | Some p, true =>
         modify (set_temp_files (fun l => l ++ [p])) >> ret (Some p)
     | _, _ =>
         emit (LogWarning (Say "Audio file not generated or doesn't exist for slide")) >>
         ret None
     end)
    (fun e => emit (LogError (Say "Failed to process audio for slide")) >> ret None).

(** ** The slide clip builder *)

Definition AudioFileClip (p : nat) : M AudioClip :=
  ext AudioFileClip_new >>
  let* f := read_file p in
  match f with
  | Mp3 d => ret {| audio_file := p; audio_duration := d |}
  | _ => throw (ExtError AudioFileClip_new)
  end.

Definition ImageClip (p : nat) (duration : float) : M Clip :=
  ext ImageClip_new >>
  let* f := read_file p in
  match f with
  | Png img => ret {| clip_frame := img; clip_duration := duration;
                      clip_fx := []; clip_audio := None |}
  | _ => throw (ExtError ImageClip_new)
  end.

Definition add_fx (fx : Fx) (c : Clip) : Clip :=
  {| clip_frame := clip_frame c; clip_duration := clip_duration c;
     clip_fx := clip_fx c ++ [fx]; clip_audio := clip_audio c |}.

Definition fadein (c : Clip) (d : float) : M Clip :=
  ext Fx_fadein >> ret (add_fx (FadeIn d) c).

Definition fadeout (c : Clip) (d : float) : M Clip :=
  ext Fx_fadeout >> ret (add_fx (FadeOut d) c).

(** [volumex(clip, 1.0)]: the same audio. *)
Definition volumex (a : AudioClip) : M AudioClip :=
  ext Fx_volumex >> ret a.

Definition set_audio (c : Clip) (a : AudioClip) : M Clip :=
  ext Set_audio >>
  ret {| clip_frame := clip_frame c; clip_duration := clip_duration c;
         clip_fx := clip_fx c; clip_audio := Some a |}.

(** [metrics.total_duration += duration; metrics.processed_slides += 1]. *)
Definition count_processed (duration : float) : M unit :=
  modify (set_metrics (fun m =>
    {| total_slides := total_slides m;
       processed_slides := processed_slides m + 1;
       failed_slides := failed_slides m;
       total_duration := f_add (total_duration m) duration;
       file_size_mb := file_size_mb m;
       generation_time := generation_time m |})).

(** [metrics.failed_slides += 1]. *)
Definition count_failed : M unit :=
  modify (set_metrics (fun m =>
    {| total_slides := total_slides m;
       processed_slides := processed_slides m;
       failed_slides := failed_slides m + 1;
       total_duration := total_duration m;
       file_size_mb := file_size_mb m;
       generation_time := generation_time m |})).

(** The silent clip of the [else] branch and of the fall-back. *)
Definition silent_clip (cfg : VideoConfig) (tmp_img : nat) : M (option Clip) :=
  let duration := min_slide_duration cfg in
  let* img_clip := ImageClip tmp_img duration in
  let* img_clip := fadein img_clip (fade_duration cfg) in
  let* img_clip := fadeout img_clip (fade_duration cfg) in
  count_processed duration >>
  ret (Some img_clip).

(** Lines 420 to 444, the body of the inner [try]: the clip with its
    narration. *)
Definition narrated_clip (cfg : VideoConfig) (tmp_img p : nat) : M (option Clip) :=
  let* audio_clip := AudioFileClip p in
  let* audio_clip := volumex audio_clip in
  let duration :=
    py_max
      (py_min (f_add (audio_duration audio_clip) (f_lit 1 1))
              (max_slide_duration cfg))
      (min_slide_duration cfg) in
  let* img_clip := ImageClip tmp_img duration in
  let* img_clip := fadein img_clip (fade_duration cfg) in
  let* img_clip := fadeout img_clip (fade_duration cfg) in
  let* audio_clip := volumex audio_clip in
  let* video_clip := set_audio img_clip audio_clip in
  count_processed duration >>
  ret (Some video_clip).

(** Lines 418 to 468: [if audio_file_path and os.path.exists(...)], the
    inner [try] with its fall-back, and the [else]. *)
Definition compose_clip (cfg : VideoConfig) (tmp_img : nat)
    (audio_file_path : option nat) (found : bool) : M (option Clip) :=
  match audio_file_path, found with
  | Some p, true =>
      try_except
        (narrated_clip cfg tmp_img p)
        (fun audio_error =>
           emit (LogError (Say "Failed to create audio clip")) >>
           silent_clip cfg tmp_img)
  | _, _ => silent_clip cfg tmp_img
  end.

Definition _create_slide_video_clip (cfg : VideoConfig) (slide : Slide)
    (template : string) (slide_num total_slides : Z) (company_logo : Logo)
    (tts_lang : string) (speed_factor : float) : M (option Clip) :=
  try_except
    (let* slide_img :=
       _create_enhanced_slide cfg slide template slide_num total_slides
         company_logo in
     let* tmp_img := NamedTemporaryFile in
     ext Image_save >>
     write_file tmp_img (Png slide_img) >>
     modify (set_temp_files (fun l => l ++ [tmp_img])) >>
     let* audio_file_path := _process_slide_audio slide tts_lang speed_factor in
     let* found :=
       match audio_file_path with
       | Some p => tmp_exists p
       | None => ret false
       end in
     compose_clip cfg tmp_img audio_file_path found)
    (fun e =>
       emit (LogError (Say1 "Failed to create video clip for slide" slide_num)) >>
       count_failed >>
       ret None).

Definition _cleanup_temp_files : M unit :=
  let* files := get temp_files in
  for_each files
    (fun _ temp_file =>
       try_except
         (let* found := tmp_exists temp_file in
          if found then os_unlink temp_file else ret tt)
         (fun e => emit (LogWarning (Say1 "Failed to cleanup" (Z.of_nat temp_file)))))
    tt >>
  modify (set_temp_files (fun _ => [])).

(** [_show_progress(stage, progress, total_stages, message)]: the progress
    bar, the stage text and the metrics of the sidebar; the fraction shown
    by the bar is not recorded. *)
Definition _show_progress (stage : Z) (message : Msg) : M unit :=
  let* m := get metrics in
  emit (ShowProgress stage message m).

(** ** The company logo *)

Definition logo_colors : list Color :=
  [ ColorName "#00F260"; ColorName "#0575E6"; ColorName "#F2C94C";
    ColorName "#f2709c"; ColorName "#4facfe"; ColorName "#6A82FB";
    ColorName "#FC466B"; ColorName "#38f9d7" ].

(** [colors[hash(company_name) % len(colors)]]. *)
Definition logo_color (company_name : str) : Color :=
  default (ColorName "")
    (logo_colors !! Z.to_nat (hash E company_name `mod` Z.of_nat (length logo_colors))).

Definition generate_initials_logo (company_name : str) : M Image :=
  let words :=
    split (replace (lit "Inc") []
            (replace (lit "Pvt") [] (replace (lit "Ltd") [] company_name))) in
  let initials :=
    concat (map (fun word => upper (take 1 word))
                (filter (fun word => truthy word = true) (take 2 words))) in
  let initials := if truthy initials then initials else lit "CO" in
  let size := 200 in
  let img := Image_new "RGBA" (size, size) (RGBA 0 0 0 0) in
  let color := logo_color company_name in
  let img := draw (Ellipse 10 10 (size - 10) (size - 10) (Some color) None 1) img in
  let img := draw (Ellipse 5 5 (size - 5) (size - 5) None
                     (Some (ColorName "white")) 5) img in
  let* font :=
    try_except
      (pil (Call_truetype "arialbd.ttf" 80) >> ret (TrueType "arialbd.ttf" 80))
      (fun _ =>
         try_except
           (pil (Call_truetype "/System/Library/Fonts/Supplemental/Arial Bold.ttf" 80) >>
            ret (TrueType "/System/Library/Fonts/Supplemental/Arial Bold.ttf" 80))
           (fun _ => ret DefaultFont)) in
  let '(x0, y0, x1, y1) := textbbox E font initials in
  let text_width := x1 - x0 in
  let text_height := y1 - y0 in
  let x := (size - text_width) / 2 in
  let y := (size - text_height) / 2 - 10 in
  let img := draw (Text (x + 2) (y + 2) initials font (RGBA 0 0 0 76)) img in
  ret (draw (Text x y initials font (ColorName "white")) img).

(** The request goes to a URL made from the company name; its answer is
    the environment's: an image when the status is 200, the content type
    an image and the body decodes, nothing otherwise. *)
Definition extract_company_logo (company_name : str) : M Image :=
  try_except
    (let* k := ext Requests_get in
     match logo_response E k with
     | Some logo_img =>
         ret (MkImage (img_mode logo_img) (200, 200)
                (img_ops logo_img ++ [Resized (200, 200)]))
     | None => generate_initials_logo company_name
     end)
    (fun _ => generate_initials_logo company_name).

(** ** Assembly and export: [create_professional_placement_video] *)

Definition len {A} (l : list A) : Z := Z.of_nat (length l).

(** What a future holds once its worker is done: the value the builder
    returned or the exception it raised. *)
Definition run_future {A} (job : M A) : M (Result A) :=
  fun w => let '(r, w') := job w in (Ok r, w').

(** [future.result()]. *)
Definition future_result (results : gmap nat (Result (option Clip)))
    (future : nat) : M (option Clip) :=
  match results !! future with
  | Some (Ok clip) => ret clip
  | Some (Raise e) => throw e
  | None => throw (KeyError "future")
  end.

(** [future_to_slide]: the future of the [i]-th submission is named [i]
    and stands for the slide of index [i]. *)
Definition future_index {A} (slides : list A) : gmap nat nat :=
  list_to_map (map (fun '(i, _) => (i, i)) (enumerate slides)).

(** Lines 994 to 1011: the loop over [as_completed], the sort by slide
    index and the projection on the clips. *)
Definition collect_step (n_slides : Z) (future_to_slide : gmap nat nat)
    (results : gmap nat (Result (option Clip)))
    (video_clips : list (nat * Clip)) (future : nat) : M (list (nat * Clip)) :=
  let* slide_idx :=
    match future_to_slide !! future with
    | Some i => ret i
    | None => throw (KeyError "future")
    end in
  try_except
    (let* clip := future_result results future in
     let video_clips :=
       match clip with
       | Some c => video_clips ++ [(slide_idx, c)]
       | None => video_clips
       end in
     _show_progress 2 (Say2 "Generated slides" (len video_clips) n_slides) >>
     ret video_clips)
    (fun e =>
       emit (LogError (Say1 "Slide failed" (Z.of_nat slide_idx + 1))) >>
       count_failed >>
       ret video_clips).

Definition collect_completed (n_slides : Z) (future_to_slide : gmap nat nat)
    (results : gmap nat (Result (option Clip))) : M (list Clip) :=
  let* video_clips :=
    for_each (as_completed E)
      (collect_step n_slides future_to_slide results) [] in
  let video_clips := sort_by_key fst video_clips in
  ret (map snd video_clips).

Section Assembly.

Variables (cfg : VideoConfig) (slides : list Slide) (template : string)
          (company_logo : Logo) (tts_lang : string) (speed_factor : float).

Definition build (i : nat) (slide : Slide) : M (option Clip) :=
  _create_slide_video_clip cfg slide template (Z.of_nat i + 1) (len slides)
    company_logo tts_lang speed_factor.

(** The pool: every submitted slide is built by a worker.  The workers
    are taken to run one after the other, in the order in which their
    futures complete. *)
Definition run_pool : M (gmap nat (Result (option Clip))) :=
  for_each (as_completed E)
    (fun results future =>
       match slides !! future with
       | Some slide =>
           let* r := run_future (build future slide) in
           ret (<[future := r]> results)
       | None => ret results
       end)
    ∅.

Definition process_parallel : M (list Clip) :=
  _show_progress 1 (Say "Processing slides in parallel...") >>
  emit (PoolCreated (Z.min 4 (len slides))) >>
  let future_to_slide := future_index slides in
  let* results := run_pool in
  collect_completed (len slides) future_to_slide results.

Definition process_sequential : M (list Clip) :=
  for_each (enumerate slides)
    (fun video_clips '(i, slide) =>
       _show_progress 2 (Say2 "Generating slide" (Z.of_nat i + 1) (len slides)) >>
       let* clip := build i slide in
       ret (match clip with
            | Some c => video_clips ++ [c]
            | None => video_clips
            end))
    [].

End Assembly.

Definition set_generation_time (t : float) : M unit :=
  modify (set_metrics (fun m =>
    {| total_slides := total_slides m;
       processed_slides := processed_slides m;
       failed_slides := failed_slides m;
       total_duration := total_duration m;
       file_size_mb := file_size_mb m;
       generation_time := t |})).

Definition set_file_size_mb (s : float) : M unit :=
  modify (set_metrics (fun m =>
    {| total_slides := total_slides m;
       processed_slides := processed_slides m;
       failed_slides := failed_slides m;
       total_duration := total_duration m;
       file_size_mb := s;
       generation_time := generation_time m |})).

Definition set_total_slides (n : Z) : M unit :=
  modify (set_metrics (fun m =>
    {| total_slides := n;
       processed_slides := processed_slides m;
       failed_slides := failed_slides m;
       total_duration := total_duration m;
       file_size_mb := file_size_mb m;
       generation_time := generation_time m |})).

(** [AdvancedVideoGenerator(config)]: fresh metrics, no temporary file. *)
Definition new_generator : M unit :=
  modify (fun w => set_temp_files (fun _ => []) (set_metrics (fun _ => new_metrics) w)).

(** Lines 1026 to 1089: what follows the processing of the slides, from
    the test on the list of clips to the return. *)
Definition export_clips (cfg : VideoConfig) (start_time : float)
    (video_clips : list Clip) : M (option nat) :=
  if negb (truthy video_clips)
  then emit (StError (Say "No video clips were generated successfully.")) >>
       ret None
  else
    _show_progress 4 (Say "Assembling final video...") >>
    emit (Concatenate video_clips) >>
    ext Concatenate_videoclips >>
    (if bool_decide (resolution cfg = (1920, 1080)) then ret tt
     else emit (ResizeVideo (resolution cfg)) >> ext Video_resize >> ret tt) >>
    _show_progress 5 (Say "Applying final enhancements...") >>
    _show_progress 6 (Say "Exporting high-quality video...") >>
    let* tmp_video := NamedTemporaryFile in
    emit (WriteVideofile tmp_video cfg) >>
    ext Write_videofile >>
    write_file tmp_video (Mp4 video_clips) >>
    let* k1 := next_call in
    set_generation_time (f_sub (time_time E k1) start_time) >>
    let* found := tmp_exists tmp_video in
    (if found
     then let* f := read_file tmp_video in set_file_size_mb (getsize_mb E f)
     else ret tt) >>
    _show_progress 7 (Say "Video created!") >>
    for_each video_clips (fun _ clip => emit (ClipClosed clip)) tt >>
    _cleanup_temp_files >>
    emit (StSuccess (Say "Professional video generated successfully!")) >>
    ret (Some tmp_video).

Definition create_professional_placement_video (slides : list Slide)
    (company_name : str) (template : string) (tts_lang : string)
    (speed_factor : float) (config : option VideoConfig)
    (parallel_processing : bool) : M (option nat) :=
  if negb (VIDEO_LIBS_AVAILABLE E)
  then emit (StError (Say "Video libraries not available. Please install moviepy and PIL.")) >>
       ret None
  else if negb (truthy slides)
  then emit (StError (Say "No slides provided for video generation.")) >>
       ret None
  else
    let cfg := default default_config config in
    new_generator >>
    let* k0 := next_call in
    let start_time := time_time E k0 in
    try_except
      (set_total_slides (len slides) >>
       _show_progress 0 (Say "Initializing professional video generation...") >>
       let* company_logo := extract_company_logo company_name in
       let company_logo := LogoImage company_logo in
       _show_progress 0 (Say "Processing company branding...") >>
       let* video_clips :=
         if parallel_processing && (3 <? len slides)
         then process_parallel cfg slides template company_logo tts_lang speed_factor
         else process_sequential cfg slides template company_logo tts_lang speed_factor in
       export_clips cfg start_time video_clips)
      (fun e =>
         emit (LogError (Say "Critical error in video generation")) >>
         emit (StError (Say "Video generation failed")) >>
         _cleanup_temp_files >>
         ret None).

End Calls.

End Model.

Notation "'let*' x ':=' m 'in' k" := (bind m (fun x => k))
  (at level 10, x name, m at level 100, k at level 200, only parsing).
Notation "m '>>' k" := (bind m (fun _ => k))
  (at level 90, right associativity, only parsing).


(** ** The script parser *)

(** The tables of the interpreter's Unicode database that the program
    consults besides white space: the decimal digits that [\d] matches in
    a pattern, [str.isdigit], and the case mapping of [str.upper]. *)
Record Unicode := {
  isdecimal : char -> bool;
  isdigit : char -> bool;
  upper_case : str -> str
}.

Definition NL : str := [10%N].

(** *** Regular expressions

    The constructs of [re] that the program's pattern uses, matched as
    [re] does: by backtracking, a greedy repetition trying the longest
    run first and a lazy one the shortest. *)

Inductive CharClass :=
| Exactly (c : char)
| DecimalDigit                  (* \d *)
| WhiteSpace                    (* \s *)
| AnyChar.                      (* . under re.DOTALL *)

Inductive Re :=
| Eps
| One (c : CharClass)
| Many (greedy : bool) (least : nat) (c : CharClass)   (* c*, c+, c*? *)
| Cat (r1 r2 : Re)
| Alt (r1 r2 : Re)
| Group (n : nat) (r : Re)
| Ahead (r : Re)                (* (?=r) *)
| EndZ.                         (* \Z *)

Definition accepts (U : Unicode) (c : CharClass) (x : char) : bool :=
  match c with
  | Exactly y => (x =? y)%N
  | DecimalDigit => isdecimal U x
  | WhiteSpace => is_space x
  | AnyChar => true
  end.

(** A repetition of a class, at least [least] times, followed by [k]. *)
Fixpoint many {R : Type} (U : Unicode) (greedy : bool) (c : CharClass) (least : nat)
    (s : str) (k : str -> option R) : option R :=
  let stop := match least with O => k s | S _ => None end in
  match s with
  | x :: s' =>
      if accepts U c x
      then if greedy
           then match many U greedy c (pred least) s' k with
                | Some r => Some r
                | None => stop
                end
           else match stop with
                | Some r => Some r
                | None => many U greedy c (pred least) s' k
                end
      else stop
  | [] => stop
  end.

(** [run U r s gs k]: match [r] at the head of [s], then go on with [k] on
    what is left and the groups captured; the first way that succeeds. *)
Fixpoint run {R : Type} (U : Unicode) (r : Re) (s : str) (gs : gmap nat str)
    (k : str -> gmap nat str -> option R) : option R :=
  match r with
  | Eps => k s gs
  | One c =>
      match s with
      | x :: s' => if accepts U c x then k s' gs else None
      | [] => None
      end
  | Many greedy least c => many U greedy c least s (fun s' => k s' gs)
  | Cat r1 r2 => run U r1 s gs (fun s' gs' => run U r2 s' gs' k)
  | Alt r1 r2 =>
      match run U r1 s gs k with
      | Some x => Some x
      | None => run U r2 s gs k
      end
  | Group n r =>
      run U r s gs
        (fun s' gs' => k s' (<[n := take (length s - length s') s]> gs'))
  | Ahead r =>
      match run U r s gs (fun _ gs' => Some gs') with
      | Some gs' => k s gs'
      | None => None
      end
  | EndZ => match s with [] => k s gs | _ :: _ => None end
  end.

(** A literal string, and a sequence of patterns. *)
Definition Str (s : string) : Re :=
  foldr (fun c r => Cat (One (Exactly c)) r) Eps (lit s).

Definition cat (rs : list Re) : Re := foldr Cat Eps rs.

(** A match at the head of [s]: its length and its groups. *)
Definition match_at (U : Unicode) (r : Re) (s : str)
    : option (nat * gmap nat str) :=
  run U r s ∅ (fun s' gs => Some (length s - length s', gs))%nat.

(** [re.findall]: the matches from left to right, each search starting
    where the last match ended; [skip] counts the code points of the last
    match that are still to be passed over.  (The matches of the
    program's pattern are not empty; after an empty match the search
    would go on one code point further.) *)
Fixpoint findall_go (U : Unicode) (r : Re) (skip : nat) (s : str)
    : list (gmap nat str) :=
  match s with
  | [] =>
      match skip with
      | O => match match_at U r [] with Some (_, gs) => [gs] | None => [] end
      | S _ => []
      end
  | _ :: s' =>
      match skip with
      | S n => findall_go U r n s'
      | O =>
          match match_at U r s with
          | Some (n, gs) => gs :: findall_go U r (n - 1) s'
          | None => findall_go U r 0 s'
          end
      end
  end.

Definition findall (U : Unicode) (r : Re) (s : str) : list (gmap nat str) :=
  findall_go U r 0 s.

(** A group of a match; the empty string when it took no part. *)
Definition group (gs : gmap nat str) (n : nat) : str := default [] (gs !! n).

(** [r'\[SLIDE \d+:\s*(.*?)\]\n(.*?)(?=\n\[SLIDE|\Z)'], with [re.DOTALL];
    first its look-ahead. *)
Definition next_slide_or_end : Re :=
  Ahead (Alt (Cat (One (Exactly 10%N)) (Str "[SLIDE")) EndZ).

Definition slide_pattern : Re :=
  cat [ Str "[SLIDE "; Many true 1 DecimalDigit; Str ":";
        Many true 0 WhiteSpace;
        Group 1 (Many false 0 AnyChar); Str "]"; One (Exactly 10%N);
        Group 2 (Many false 0 AnyChar);
        next_slide_or_end ].

Definition parse_script_into_slides (U : Unicode) (script : str) : list Slide :=
  let matches := findall U slide_pattern script in
  fold_left
    (fun slides gs =>
       let title := strip (group gs 1) in
       let content :=
         strip (replace (lit "narrator:") []
                 (replace (lit "Narrator:") []
                   (replace NL SPACE (strip (group gs 2))))) in
       if truthy title && truthy content
       then slides ++ [mk_slide title content]
       else slides)
    matches [].

(** ** The WhatsApp link *)

(** [str.encode('utf-8')] on one code point; a surrogate has no encoding
    ([UnicodeEncodeError]). *)
Definition utf8 (c : char) : option (list N) :=
  (if c <? 128 then Some [c]
   else if c <? 2048 then Some [192 + c / 64; 128 + c mod 64]
   else if (55296 <=? c) && (c <=? 57343) then None
   else if c <? 65536
   then Some [224 + c / 4096; 128 + (c / 64) mod 64; 128 + c mod 64]
   else if c <? 1114112
   then Some [240 + c / 262144; 128 + (c / 4096) mod 64;
              128 + (c / 64) mod 64; 128 + c mod 64]
   else None)%N.

Definition encode (s : str) : option (list N) :=
  bytes ← mapM utf8 s; Some (concat bytes).

(** The bytes that [quote] never escapes: letters, digits and [_.-~]. *)
Definition always_safe (b : N) : bool :=
  ((65 <=? b) && (b <=? 90) || (97 <=? b) && (b <=? 122) ||
   (48 <=? b) && (b <=? 57) ||
   (b =? 95) || (b =? 46) || (b =? 45) || (b =? 126))%N.

(** ["0123456789ABCDEF"[n]]. *)
Definition hex_digit (n : N) : char :=
  (if n <? 10 then 48 + n else 55 + n)%N.

(** A byte as [quote] writes it, with [safe='/']: itself, or [%XX]. *)
Definition quote_byte (b : N) : str :=
  if always_safe b || (b =? 47)%N then [b]
  else [37%N; hex_digit (b / 16); hex_digit (b mod 16)].

(** [urllib.parse.quote(string)]. *)
Definition quote (s : str) : option str :=
  bytes ← encode s; Some (concat (map quote_byte bytes)).

(** [generate_whatsapp_web_link(message, phone_number)]; [None] when
    [quote] raises. *)
Definition generate_whatsapp_web_link (U : Unicode) (message : str)
    (phone_number : option str) : option str :=
  encoded_message ← quote message;
  if truthy (default [] phone_number)
  then
    let phone_number :=
      filter (fun c => isdigit U c = true) (default [] phone_number) in
    Some (lit "https://wa.me/" ++ phone_number ++ lit "?text=" ++ encoded_message)
  else
    Some (lit "https://web.whatsapp.com/send?text=" ++ encoded_message).

(** ** The card renderer: [create_interactive_slide]

    A second renderer of slides, in portrait format, with its own drawing
    calls; the assembly of the video does not use it. *)

(** What is drawn on a card, by the Pillow call that draws it; the
    abscissa of a text may be a half. *)
Inductive CardOp :=
| CardPaste (src : Image) (x y : Z) (mask : bool)
| CardText (x : Q) (y : Z) (text : str) (font : Font) (fill : Color)
| CardRoundedRectangle (x0 y0 x1 y1 : Z) (radius : Z) (fill : Color)
| CardEllipse (x0 y0 x1 y1 : Z) (fill : Color)
| CardLine (x0 y0 x1 y1 : Z) (fill : Color) (width : Z).

Record Card := {
  card_size : Z * Z;
  card_background : Color;
  card_ops : list CardOp
}.

(** The exceptions that the function lets through. *)
Inductive CardError :=
| CardKeyError (key : string)
| CardAttributeError
| CardZeroDivisionError.

Record ColorScheme := {
  bg : Color;
  primary : Color;
  secondary : Color;
  accent : Color;
  card_bg : Color
}.

Definition tech_forward : ColorScheme := {|
  bg := ColorName "#121212"; primary := ColorName "#FFFFFF";
  secondary := ColorName "#AAAAAA"; accent := ColorName "#00F260";
  card_bg := RGBA 34 34 34 255 |}.

(** [color_schemes.get(template, color_schemes["Tech-Forward"])]. *)
Definition color_scheme (template : string) : ColorScheme :=
  if String.eqb template "Tech-Forward" then tech_forward
  else if String.eqb template "Professional" then
    {| bg := ColorName "#2c3e50"; primary := ColorName "#ffffff";
       secondary := ColorName "#ecf0f1"; accent := ColorName "#3498db";
       card_bg := RGBA 255 255 255 25 |}
  else if String.eqb template "Modern" then
    {| bg := ColorName "#1a1a2e"; primary := ColorName "#00d4aa";
       secondary := ColorName "#ffffff"; accent := ColorName "#ff6b6b";
       card_bg := RGBA 0 212 170 25 |}
  else if String.eqb template "Colorful" then
    {| bg := ColorName "#667eea"; primary := ColorName "#ffffff";
       secondary := ColorName "#ffffff"; accent := ColorName "#f5d76e";
       card_bg := RGBA 255 255 255 38 |}
  else tech_forward.

(** [s.split(sep)] for a separator of one code point; [cur] is the piece
    being read. *)
Fixpoint split_on (sep : char) (cur : str) (s : str) : list str :=
  match s with
  | [] => [cur]
  | c :: s' =>
      if (c =? sep)%N then cur :: split_on sep [] s'
      else split_on sep (cur ++ [c]) s'
  end.

(** [s[i:j]] for indices that are not negative. *)
Definition slice (s : str) (i j : Z) : str :=
  take (Z.to_nat (j - i)) (drop (Z.to_nat i) s).

(** [[s.strip() for s in content_text.split('.') if s.strip()]]. *)
Definition card_points (content_text : str) : list str :=
  filter (fun s => truthy s = true) (map strip (split_on 46%N [] content_text)).

(** [slide_data[key]]. *)
Definition card_item (slide_data : Slide) (key : string) : CardError + str :=
  match slide_data !! key with
  | Some v => inr v
  | None => inl (CardKeyError key)
  end.

Section CardRenderer.

Context `{FO : FloatOps} (E : Env) (U : Unicode).

(** The three fonts: those of Arial, or the built-in one for all three as
    soon as one of them does not load. *)
Definition card_fonts : Font * Font * Font :=
  if pil_fails E (Call_truetype "arialbd.ttf" 80) ||
     pil_fails E (Call_truetype "arial.ttf" 52) ||
     pil_fails E (Call_truetype "arial.ttf" 40)
  then (DefaultFont, DefaultFont, DefaultFont)
  else (TrueType "arialbd.ttf" 80, TrueType "arial.ttf" 52, TrueType "arial.ttf" 40).

(** The card of one point of the content, drawn from [y_start] down. *)
Definition draw_point (colors : ColorScheme) (font_regular : Font)
    (width padding : Z) (y_start : Z) (point : str) : list CardOp :=
  let card_x := padding in
  let card_y := y_start in
  let card_width := width - 2 * padding in
  let card_height := 180 in
  let icon_x := card_x + 30 in
  let icon_y := card_y + card_height / 2 - 15 in
  let text_x := icon_x + 50 in
  let text_y := card_y + 30 in
  let avg_char_width := 22 in
  let max_chars := (card_width - 100) / avg_char_width in
  let wrapped_lines :=
    map (fun i => slice point i (i + max_chars))
        (range3 0 (len point) max_chars) in
  [ CardRoundedRectangle card_x card_y (card_x + card_width) (card_y + card_height)
      20 (card_bg colors);
    CardEllipse icon_x icon_y (icon_x + 30) (icon_y + 30) (accent colors) ] ++
  imap (fun k line =>
          CardText (inject_Z text_x) (text_y + Z.of_nat k * 60) line
            font_regular (primary colors))
       (take 2 wrapped_lines).

Definition create_interactive_slide (slide_data : Slide) (template : string)
    (slide_num total_slides : Z) (company_logo : Logo) : CardError + Card :=
  let width := 1080 in
  let height := 1920 in
  let colors := color_scheme template in
  let '(font_bold, font_regular, font_small) := card_fonts in
  let padding := 80 in
  (* header with logo and title *)
  let header : CardError + (list CardOp * Z) :=
    if (slide_num =? 1) && logo_truthy company_logo
    then
      match company_logo with
      | LogoImage logo =>
          let logo_size := 150 in
          let logo_x := (width - logo_size) / 2 in
          let logo_y := padding in
          let logo_to_paste :=
            MkImage (img_mode logo) (logo_size, logo_size)
              (img_ops logo ++ [Resized (logo_size, logo_size)]) in
          inr ([CardPaste logo_to_paste logo_x logo_y
                  (String.eqb (img_mode logo_to_paste) "RGBA")],
               logo_y + logo_size + 40)
      | _ => inl CardAttributeError
      end
    else inr ([], padding + 40) in
  match header with
  | inl e => inl e
  | inr (ops, title_y) =>
  (* slide title *)
  match card_item slide_data "title" with
  | inl e => inl e
  | inr title =>
  let title := upper_case U title in
  let '(x0, _, x1, _) := textbbox E font_bold title in
  let ops :=
    ops ++ [CardText (Qmake (width - (x1 - x0)) 2) title_y title font_bold
              (accent colors)] in
  (* content area *)
  let y_start := title_y + 150 in
  match card_item slide_data "content" with
  | inl e => inl e
  | inr content_text =>
  let points := card_points content_text in
  let ops :=
    ops ++ concat (imap (fun k point =>
                           draw_point colors font_regular width padding
                             (y_start + Z.of_nat k * (180 + 30)) point)
                        (take 4 points)) in
  (* footer with progress bar *)
  let footer_y := height - 120 in
  let progress_width := width - 2 * padding in
  let ops :=
    ops ++ [CardLine padding footer_y (width - padding) footer_y
              (secondary colors) 8] in
  if total_slides =? 0 then inl CardZeroDivisionError
  else
    let fill_width := float_int E 0 progress_width slide_num total_slides in
    let ops :=
      ops ++ [CardLine padding footer_y (padding + fill_width) footer_y
                (accent colors) 8] in
    let slide_text := str_of_Z slide_num ++ lit " / " ++ str_of_Z total_slides in
    let ops :=
      ops ++ [CardText (inject_Z padding) (footer_y + 20) slide_text font_small
                (secondary colors)] in
    inr {| card_size := (width, height); card_background := bg colors;
           card_ops := ops |}
  end end end.

End CardRenderer.

(** ** Vocabulary of the statements *)

(** A word: non-empty, without white space. *)
Definition is_word (w : str) : Prop :=
  w <> [] /\ Forall (fun c => is_space c = false) w.

(** The pairs that the loop over [as_completed] appends for the futures
    of [order]. *)
Definition tagged {B} (g : nat -> option B) (order : list nat) : list (nat * B) :=
  omap (fun f => pair f <$> g f) order.

Section Vocabulary.

Context `{FO : FloatOps}.

(** The world after some more events. *)
Definition add_events (evs : list Event) (w : World) : World :=
  {| metrics := metrics w; temp_files := temp_files w; disk := disk w;
     next_tmp := next_tmp w; tick := tick w; trace := trace w ++ evs |}.

(** [outcome m Q]: the computation has one result, satisfying [Q], in
    every world, and all it does to the world is to add events that do not
    depend on the world either. *)
Definition outcome {A} (m : M A) (Q : Result A -> Prop) : Prop :=
  exists r evs, Q r /\ forall w, m w = (r, add_events evs w).

(** [yields m P]: in every world the computation returns the same value,
    which satisfies [P], and raises nothing. *)
Definition yields {A} (m : M A) (P : A -> Prop) : Prop :=
  outcome m (fun r => match r with Ok a => P a | Raise _ => False end).

(** [wp m Q w]: the result and the final world of [m] run in [w]. *)
Definition wp {A} (m : M A) (Q : Result A -> World -> Prop) (w : World) : Prop :=
  Q (m w).1 (m w).2.

(** The events of the logger and the error box, which every part of the
    program may add. *)
Definition is_report (e : Event) : bool :=
  match e with
  | LogWarning _ | LogError _ | StError _ => true
  | _ => false
  end.

(** An observation of the world that neither the files, nor the registry
    of temporary files, nor the call counter, nor a report, nor a built
    clip being counted can change. *)
Class Frame {X} (f : World -> X) : Prop := {
  frame_disk g w : f (set_disk g w) = f w;
  frame_temp_files g w : f (set_temp_files g w) = f w;
  frame_next_tmp n w : f (set_next_tmp n w) = f w;
  frame_tick n w : f (set_tick n w) = f w;
  frame_report e w : is_report e = true -> f (add_event e w) = f w;
  frame_processed d w : f (count_processed d w).2 = f w
}.

(** [guards f S m]: running [m] leaves the observation [f] as it was and
    ends in a result of the shape [S]. *)
Definition guards {A X} (f : World -> X) (S : Result A -> Prop)
    (m : M A) : Prop :=
  forall w, f (m w).2 = f w /\ S (m w).1.

(** [keeps f m]: running [m] does not change the observation [f]. *)
Definition keeps {A X} (f : World -> X) (m : M A) : Prop :=
  guards f (fun _ => True) m.

(** The shape of a result that is a value satisfying [P], or an exception. *)
Definition value {A} (P : A -> Prop) (r : Result A) : Prop :=
  match r with Ok a => P a | Raise _ => True end.

(** [img'] is [img] with more drawn on it. *)
Definition extends (img img' : Image) : Prop :=
  img_mode img' = img_mode img /\ img_size img' = img_size img /\
  exists ops, img_ops img' = img_ops img ++ ops.

(** The font [_get_font] settles on: the first candidate that exists and
    loads, the built-in font when there is none. *)
Fixpoint first_font (E : Env) (paths : list string) (size : Z) : Font :=
  match paths with
  | [] => DefaultFont
  | p :: rest =>
      if os_path_exists E p && negb (pil_fails E (Call_truetype p size))
      then TrueType p size
      else first_font E rest size
  end.

Definition resolved_font (E : Env) (font_type : string) (width : Z) : Font :=
  first_font E font_paths
    (if String.eqb font_type "title" then width / 25 else width / 35).

(** The title as [_add_slide_content] draws it on a canvas of the given
    size: stripped, in white, at a sixth of the height, centred by its
    measured width. *)
Definition title_op (E : Env) (slide : Slide) (width height : Z) : DrawOp Image :=
  let title := strip (slide_get slide "title") in
  let font := resolved_font E "title" width in
  Text ((width - bbox_width (textbbox E font title)) / 2) (height / 6)
       title font (RGB 255 255 255).

(** Does the image show the text [t]? *)
Definition draws_text (t : str) (img : Image) : bool :=
  existsb (fun op => match op with
                     | Text _ _ t' _ _ => bool_decide (t' = t)
                     | _ => false
                     end) (img_ops img).

(** [clamp(d + 1.0, min, max)] as the builder computes it. *)
Definition clamp_duration (cfg : VideoConfig) (d : float) : float :=
  py_max (py_min (f_add d (f_lit 1 1)) (max_slide_duration cfg))
         (min_slide_duration cfg).

(** A clip lasts the clamped length of its narration when it has one,
    and the minimum when it is silent. *)
Definition well_timed (cfg : VideoConfig) (c : Clip) : Prop :=
  match clip_audio c with
  | Some a => clip_duration c = clamp_duration cfg (audio_duration a)
  | None => clip_duration c = min_slide_duration cfg
  end.

Definition failed (w : World) : Z := failed_slides (metrics w).
Definition processed (w : World) : Z := processed_slides (metrics w).
(** What a run shows of itself through a reading [g] of its events. *)
Definition view {B} (g : Event -> option B) (w : World) : list B :=
  omap g (trace w).

(** The calls to the exporter: concatenation and the writing of the file. *)
Definition export_of (e : Event) : option Event :=
  match e with
  | Concatenate _ | WriteVideofile _ _ => Some e
  | _ => None
  end.

(** How the slides are scheduled: a pool of a given width is created, or
    the coordinator itself announces the slide it is about to build. *)
Inductive Sched :=
| Pool (max_workers : Z)
| Sequential (slide_num : Z).

Definition sched_of (e : Event) : option Sched :=
  match e with
  | PoolCreated n => Some (Pool n)
  | ShowProgress stage (Say2 text i _) _ =>
      if (stage =? 2) && String.eqb text "Generating slide"
      then Some (Sequential i) else None
  | _ => None
  end.

(** [adds f R m]: running [m] adds to the observation [f] some [X] that,
    with the result of the run, satisfies [R]. *)
Definition adds {A B} (f : World -> list B) (R : list B -> Result A -> Prop)
    (m : M A) : Prop :=
  forall w, exists X, f (m w).2 = f w ++ X /\ R X (m w).1.

(** The shape of a result that is a value satisfying [P]. *)
Definition returned {A} (P : A -> Prop) (r : Result A) : Prop :=
  match r with Ok a => P a | Raise _ => False end.

(** What a run may add to the calls of the exporter: nothing, or the
    concatenation of a list of clips that is not empty, followed or not by
    the writing of the file. *)
Definition export_shape (X : list Event) : Prop :=
  X = [] \/
  exists clips, clips <> [] /\
    (X = [Concatenate clips] \/
     exists p cfg, X = [Concatenate clips; WriteVideofile p cfg]).

(** Every build of a slide of the list returns null, in whatever state. *)
Definition all_builds_null (E : Env) (cfg : VideoConfig) (slides : list Slide)
    (template : string) (tts_lang : string) (speed_factor : float) : Prop :=
  forall i slide logo w,
    slides !! i = Some slide ->
    (build E cfg slides template logo tts_lang speed_factor i slide w).1 = Ok None.

End Vocabulary.

(** The clip a future delivered, if its worker returned one. *)
Definition clip_of `{FO : FloatOps} (results : gmap nat (Result (option Clip)))
    (i : nat) : option Clip :=
  match results !! i with
  | Some (Ok (Some c)) => Some c
  | _ => None
  end.

(** The delivered clips, by increasing slide index. *)
Definition clips_in_slide_order `{FO : FloatOps}
    (results : gmap nat (Result (option Clip))) (n : nat) : list Clip :=
  omap (clip_of results) (seq 0 n).

(** Rational numbers as floats, to run the program on examples. *)
#[refine] Instance rational_floats : FloatOps := {|
  float := Q;
  f_lit n d := Qmake n (Z.to_pos d);
  f_add := Qplus;
  f_sub := Qminus;
  f_ltb a b := negb (Qle_bool b a);
  f_eqb := Qeq_bool
|}.
Proof.
  intros x. apply negb_false_iff, Qle_bool_iff, Qle_refl.
Defined.

(** *** A host to run the program on

    No font file, a Pillow that measures ten pixels a code point and never
    fails, no answer from the logo service, ten seconds of speech per
    narration, and no failing call. *)
Definition quiet_host : Env := {|
  VIDEO_LIBS_AVAILABLE := true;
  os_path_exists := fun _ => false;
  pil_fails := fun _ => false;
  textbbox := fun _ t => (0, 0, 10 * Z.of_nat (length t), 12);
  getbbox := fun _ t => (0, 0, 10 * Z.of_nat (length t), 12);
  thumbnail_size := fun _ size => size;
  Image_open := fun _ => Image_new "RGB" (1, 1) (ColorName "white");
  float_int := fun base slope num den => base + slope * num / den;
  hash := fun s => Z.of_nat (length s);
  ext_fails := fun _ _ => false;
  logo_response := fun _ => None;
  speech_seconds := fun _ => (10 # 1)%Q;
  speedup_seconds := fun d _ => d;
  time_time := fun k => (Z.of_nat k # 1)%Q;
  getsize_mb := fun _ => (1 # 1)%Q;
  as_completed := []
|}.

(** The same host with other failing calls and another completion order. *)
Definition host (fails : Site -> nat -> bool) (completed : list nat) : Env := {|
  VIDEO_LIBS_AVAILABLE := true;
  os_path_exists := os_path_exists quiet_host;
  pil_fails := pil_fails quiet_host;
  textbbox := textbbox quiet_host;
  getbbox := getbbox quiet_host;
  thumbnail_size := thumbnail_size quiet_host;
  Image_open := Image_open quiet_host;
  float_int := float_int quiet_host;
  hash := hash quiet_host;
  ext_fails := fails;
  logo_response := logo_response quiet_host;
  speech_seconds := speech_seconds quiet_host;
  speedup_seconds := speedup_seconds quiet_host;
  time_time := time_time quiet_host;
  getsize_mb := getsize_mb quiet_host;
  as_completed := completed
|}.

Definition new_world : World := {|
  metrics := new_metrics;
  temp_files := [];
  disk := ∅;
  next_tmp := 0;
  tick := 0;
  trace := []
|}.

(** A small canvas keeps the examples small. *)
Definition small_config : VideoConfig := {|
  resolution := (200, 120);
  fps := 30;
  video_codec := "libx264";
  audio_codec := "aac";
  preset := "medium";
  crf := 23;
  max_slide_duration := (20 # 1)%Q;
  min_slide_duration := (3 # 1)%Q;
  fade_duration := (1 # 2)%Q;
  background_music := false;
  watermark := true;
  subtitle_support := true
|}.

Definition hello_slide : Slide := mk_slide (lit "Hello") (lit "Hi there.").


Global Instance Site_eq_dec : EqDecision Site.
Proof. solve_decision. Defined.

(** Hosts on which one call always fails. *)
Definition fails_at (s : Site) : Site -> nat -> bool :=
  fun s' _ => bool_decide (s' = s).

(** The first slide of a one-slide deck, rendered and built on the quiet
    host. *)
Definition hello_render : Result Image * World :=
  _create_enhanced_slide quiet_host small_config hello_slide "minimalist" 1 1
    LogoNone new_world.

Definition hello_image : Image :=
  match hello_render.1 with
  | Ok img => img
  | Raise _ => Image_new "RGB" (0, 0) (ColorName "white")
  end.

Definition hello_build (E : Env) : Result (option Clip) * World :=
  _create_slide_video_clip E small_config hello_slide "minimalist" 1 1
    LogoNone "en" (1 # 1)%Q new_world.

Definition hello_clip (E : Env) : Clip :=
  match (hello_build E).1 with
  | Ok (Some c) => c
  | _ => {| clip_frame := hello_image; clip_duration := (0 # 1)%Q;
            clip_fx := []; clip_audio := None |}
  end.

(** Four slides whose futures complete in the order 2, 0, 3, 1; the
    second build returned null and the fourth raised. *)
Definition four_slides : list Slide :=
  [hello_slide; hello_slide; hello_slide; hello_slide].

Definition shuffled_host : Env := host (fun _ _ => false) [2; 0; 3; 1]%nat.

Definition four_results : gmap nat (Result (option Clip)) :=
  <[0%nat := Ok (Some (hello_clip quiet_host))]>
  (<[1%nat := Ok None]>
  (<[2%nat := Ok (Some (hello_clip (host (fails_at Set_audio) [])))]>
  (<[3%nat := Raise (ExtError ImageClip_new)]> ∅))).

(** A one-slide run of the whole pipeline. *)
Definition hello_video (E : Env) : Result (option nat) * World :=
  create_professional_placement_video E [hello_slide] (lit "Acme Ltd")
    "minimalist" "en" (1 # 1)%Q (Some small_config) true new_world.

(** *** Scripts in the layout the prompt asks for *)

(** Does [p] occur in [s]? *)
Fixpoint occurs (p s : str) : bool :=
  is_prefix p s || match s with [] => false | _ :: s' => occurs p s' end.

Definition has (c : char) (s : str) : bool := existsb (N.eqb c) s.

(** One slide of a script: its number, its title and its narration. *)
Definition slide_block (b : str * str * str) : str :=
  let '(num, title, content) := b in
  lit "[SLIDE " ++ num ++ lit ": " ++ title ++ lit "]" ++ NL ++ content.

(** The slides of a script, an empty line between them. *)
Definition script_of (blocks : list (str * str * str)) : str :=
  join (NL ++ NL) (map slide_block blocks).

(** The number is made of digits; the title is not empty, has no white
    space at its ends and no closing bracket; the narration is not empty,
    has no white space at its ends, is one line and has no colon. *)
Definition well_formed_block (U : Unicode) (b : str * str * str) : bool :=
  let '(num, title, content) := b in
  (truthy num && forallb (isdecimal U) num) &&
  (truthy title && bool_decide (strip title = title) && negb (has 93%N title)) &&
  (truthy content && bool_decide (strip content = content) &&
   negb (has 10%N content) && negb (has 58%N content)).

Definition slide_of_block (b : str * str * str) : Slide :=
  let '(_, title, content) := b in mk_slide title content.

(** A slide that the renderer and the narrator can work on: a title and a
    narration, neither empty, neither with white space at its ends, the
    narration in one line. *)
Definition presentable (slide : Slide) : Prop :=
  exists title content,
    slide = mk_slide title content /\
    title <> [] /\ strip title = title /\
    content <> [] /\ strip content = content /\ 10%N ∉ content.

(** What is left of the pattern after the second group. *)
Definition lookahead : Re := Cat next_slide_or_end Eps.

(** The rest of a script after a slide: nothing, or an empty line and the
    next slide. *)
Definition follows (tail rest : str) (nl : str) : Prop :=
  (tail = [] /\ rest = [] /\ nl = []) \/
  (exists more, tail = 10%N :: 10%N :: lit "[SLIDE" ++ more /\
                rest = 10%N :: lit "[SLIDE" ++ more /\ nl = NL).

(** The slide that the loop of the parser makes of a match, if any. *)
Definition slide_of (gs : gmap nat str) : option Slide :=
  let title := strip (group gs 1) in
  let content :=
    strip (replace (lit "narrator:") []
            (replace (lit "Narrator:") []
              (replace NL SPACE (strip (group gs 2))))) in
  if truthy title && truthy content then Some (mk_slide title content) else None.

(** A code point that may stand in the query of a URL as [quote] leaves
    it: a letter, a digit, one of [_.-~/], or the [%] of an escape. *)
Definition url_safe (c : char) : bool :=
  always_safe c || (c =? 47)%N || (c =? 37)%N.

(** The surrogates, which are no characters. *)
Definition is_surrogate (c : char) : bool := ((55296 <=? c) && (c <=? 57343))%N.

(** The code points of Unicode. *)
Definition is_code_point (c : char) : bool := (c <? 1114112)%N.

(** Does a line fit the width, as [_wrap_text] measures it? *)
Definition fits `{FO : FloatOps} (E : Env) (font : Font) (max_width : Z)
    (line : str) : Prop :=
  bbox_width (getbbox E font line) <= max_width.

(** *** Examples of scripts and messages

    The ASCII part of the Unicode tables, a script of two slides and a
    message. *)
Definition ascii_unicode : Unicode := {|
  isdecimal := fun c => ((48 <=? c) && (c <=? 57))%N;
  isdigit := fun c => ((48 <=? c) && (c <=? 57))%N;
  upper_case := upper
|}.

Definition two_blocks : list (str * str * str) :=
  [ (lit "1", lit "THE DROP", lit "Stop scrolling! This is it.");
    (lit "2", lit "THE LOWDOWN", lit "Quick facts about the company.") ].

Definition hello_message : str := lit "Hi there & welcome" ++ [233%N; 128512%N].

Definition hello_link : str :=
  lit "https://wa.me/919876?text=Hi%20there%20%26%20welcome%C3%A9%F0%9F%98%80".

(** *** Pre- and postconditions *)

Section Triples.

Context `{FO : FloatOps}.

(** [hoare P m Q]: run in a world that satisfies [P], the computation ends
    with a result and in a world that satisfy [Q]. *)
Definition hoare {A} (P : World -> Prop) (m : M A)
    (Q : Result A -> World -> Prop) : Prop :=
  forall w, P w -> wp m Q w.

(** [preserves I m]: the computation keeps the invariant [I], whatever its
    result. *)
Definition preserves {A} (I : World -> Prop) (m : M A) : Prop :=
  hoare I m (fun _ w => I w).

(** The result is a value satisfying [V], if it is a value. *)
Definition gives {A} (m : M A) (V : A -> Prop) : Prop :=
  forall w, value V (m w).1.

(** Invariants that hold whatever calls are made and whatever is shown or
    logged. *)
Class Stable (I : World -> Prop) : Prop := {
  stable_tick n w : I w -> I (set_tick n w);
  stable_event e w : I w -> I (add_event e w)
}.

(** Invariants that hold whatever is written to the disk and however many
    temporary files are created. *)
Class StableDisk (I : World -> Prop) : Prop := {
  stable_disk g w : I w -> I (set_disk g w);
  stable_fresh w : I w -> I (set_next_tmp (S (next_tmp w)) w)
}.

(** Invariants that do not depend on the metrics, or on the registry of
    temporary files. *)
Class StableMetrics (I : World -> Prop) : Prop :=
  stable_metrics g w : I w -> I (set_metrics g w).

Class StableTemp (I : World -> Prop) : Prop :=
  stable_temp g w : I w -> I (set_temp_files g w).

(** The metrics after a clip of the given duration is counted, and after
    a failure is. *)
Definition add_processed (duration : float) (m : SlideMetrics) : SlideMetrics :=
  {| total_slides := total_slides m;
     processed_slides := processed_slides m + 1;
     failed_slides := failed_slides m;
     total_duration := f_add (total_duration m) duration;
     file_size_mb := file_size_mb m;
     generation_time := generation_time m |}.

Definition add_failed (m : SlideMetrics) : SlideMetrics :=
  {| total_slides := total_slides m;
     processed_slides := processed_slides m;
     failed_slides := failed_slides m + 1;
     total_duration := total_duration m;
     file_size_mb := file_size_mb m;
     generation_time := generation_time m |}.

End Triples.

(** *** The registry of temporary files *)

Section Registry.

Context `{FO : FloatOps}.

(** Every registered file was created before: its number is below the
    number of the next temporary file. *)
Definition registry_is_old (w : World) : Prop :=
  Forall (fun p => (p < next_tmp w)%nat) (temp_files w).

(** The same, with one more file that was created before. *)
Definition registry_and_file_are_old (p : nat) (w : World) : Prop :=
  registry_is_old w /\ (p < next_tmp w)%nat.

(** The file [p] is not registered and holds the given clips as a video. *)
Definition is_unregistered_video (p : nat) (clips : list Clip) (w : World) : Prop :=
  (p ∉ temp_files w) /\ disk w !! p = Some (Mp4 clips).

(** What a run that returns a path has left: the video of a non-empty
    list of clips at that path, and an empty registry. *)
Definition leaves_video (cfg : VideoConfig) (r : Result (option nat)) (w : World)
    : Prop :=
  match r with
  | Ok (Some p) =>
      exists clips, clips <> [] /\ Forall (well_timed cfg) clips /\
                    disk w !! p = Some (Mp4 clips) /\ temp_files w = []
  | Ok None => True
  | Raise _ => False
  end.

End Registry.

(** *** Observations used in the proofs on the metrics and the files *)

Section ProofVocabulary.

Context `{FO : FloatOps}.

(** The metrics are [m0]. *)
Definition metrics_are (m0 : SlideMetrics) : World -> Prop :=
  fun w => metrics w = m0.

(** What the body of the builder does to the metrics [m0]: a clip is
    counted with its duration, or an exception leaves them as they were. *)
Definition counted (m0 : SlideMetrics) (r : Result (option Clip))
    (w : World) : Prop :=
  match r with
  | Ok (Some c) => metrics w = add_processed (clip_duration c) m0
  | Ok None => False
  | Raise _ => metrics w = m0
  end.

(** The metrics after some slides, of which the clips [new] were built. *)
Definition metrics_after (n : nat) (new : list Clip) (m m' : SlideMetrics)
    : Prop :=
  total_slides m' = total_slides m /\
  processed_slides m' = processed_slides m + len new /\
  failed_slides m' = failed_slides m + (Z.of_nat n - len new) /\
  total_duration m' = fold_left f_add (map clip_duration new) (total_duration m) /\
  file_size_mb m' = file_size_mb m /\
  generation_time m' = generation_time m.

(** One turn of the sequential loop. *)
Definition sequential_body (E : Env) cfg (slides : list Slide) template logo lang speed
    (video_clips : list Clip) (item : nat * Slide) : M (list Clip) :=
  let '(i, slide) := item in
  _show_progress 2 (Say2 "Generating slide" (Z.of_nat i + 1) (len slides)) >>
  let* clip := build E cfg slides template logo lang speed i slide in
  ret (match clip with
       | Some c => video_clips ++ [c]
       | None => video_clips
       end).

(** One turn of the loop of [_cleanup_temp_files]. *)
Definition cleanup_body (E : Env) (_ : unit) (temp_file : nat) : M unit :=
  try_except
    (let* found := tmp_exists temp_file in
     if found then os_unlink E temp_file else ret tt)
    (fun e => emit (LogWarning (Say1 "Failed to cleanup" (Z.of_nat temp_file)))).

(** What a run of the loop does to the disk and to nothing else. *)
Definition unlinked (E : Env) (files : list nat) (w w' : World) : Prop :=
  temp_files w' = temp_files w /\ metrics w' = metrics w /\
  next_tmp w' = next_tmp w /\
  (forall p, p ∉ files -> disk w' !! p = disk w !! p) /\
  (forall p, disk w !! p = None -> disk w' !! p = None) /\
  ((forall k, ext_fails E Os_unlink k = false) ->
   forall p, p ∈ files -> disk w' !! p = None).

(** The clips that the futures hold are well timed. *)
Definition holds_good_clips cfg (results : gmap nat (Result (option Clip)))
    : Prop :=
  forall i c, results !! i = Some (Ok (Some c)) -> well_timed cfg c.

(** The file [p] is not registered. *)
Definition unregistered (p : nat) : World -> Prop :=
  fun w => p ∉ temp_files w.

(** The video is at [p] and the registry is empty. *)
Definition video_left (p : nat) (clips : list Clip) : World -> Prop :=
  fun w => disk w !! p = Some (Mp4 clips) /\ temp_files w = [].

(** What the export leaves: the video of the clips it was given, when it
    returns a path. *)
Definition exported (clips : list Clip) (r : Result (option nat))
    (w : World) : Prop :=
  match r with
  | Ok (Some p) => clips <> [] /\ video_left p clips w
  | _ => True
  end.

End ProofVocabulary.

(** *** Cards *)

(** The texts on a card, in the order they are drawn. *)
Definition card_texts (card : Card) : list str :=
  omap (fun op => match op with
                  | CardText _ _ text _ _ => Some text
                  | _ => None
                  end) (card_ops card).

(** The rounded rectangles on a card: left, top, right, bottom. *)
Definition card_boxes (card : Card) : list (Z * Z * Z * Z) :=
  omap (fun op => match op with
                  | CardRoundedRectangle x0 y0 x1 y1 _ _ => Some (x0, y0, x1, y1)
                  | _ => None
                  end) (card_ops card).

Definition box_top (b : Z * Z * Z * Z) : Z := b.1.1.2.
Definition box_bottom (b : Z * Z * Z * Z) : Z := b.2.

(** Can the logo be pasted, where the card shows one? *)
Definition usable_logo (slide_num : Z) (company_logo : Logo) : Prop :=
  slide_num = 1 -> logo_truthy company_logo = true ->
  exists img, company_logo = LogoImage img.

(** The label under the progress bar. *)
Definition slide_label (slide_num total_slides : Z) : str :=
  str_of_Z slide_num ++ lit " / " ++ str_of_Z total_slides.

(** Is the logo drawn on this card? *)
Definition shows_logo (slide_num : Z) (company_logo : Logo) : bool :=
  (slide_num =? 1) && logo_truthy company_logo.

(** The lines drawn for a point: the first two of its slices of 37 code
    points. *)
Definition point_lines (point : str) : list str :=
  take 2 (map (fun i => slice point i (i + 37)) (range3 0 (len point) 37)).

Definition long_content : str :=
  lit "First point. Second one is a rather long sentence that goes on and on and on beyond the width of the card for sure.  .Third".

Definition long_slide : Slide := mk_slide (lit "Hello") long_content.

(** The card of that slide, the second of three. *)
Definition long_card : Card :=
  match create_interactive_slide quiet_host ascii_unicode long_slide "Modern" 2 3
          LogoNone with
  | inr card => card
  | inl _ => {| card_size := (0, 0); card_background := ColorName ""; card_ops := [] |}
  end.

(** *** The registry and the disk *)

Section Kept.

Context `{FO : FloatOps}.

(** Every registered file was created before and is on the disk. *)
Definition registry_is_kept (w : World) : Prop :=
  Forall (fun p => (p < next_tmp w)%nat /\ is_Some (disk w !! p)) (temp_files w).

(** The same, with one more file that was created before. *)
Definition registry_is_kept_and_old (p : nat) (w : World) : Prop :=
  registry_is_kept w /\ (p < next_tmp w)%nat.

(** The same, when that file is on the disk too. *)
Definition registry_is_kept_and_has (p : nat) (w : World) : Prop :=
  registry_is_kept w /\ (p < next_tmp w)%nat /\ is_Some (disk w !! p).

(** The registry is empty. *)
Definition registry_is_empty (w : World) : Prop := temp_files w = [].

(** How a run ends: with an empty registry, or, having reported that no
    clip was generated, with nothing and every registered file on the disk. *)
Definition cleaned_unless_no_clip (r : Result (option nat)) (w : World) : Prop :=
  registry_is_empty w \/
  (r = Ok None /\
   last (trace w) = Some (StError (Say "No video clips were generated successfully.")) /\
   registry_is_kept w).

End Kept.

(** *** Slides without narration *)

Section Narration.

Context `{FO : FloatOps}.

(** The text that is spoken: no slide markers, colons as full stops, no
    white space at the ends. *)
Definition clean_text (text : str) : str :=
  strip (replace (lit ":") (lit ".")
          (replace (lit "]") [] (replace (lit "[SLIDE") [] text))).

(** The slide has no content, or nothing of it is left to speak. *)
Definition has_no_narration (slide : Slide) : bool :=
  match slide !! "content" with
  | Some content => negb (truthy (clean_text content))
  | None => true
  end.

End Narration.

(** *** The count of the slides *)

Section Count.

Context `{FO : FloatOps}.

(** Of [n] slides, [k] are counted, as processed or as failed. *)
Definition slides_counted (n k : Z) (w : World) : Prop :=
  total_slides (metrics w) = n /\
  processed_slides (metrics w) + failed_slides (metrics w) = k.

(** The futures in [done] hold what their builders returned. *)
Definition futures_returned (done : list nat)
    (results : gmap nat (Result (option Clip))) : Prop :=
  forall f, f ∈ done -> exists oc, results !! f = Some (Ok oc).

End Count.

(** *** Examples of runs *)

(** A host on which no image clip can be made. *)
Definition no_clip_host : Env := host (fails_at ImageClip_new) [].

(** A slide with a title only, and what the builder makes of it. *)
Definition title_slide : Slide := {[ "title" := lit "Hello" ]}.

Definition title_clip_run : Result (option Clip) * World :=
  _create_slide_video_clip quiet_host small_config title_slide "minimalist" 1 1
    LogoNone "en" (1 # 1)%Q new_world.

Definition title_clip : Clip :=
  match title_clip_run.1 with
  | Ok (Some c) => c
  | _ => {| clip_frame := Image_new "RGB" (0, 0) (ColorName "white");
            clip_duration := (0 # 1)%Q; clip_fx := []; clip_audio := None |}
  end.

(** ** Results *)

Section Text.

Lemma split_aux_word cur w s :
  Forall (fun c => is_space c = false) w ->
  split_aux cur (w ++ s) = split_aux (cur ++ w) s.
Proof.
  intros Hw. revert cur.
  induction Hw as [|c w Hc _ IH]; intros cur; simpl.
  - by rewrite app_nil_r.
  - rewrite Hc, IH. by rewrite <- app_assoc.
Qed.

Lemma split_aux_words cur s :
  Forall (fun c => is_space c = false) cur ->
  Forall is_word (split_aux cur s).
Proof.
  revert cur. induction s as [|c s IH]; intros cur Hcur; simpl.
  - destruct cur; [constructor|].
    constructor; [by split|constructor].
  - destruct (is_space c) eqn:Hc.
    + destruct cur as [|a cur]; [by apply IH|].
      constructor; [by split|by apply IH].
    + apply IH. apply Forall_app; split; [done|by repeat constructor].
Qed.

Lemma split_words s : Forall is_word (split s).
Proof. apply split_aux_words. constructor. Qed.

Lemma space_is_space : is_space 32%N = true.
Proof. reflexivity. Qed.

Lemma split_word w : is_word w -> split w = [w].
Proof.
  intros [Hne Hw]. unfold split.
  rewrite <- (app_nil_r w) at 1. rewrite split_aux_word by done.
  simpl. by destruct w.
Qed.

Lemma split_join ws : Forall is_word ws -> split (join SPACE ws) = ws.
Proof.
  induction 1 as [|w ws Hw Hws IH]; [done|].
  destruct ws as [|w2 ws]; [by apply split_word|].
  change (join SPACE (w :: w2 :: ws))
    with (w ++ 32%N :: join SPACE (w2 :: ws)).
  destruct Hw as [Hne Hw]. unfold split in *.
  rewrite split_aux_word by done.
  destruct w as [|c w]; [done|].
  change (split_aux ([] ++ c :: w) (32%N :: join SPACE (w2 :: ws)))
    with ((c :: w) :: split_aux [] (join SPACE (w2 :: ws))).
  by rewrite IH.
Qed.

End Text.

Section Wrapping.

Context `{FO : FloatOps} (E : Env).

Lemma wrap_words_flat font max_width words : forall lines current_line,
  Forall is_word words -> Forall is_word current_line ->
  let '(lines', current') := wrap_words E font max_width words lines current_line in
  concat (map split lines') ++ current'
    = concat (map split lines) ++ current_line ++ words
  /\ Forall is_word current'.
Proof.
  induction words as [|word rest IH]; intros lines cur Hws Hcur; simpl.
  - by rewrite app_nil_r.
  - apply Forall_cons in Hws as [Hw Hrest].
    destruct (_ <=? _).
    + specialize (IH lines (cur ++ [word]) Hrest).
      destruct (wrap_words _ _ _ _ _ _) as [lines' cur'].
      rewrite <- app_assoc in IH. apply IH.
      apply Forall_app; split; [done|by apply Forall_singleton].
    + destruct cur as [|c0 cur]; simpl.
      * specialize (IH (lines ++ [word]) [] Hrest).
        destruct (wrap_words _ _ _ _ _ _) as [lines' cur'].
        destruct IH as [IH1 IH2]; [constructor|]. split; [|done].
        rewrite IH1, map_app, concat_app. simpl.
        rewrite split_word by done. by rewrite <- app_assoc.
      * specialize (IH (lines ++ [join SPACE (c0 :: cur)]) [word] Hrest).
        destruct (wrap_words _ _ _ _ _ _) as [lines' cur'].
        destruct IH as [IH1 IH2]; [by apply Forall_singleton|]. split; [|done].
        rewrite IH1, map_app, concat_app.
        change (map split [join SPACE (c0 :: cur)])
          with [split (join SPACE (c0 :: cur))].
        rewrite split_join by done.
        change (concat [c0 :: cur]) with ((c0 :: cur) ++ []).
        rewrite app_nil_r. by rewrite <- !app_assoc.
Qed.

(** C10. Wrapping loses no content: the words of the lines returned by
    [_wrap_text], taken in order, are exactly the words of the text, for
    every font and every [max_width]. *)
Theorem wrap_text_keeps_words (text : str) (font : Font) (max_width : Z) :
  concat (map split (_wrap_text E text font max_width)) = split text.
Proof.
  unfold _wrap_text.
  pose proof (wrap_words_flat font max_width (split text) [] []
                (split_words text) (List.Forall_nil _)) as H.
  destruct (wrap_words _ _ _ _ _ _) as [lines cur].
  destruct H as [H Hcur]. simpl in H. rewrite <- H.
  destruct cur as [|c0 cur]; unfold truthy.
  - by rewrite app_nil_r.
  - rewrite map_app, concat_app.
    change (map split [join SPACE (c0 :: cur)])
      with [split (join SPACE (c0 :: cur))].
    rewrite split_join by done.
    change (concat [c0 :: cur]) with ((c0 :: cur) ++ []).
    by rewrite app_nil_r.
Qed.

End Wrapping.

(** ** The assembly coordinator *)

Section Coordinator.

Context `{FO : FloatOps} (E : Env).

Lemma future_index_lookup {A} (slides : list A) (f : nat) :
  (f < length slides)%nat -> future_index slides !! f = Some f.
Proof.
  intros Hf. unfold future_index, enumerate.
  change (map ?g ?l) with (g <$> l).
  rewrite fmap_imap.
  rewrite (imap_ext _ (fun n _ => (n, n))) by done.
  rewrite (imap_seq_0 slides (fun n => (n, n))).
  apply elem_of_list_to_map_1.
  - rewrite <- list_fmap_compose.
    rewrite (list_fmap_ext _ id (seq 0 (length slides)) ) by done.
    rewrite list_fmap_id. apply NoDup_seq.
  - apply list_elem_of_fmap. exists f. split; [done|].
    apply elem_of_seq. lia.
Qed.

Lemma elem_of_tagged {B} (g : nat -> option B) order x :
  x ∈ tagged g order <-> x.1 ∈ order /\ g x.1 = Some x.2.
Proof.
  unfold tagged. rewrite list_elem_of_omap. split.
  - intros (f & Hf & Hx). destruct (g f) as [b|] eqn:Hg; simplify_eq/=. done.
  - intros [Hf Hg]. exists x.1. split; [done|]. rewrite Hg. by destruct x.
Qed.

Lemma tagged_snd {B} (g : nat -> option B) order :
  map snd (tagged g order) = omap g order.
Proof.
  unfold tagged. induction order as [|f order IH]; [done|]. csimpl.
  destruct (g f); csimpl; by rewrite <- IH.
Qed.

Lemma tagged_seq_sorted {B} (g : nat -> option B) start n :
  StronglySorted (key_le fst) (tagged g (seq start n)).
Proof.
  revert start. induction n as [|n IH]; intros start; [constructor|].
  unfold tagged. simpl. fold (tagged g (seq (S start) n)).
  destruct (g start) as [b|]; simpl; [|apply IH].
  constructor; [apply IH|].
  apply Forall_forall. intros x [Hx _]%elem_of_tagged.
  apply elem_of_seq in Hx. unfold key_le. simpl. lia.
Qed.

Global Instance key_le_trans {A} (key : A -> nat) : Transitive (key_le key).
Proof. intros a b c. unfold key_le. lia. Qed.

Global Instance key_le_total {A} (key : A -> nat) : Total (key_le key).
Proof. intros a b. unfold key_le. lia. Qed.

(** Sorting the tagged clips by index and dropping the tags gives the
    clips by increasing index, whatever the order of completion. *)
Lemma sort_tagged {B} (g : nat -> option B) (order : list nat) (n : nat) :
  order ≡ₚ seq 0 n ->
  map snd (sort_by_key fst (tagged g order)) = omap g (seq 0 n).
Proof.
  intros Hperm. rewrite <- tagged_snd. f_equal.
  apply StronglySorted_unique_strong with (R := key_le fst).
  - intros x1 x2 Hx1 [_ Hg2]%elem_of_tagged Hle1 Hle2.
    unfold sort_by_key in Hx1. rewrite merge_sort_Permutation in Hx1.
    apply elem_of_tagged in Hx1 as [_ Hg1].
    assert (x1.1 = x2.1) as Heq by (unfold key_le in *; lia).
    destruct x1, x2; simpl in *; subst. congruence.
  - apply StronglySorted_merge_sort; apply _.
  - apply tagged_seq_sorted.
  - unfold sort_by_key. rewrite merge_sort_Permutation.
    unfold tagged. by rewrite Hperm.
Qed.

Lemma collect_step_run n_slides fidx results acc f w :
  fidx !! f = Some f ->
  exists w', collect_step n_slides fidx results acc f w
    = (Ok (acc ++ tagged (clip_of results) [f]), w').
Proof.
  intros Hf. unfold collect_step, tagged, clip_of, bind, try_except, future_result.
  rewrite Hf. simpl.
  destruct (results !! f) as [[[c|]|e]|]; simpl; rewrite ?app_nil_r; eauto.
Qed.

Lemma collect_loop_run n_slides fidx results order : forall acc w,
  Forall (fun f => fidx !! f = Some f) order ->
  exists w', for_each order (collect_step n_slides fidx results) acc w
    = (Ok (acc ++ tagged (clip_of results) order), w').
Proof.
  induction order as [|f order IH]; intros acc w Hall; simpl.
  - exists w. unfold ret, tagged. simpl. by rewrite app_nil_r.
  - apply Forall_cons in Hall as [Hf Hall].
    destruct (collect_step_run n_slides fidx results acc f w Hf) as [w1 H1].
    unfold bind at 1. rewrite H1.
    destruct (IH (acc ++ tagged (clip_of results) [f]) w1 Hall) as [w2 H2].
    exists w2. rewrite H2. f_equal. f_equal. rewrite <- app_assoc. f_equal.
    unfold tagged. simpl. by destruct (clip_of results f).
Qed.

(** C1. Under parallel assembly the clips handed to concatenation are
    ordered by slide index: whatever the order in which the futures
    complete (any permutation of the submitted futures), the loop over
    [as_completed] followed by the sort returns the delivered clips by
    increasing slide index. *)
Theorem parallel_clips_keep_slide_order {A} (slides : list A)
    (results : gmap nat (Result (option Clip))) (w : World) :
  as_completed E ≡ₚ seq 0 (length slides) ->
  exists w',
    collect_completed E (len slides) (future_index slides) results w
    = (Ok (clips_in_slide_order results (length slides)), w').
Proof.
  intros Hperm. unfold collect_completed, clips_in_slide_order.
  destruct (collect_loop_run (len slides) (future_index slides) results
              (as_completed E) [] w) as [w' Hrun].
  { apply Forall_forall. intros f Hf. rewrite Hperm in Hf.
    apply elem_of_seq in Hf. apply future_index_lookup. lia. }
  exists w'. unfold bind. rewrite Hrun. unfold ret. simpl app.
  by rewrite (sort_tagged _ _ _ Hperm).
Qed.

End Coordinator.

Lemma parallel_clips_keep_slide_order_witness :
  as_completed shuffled_host ≡ₚ seq 0 (length four_slides) /\
  exists w',
    collect_completed shuffled_host (len four_slides) (future_index four_slides)
      four_results new_world
    = (Ok (clips_in_slide_order four_results (length four_slides)), w').
Proof.
  assert (as_completed shuffled_host ≡ₚ seq 0 (length four_slides)) as Hperm.
  { apply (bool_decide_unpack _). vm_compute. exact I. }
  split; [exact Hperm|].
  exact (parallel_clips_keep_slide_order shuffled_host four_slides four_results
           new_world Hperm).
Defined.

(** ** Reasoning about computations *)

Section Outcomes.

Context `{FO : FloatOps}.

Lemma add_events_nil w : add_events [] w = w.
Proof. destruct w. unfold add_events. simpl. by rewrite app_nil_r. Qed.

Lemma add_events_app evs1 evs2 w :
  add_events evs2 (add_events evs1 w) = add_events (evs1 ++ evs2) w.
Proof. unfold add_events. simpl. by rewrite app_assoc. Qed.

Lemma outcome_ret {A} (a : A) (Q : Result A -> Prop) :
  Q (Ok a) -> outcome (ret a) Q.
Proof. intros HQ. exists (Ok a), []. split; [done|]. intros w. by rewrite add_events_nil. Qed.

Lemma outcome_throw {A} e (Q : Result A -> Prop) :
  Q (Raise e) -> outcome (throw e) Q.
Proof. intros HQ. exists (Raise e), []. split; [done|]. intros w. by rewrite add_events_nil. Qed.

Lemma outcome_emit e (Q : Result unit -> Prop) :
  Q (Ok tt) -> outcome (emit e) Q.
Proof. intros HQ. exists (Ok tt), [e]. split; [done|]. done. Qed.

Lemma outcome_mono {A} (m : M A) (Q Q' : Result A -> Prop) :
  outcome m Q -> (forall r, Q r -> Q' r) -> outcome m Q'.
Proof. intros (r & evs & HQ & Hm) HQQ. exists r, evs. eauto. Qed.

Lemma outcome_bind {A B} (m : M A) (k : A -> M B) (Q : Result B -> Prop) :
  outcome m (fun r => match r with
                      | Ok a => outcome (k a) Q
                      | Raise e => Q (Raise e)
                      end) ->
  outcome (bind m k) Q.
Proof.
  intros (r & evs & HQ & Hm). destruct r as [a|e].
  - destruct HQ as (r2 & evs2 & HQ2 & Hk). exists r2, (evs ++ evs2).
    split; [done|]. intros w. unfold bind. by rewrite Hm, Hk, add_events_app.
  - exists (Raise e), evs. split; [done|]. intros w. unfold bind. by rewrite Hm.
Qed.

Lemma outcome_try {A} (m : M A) (h : Exn -> M A) (Q : Result A -> Prop) :
  outcome m (fun r => match r with
                      | Ok a => Q (Ok a)
                      | Raise e => outcome (h e) Q
                      end) ->
  outcome (try_except m h) Q.
Proof.
  intros (r & evs & HQ & Hm). destruct r as [a|e].
  - exists (Ok a), evs. split; [done|]. intros w. unfold try_except. by rewrite Hm.
  - destruct HQ as (r2 & evs2 & HQ2 & Hh). exists r2, (evs ++ evs2).
    split; [done|]. intros w. unfold try_except. by rewrite Hm, Hh, add_events_app.
Qed.

Lemma outcome_pil (E : Env) c (Q : Result unit -> Prop) :
  (pil_fails E c = true -> Q (Raise (PilError c))) ->
  (pil_fails E c = false -> Q (Ok tt)) ->
  outcome (pil E c) Q.
Proof.
  intros H1 H2. unfold pil. destruct (pil_fails E c).
  - by apply outcome_throw, H1.
  - by apply outcome_ret, H2.
Qed.

Lemma yields_ret {A} (a : A) (P : A -> Prop) : P a -> yields (ret a) P.
Proof. intros. by apply outcome_ret. Qed.

Lemma yields_bind {A B} (m : M A) (k : A -> M B) (P : A -> Prop) (Q : B -> Prop) :
  yields m P -> (forall a, P a -> yields (k a) Q) -> yields (bind m k) Q.
Proof.
  intros Hm Hk. apply outcome_bind. eapply outcome_mono; [exact Hm|].
  intros [a|e] H; [by apply Hk|done].
Qed.

Lemma yields_mono {A} (m : M A) (P P' : A -> Prop) :
  yields m P -> (forall a, P a -> P' a) -> yields m P'.
Proof. intros Hm HP. eapply outcome_mono; [exact Hm|]. intros [a|e]; eauto. Qed.

(** A loop whose body always returns and keeps an invariant. *)
Lemma yields_for_each {A S} (xs : list A) (body : S -> A -> M S)
    (I : S -> Prop) (acc : S) :
  I acc ->
  (forall acc x, x ∈ xs -> I acc -> yields (body acc x) I) ->
  yields (for_each xs body acc) I.
Proof.
  revert acc. induction xs as [|x xs IH]; intros acc Hacc Hbody; simpl.
  - by apply yields_ret.
  - eapply yields_bind.
    + apply Hbody; [left|done].
    + intros acc' Hacc'. apply IH; [done|].
      intros acc'' y Hy. apply Hbody. by right.
Qed.

(** What [outcome] says of a run. *)
Lemma outcome_run {A} (m : M A) (Q : Result A -> Prop) (w : World) :
  outcome m Q -> exists evs, Q (m w).1 /\ (m w).2 = add_events evs w.
Proof. intros (r & evs & HQ & Hm). exists evs. by rewrite Hm. Qed.

Lemma outcome_same_result {A} (m : M A) (Q : Result A -> Prop) (w1 w2 : World) :
  outcome m Q -> (m w1).1 = (m w2).1.
Proof. intros (r & evs & HQ & Hm). by rewrite !Hm. Qed.

(** *** Images only grow *)

Lemma extends_refl img : extends img img.
Proof. repeat split. exists []. by rewrite app_nil_r. Qed.

Lemma extends_trans i1 i2 i3 : extends i1 i2 -> extends i2 i3 -> extends i1 i3.
Proof.
  intros (Hm1 & Hs1 & ops1 & Ho1) (Hm2 & Hs2 & ops2 & Ho2).
  repeat split; [congruence..|]. exists (ops1 ++ ops2).
  by rewrite Ho2, Ho1, app_assoc.
Qed.

Lemma extends_draw op img : extends img (draw op img).
Proof. repeat split. by exists [op]. Qed.

Lemma extends_fold_left {A} (f : Image -> A -> Image) (xs : list A) img :
  (forall img x, extends img (f img x)) -> extends img (fold_left f xs img).
Proof.
  intros Hf. revert img. induction xs as [|x xs IH]; intros img; simpl.
  - apply extends_refl.
  - eapply extends_trans; [apply Hf|apply IH].
Qed.

Lemma extends_elem_of img img' op :
  extends img img' -> op ∈ img_ops img -> op ∈ img_ops img'.
Proof. intros (_ & _ & ops & ->) Hop. apply elem_of_app. by left. Qed.

End Outcomes.

Ltac outcome_go :=
  repeat (first
    [ apply outcome_ret | apply outcome_throw | apply outcome_emit
    | apply outcome_bind | apply outcome_try
    | apply outcome_pil; intros ?
    | progress (cbv beta iota)
    | match goal with
      | |- outcome (if ?b then _ else _) _ => destruct b eqn:?
      | |- outcome (match ?x with _ => _ end) _ => destruct x eqn:?
      end ]).

(** ** The slide renderer *)

Section Renderer.

Context `{FO : FloatOps} (E : Env).

Lemma range_nonzero y n : y ∈ range n -> n <> 0.
Proof. intros Hy ->. unfold range in Hy. simpl in Hy. by apply elem_of_nil in Hy. Qed.

Lemma gradient_yields img width height r0 rs g0 gs b0 bs :
  yields (gradient E img width height r0 rs g0 gs b0 bs) (extends img).
Proof.
  unfold gradient. apply yields_for_each; [apply extends_refl|].
  intros acc y Hy Hacc. apply range_nonzero in Hy.
  unfold yields, true_div. apply Z.eqb_neq in Hy. rewrite Hy.
  outcome_go. eapply extends_trans; [exact Hacc|apply extends_draw].
Qed.

Lemma corporate_yields img width height :
  yields (_apply_corporate_template E img width height) (extends img).
Proof.
  unfold _apply_corporate_template. eapply yields_bind; [apply gradient_yields|].
  intros img' Himg. apply yields_ret. eapply extends_trans; [exact Himg|].
  unfold _add_geometric_patterns. apply extends_fold_left. intros. apply extends_draw.
Qed.

Lemma modern_yields img width height :
  yields (_apply_modern_template E img width height) (extends img).
Proof.
  unfold _apply_modern_template. eapply yields_bind; [apply gradient_yields|].
  intros img' Himg. apply yields_ret. eapply extends_trans; [exact Himg|].
  apply extends_fold_left. intros. apply extends_draw.
Qed.

Lemma minimalist_yields img width height :
  yields (_apply_minimalist_template img width height) (extends img).
Proof.
  apply yields_ret. eapply extends_trans; apply extends_draw.
Qed.

Lemma default_yields img width height :
  yields (_apply_default_template E img width height) (extends img).
Proof. apply gradient_yields. Qed.

Lemma logo_yields img logo width height :
  yields (_add_company_logo E img logo width height) (extends img).
Proof.
  unfold yields, _add_company_logo. outcome_go;
    try apply extends_refl; try apply extends_draw; try done.
Qed.

Lemma probe_fonts_yields paths size :
  yields (probe_fonts E paths size) (fun f => f = first_font E paths size).
Proof.
  induction paths as [|p paths IH]; simpl.
  - by apply yields_ret.
  - unfold yields. apply outcome_bind, outcome_try.
    destruct (os_path_exists E p); simpl.
    + apply outcome_bind, outcome_pil; intros ->; simpl.
      * apply outcome_ret. apply IH.
      * apply outcome_ret. cbv beta iota. by apply outcome_ret.
    + apply outcome_ret. apply IH.
Qed.

Lemma get_font_yields font_type width :
  yields (_get_font E font_type width)
         (fun f => f = resolved_font E font_type width).
Proof. apply probe_fonts_yields. Qed.

Lemma draw_text_extends img text font width y align c1 c2 :
  extends img (_draw_text_with_shadow E img text font width y align c1 c2).
Proof.
  unfold _draw_text_with_shadow.
  eapply extends_trans; apply extends_draw.
Qed.

Lemma draw_text_center img text font width y c1 c2 :
  Text ((width - bbox_width (textbbox E font text)) / 2) y text font c1
    ∈ img_ops (_draw_text_with_shadow E img text font width y "center" c1 c2).
Proof.
  unfold _draw_text_with_shadow. simpl. apply elem_of_app. right. by left.
Qed.

Lemma yields_try {A} (m : M A) (h : Exn -> M A) (P : A -> Prop) :
  yields m P -> yields (try_except m h) P.
Proof.
  intros Hm. apply outcome_try. eapply outcome_mono; [exact Hm|].
  by intros [a|e] H.
Qed.

Lemma content_lines_extend img font width height lines :
  extends img
    (fold_left
       (fun img '(i, line) =>
          let line_y := height / 3 + Z.of_nat i * 80 in
          if line_y <? height - 100
          then _draw_text_with_shadow E img line font width line_y
                 "center" (RGB 255 255 255) (RGBA 0 0 0 100)
          else img)
       lines img).
Proof.
  apply extends_fold_left. intros i [n line]. simpl.
  destruct (_ <? _); [apply draw_text_extends|apply extends_refl].
Qed.

Lemma content_yields img slide width height :
  yields (_add_slide_content E img slide width height)
    (fun img' =>
       extends img img' /\
       (truthy (strip (slide_get slide "title")) = true ->
        title_op E slide width height ∈ img_ops img')).
Proof.
  unfold _add_slide_content. apply yields_try.
  eapply yields_bind; [apply (get_font_yields "title" width)|].
  intros ? ->.
  eapply yields_bind; [apply (get_font_yields "content" width)|].
  intros ? ->.
  apply yields_ret.
  set (img1 := if truthy (strip (slide_get slide "title")) then _ else img).
  assert (extends img img1) as H1.
  { subst img1. destruct (truthy _); [apply draw_text_extends|apply extends_refl]. }
  match goal with |- extends _ ?x /\ _ => assert (extends img1 x) as H2 end.
  { destruct (truthy (strip (slide_get slide "content")));
      [apply content_lines_extend|apply extends_refl]. }
  split; [by eapply extends_trans|].
  intros Ht. eapply extends_elem_of; [exact H2|].
  subst img1. rewrite Ht. apply draw_text_center.
Qed.

Lemma metadata_outcome img slide_num total_slides width height :
  outcome (_add_slide_metadata E img slide_num total_slides width height)
    (fun r => match r with
              | Ok img' => total_slides <> 0 /\ extends img img'
              | Raise e => total_slides = 0
              end).
Proof.
  unfold _add_slide_metadata, true_div.
  destruct (total_slides =? 0) eqn:Ht.
  - apply outcome_bind, outcome_throw. by apply Z.eqb_eq.
  - apply Z.eqb_neq in Ht. apply outcome_bind, outcome_ret. cbv beta iota.
    apply outcome_bind.
    eapply outcome_mono; [apply (get_font_yields "content" width)|].
    intros [f|e] Hf; [|done]. apply outcome_ret. split; [done|].
    eapply extends_trans; [|apply extends_draw].
    eapply extends_trans; apply extends_draw.
Qed.

Lemma effects_yields img template :
  yields (_apply_visual_effects E img template) (extends img).
Proof.
  unfold yields, _apply_visual_effects. outcome_go;
    repeat (first [apply extends_refl | apply extends_draw
                  | eapply extends_trans; [|apply extends_draw]]).
Qed.

Lemma template_yields img template width height :
  yields (if String.eqb template "corporate"
          then _apply_corporate_template E img width height
          else if String.eqb template "modern"
          then _apply_modern_template E img width height
          else if String.eqb template "minimalist"
          then _apply_minimalist_template img width height
          else _apply_default_template E img width height)
         (extends img).
Proof.
  repeat case_match; auto using corporate_yields, modern_yields,
    minimalist_yields, default_yields.
Qed.

(** What rendering comes to, in every world: an image of the configured
    size showing the title, or [ZeroDivisionError] when [total_slides] is
    zero. *)
Lemma render_outcome cfg slide template slide_num total_slides logo :
  outcome (_create_enhanced_slide E cfg slide template slide_num total_slides logo)
    (fun r => match r with
              | Ok img =>
                  total_slides <> 0 /\
                  img_mode img = "RGB" /\
                  img_size img = resolution cfg /\
                  (truthy (strip (slide_get slide "title")) = true ->
                   title_op E slide (resolution cfg).1 (resolution cfg).2
                     ∈ img_ops img)
              | Raise e => total_slides = 0
              end).
Proof.
  unfold _create_enhanced_slide. destruct (resolution cfg) as [width height].
  set (img0 := Image_new "RGB" (width, height) (ColorName "white")).
  apply outcome_bind.
  eapply outcome_mono; [apply (template_yields img0 template width height)|].
  intros [img1|e] H1; [|done].
  apply outcome_bind.
  eapply outcome_mono with (Q := fun r => match r with Ok i => extends img1 i | Raise _ => False end).
  { destruct (logo_truthy logo); [apply logo_yields|].
    apply outcome_ret, extends_refl. }
  intros [img2|e] H2; [|done].
  apply outcome_bind.
  eapply outcome_mono; [apply content_yields|].
  intros [img3|e] H3; [|done]. destruct H3 as [H3 Htitle].
  apply outcome_bind.
  eapply outcome_mono; [apply metadata_outcome|].
  intros [img4|e] H4; [|done]. destruct H4 as [Hnz H4].
  eapply outcome_mono; [apply effects_yields|].
  intros [img5|e] H5; [|done].
  assert (extends img0 img5) as (Hm & Hs & _).
  { repeat (eapply extends_trans; [eassumption|]). apply extends_refl. }
  repeat split; [done|done|done|].
  intros Ht. eapply extends_elem_of; [|apply Htitle, Ht].
  eapply extends_trans; eassumption.
Qed.

End Renderer.

(** ** Frames: what a computation leaves alone *)

Section Frames.

Context `{FO : FloatOps} {X : Type} (f : World -> X) `{!Frame f}.

Lemma guards_mono {A} (S S' : Result A -> Prop) (m : M A) :
  guards f S m -> (forall r, S r -> S' r) -> guards f S' m.
Proof. intros Hm HS w. destruct (Hm w). eauto. Qed.

Lemma guards_keeps {A} (S : Result A -> Prop) (m : M A) :
  guards f S m -> keeps f m.
Proof. intros Hm. by eapply guards_mono. Qed.

Lemma guards_ret {A} (S : Result A -> Prop) (a : A) :
  S (Ok a) -> guards f S (ret a).
Proof. by intros HS w. Qed.

Lemma guards_throw {A} (S : Result A -> Prop) e :
  S (Raise e) -> guards f S (throw e).
Proof. by intros HS w. Qed.

Lemma guards_bind {A B} (P : A -> Prop) (S : Result B -> Prop)
    (m : M A) (k : A -> M B) :
  guards f (value P) m ->
  (forall a, P a -> guards f S (k a)) ->
  (forall e, S (Raise e)) ->
  guards f S (bind m k).
Proof.
  intros Hm Hk HS w. unfold bind. destruct (Hm w) as [Hf Hr].
  destruct (m w) as [[a|e] w1]; simpl in *.
  - destruct (Hk a Hr w1) as [Hf' Hr']. split; [congruence|done].
  - split; [done|apply HS].
Qed.

Lemma guards_try {A} (S : Result A -> Prop) (m : M A) (h : Exn -> M A) :
  guards f (fun r => match r with Ok a => S (Ok a) | Raise _ => True end) m ->
  (forall e, guards f S (h e)) ->
  guards f S (try_except m h).
Proof.
  intros Hm Hh w. unfold try_except. destruct (Hm w) as [Hf Hr].
  destruct (m w) as [[a|e] w1]; simpl in *; [done|].
  destruct (Hh e w1) as [Hf' Hr']. split; [congruence|done].
Qed.

Lemma keeps_ret {A} (a : A) : keeps f (ret a).
Proof. by apply guards_ret. Qed.

Lemma keeps_throw {A} e : keeps f (throw (A := A) e).
Proof. by apply guards_throw. Qed.

Lemma keeps_bind {A B} (m : M A) (k : A -> M B) :
  keeps f m -> (forall a, keeps f (k a)) -> keeps f (bind m k).
Proof.
  intros Hm Hk.
  apply guards_bind with (P := fun _ => True); [|intros a _; apply Hk|done].
  eapply guards_mono; [exact Hm|]. by intros [].
Qed.

Lemma keeps_try {A} (m : M A) (h : Exn -> M A) :
  keeps f m -> (forall e, keeps f (h e)) -> keeps f (try_except m h).
Proof.
  intros Hm Hh. apply guards_try; [|exact Hh].
  eapply guards_mono; [exact Hm|]. by intros [].
Qed.

Lemma keeps_emit e : is_report e = true -> keeps f (emit e).
Proof. intros He w. split; [by apply frame_report|done]. Qed.

Lemma keeps_pil E c : keeps f (pil E c).
Proof. unfold pil. destruct (pil_fails E c); [apply keeps_throw|apply keeps_ret]. Qed.

Lemma keeps_ext E s : keeps f (ext E s).
Proof.
  intros w. unfold ext, bind, next_call. simpl.
  destruct (ext_fails E s (tick w)); simpl; by rewrite frame_tick.
Qed.

Lemma keeps_tmp : keeps f NamedTemporaryFile.
Proof. intros w. unfold NamedTemporaryFile. simpl. by rewrite frame_next_tmp, frame_disk. Qed.

Lemma keeps_write p c : keeps f (write_file p c).
Proof. intros w. unfold write_file, modify. simpl. by rewrite frame_disk. Qed.

Lemma keeps_read p : keeps f (read_file p).
Proof. intros w. unfold read_file, bind, get. simpl. by destruct (disk w !! p). Qed.

Lemma keeps_exists p : keeps f (tmp_exists p).
Proof. by intros w. Qed.

Lemma keeps_register g : keeps f (modify (set_temp_files g)).
Proof. intros w. unfold modify. simpl. by rewrite frame_temp_files. Qed.

Lemma keeps_count_processed d : keeps f (count_processed d).
Proof. intros w. split; [apply frame_processed|done]. Qed.

Lemma keeps_unlink E p : keeps f (os_unlink E p).
Proof.
  unfold os_unlink. apply keeps_bind; [apply keeps_ext|]. intros _.
  intros w. unfold bind, get, modify. simpl.
  destruct (disk w !! p); simpl; by rewrite ?frame_disk.
Qed.

Lemma keeps_for_each {A S} (xs : list A) (body : S -> A -> M S) (acc : S) :
  (forall acc x, keeps f (body acc x)) -> keeps f (for_each xs body acc).
Proof.
  intros Hbody. revert acc. induction xs as [|x xs IH]; intros acc; simpl.
  - apply keeps_ret.
  - apply keeps_bind; [apply Hbody|]. intros. apply IH.
Qed.

Lemma keeps_get {A} (g : World -> A) : keeps f (get g).
Proof. by intros w. Qed.

Lemma keeps_true_div num den : keeps f (true_div num den).
Proof. unfold true_div. destruct (den =? 0); [apply keeps_throw|apply keeps_ret]. Qed.

End Frames.

Create HintDb frames.

#[export] Hint Resolve keeps_ret keeps_throw keeps_pil keeps_ext keeps_tmp
  keeps_write keeps_read keeps_exists keeps_register keeps_count_processed
  keeps_unlink keeps_get keeps_true_div : frames.

(** Walk through a computation, one construct at a time. *)
Ltac frame_go :=
  repeat (first
    [ solve [eauto with frames]
    | apply keeps_emit; first [exact _ | reflexivity]
    | apply keeps_bind; [|intros ?]
    | apply keeps_try; [|intros ?]
    | apply keeps_for_each; intros ? ?
    | match goal with
      | |- keeps _ (if ?b then _ else _) => destruct b
      | |- keeps _ (match ?x with _ => _ end) => destruct x
      | |- keeps _ (let '(_, _) := ?x in _) => destruct x
      end ]).

Section RendererFrames.


Context `{FO : FloatOps} {X : Type} (f : World -> X) `{!Frame f} (E : Env).

Lemma keeps_gradient img width height r0 rs g0 gs b0 bs :
  keeps f (gradient E img width height r0 rs g0 gs b0 bs).
Proof. unfold gradient. frame_go. Qed.

Lemma keeps_get_font font_type width : keeps f (_get_font E font_type width).
Proof.
  unfold _get_font. generalize (if String.eqb font_type "title" then width / 25 else width / 35).
  intros size. induction font_paths as [|p ps IH]; simpl; frame_go.
Qed.

Lemma keeps_render cfg slide template slide_num total_slides logo :
  keeps f (_create_enhanced_slide E cfg slide template slide_num total_slides logo).
Proof.
  unfold _create_enhanced_slide, _apply_corporate_template, _apply_modern_template,
    _apply_minimalist_template, _apply_default_template, _add_company_logo,
    _add_slide_content, _add_slide_metadata, _apply_visual_effects.
  pose proof keeps_gradient. pose proof keeps_get_font.
  frame_go.
Qed.

Lemma keeps_tts text lang speed : keeps f (enhanced_text_to_speech E text lang speed).
Proof. unfold enhanced_text_to_speech. frame_go. Qed.

Lemma keeps_process_audio slide lang speed :
  keeps f (_process_slide_audio E slide lang speed).
Proof. unfold _process_slide_audio. pose proof keeps_tts. frame_go. Qed.

Lemma keeps_silent_clip cfg tmp_img : keeps f (silent_clip E cfg tmp_img).
Proof. unfold silent_clip, ImageClip, fadein, fadeout. frame_go. Qed.

Lemma keeps_narrated_clip cfg tmp_img p : keeps f (narrated_clip E cfg tmp_img p).
Proof.
  unfold narrated_clip, AudioFileClip, ImageClip, fadein, fadeout, volumex, set_audio.
  frame_go.
Qed.

Lemma keeps_narrated_audio p : keeps f (AudioFileClip E p).
Proof. unfold AudioFileClip. frame_go. Qed.

Lemma keeps_compose_clip cfg tmp_img path found :
  keeps f (compose_clip E cfg tmp_img path found).
Proof.
  unfold compose_clip. pose proof keeps_silent_clip. pose proof keeps_narrated_clip.
  frame_go.
Qed.

End RendererFrames.

(** ** The slide clip builder *)

Section Builder.

Context `{FO : FloatOps} {X : Type} (f : World -> X) `{!Frame f} (E : Env).

Lemma guards_any {A} (m : M A) :
  keeps f m -> guards f (value (fun _ => True)) m.
Proof. intros Hk. eapply guards_mono; [exact Hk|]. by intros []. Qed.

Lemma guards_split {A} (S : Result A -> Prop) (m : M A) :
  keeps f m -> (forall w, S (m w).1) -> guards f S m.
Proof. intros Hk HS w. split; [apply Hk|apply HS]. Qed.

Ltac run_go :=
  intros ?w;
  unfold ImageClip, AudioFileClip, fadein, fadeout, volumex, set_audio,
    ext, next_call, read_file, get, bind, ret, throw, value;
  simpl; repeat case_match; simplify_eq/=; auto.

Lemma ImageClip_shape p d :
  guards f (value (fun c => clip_audio c = None /\ clip_duration c = d))
    (ImageClip E p d).
Proof.
  apply guards_split; [unfold ImageClip; frame_go|]. run_go.
Qed.

Lemma fadein_shape c d :
  guards f (value (fun c' => clip_audio c' = clip_audio c /\
                             clip_duration c' = clip_duration c))
    (fadein E c d).
Proof. apply guards_split; [unfold fadein; frame_go|]. run_go. Qed.

Lemma fadeout_shape c d :
  guards f (value (fun c' => clip_audio c' = clip_audio c /\
                             clip_duration c' = clip_duration c))
    (fadeout E c d).
Proof. apply guards_split; [unfold fadeout; frame_go|]. run_go. Qed.

Lemma volumex_shape a : guards f (value (fun a' => a' = a)) (volumex E a).
Proof. apply guards_split; [unfold volumex; frame_go|]. run_go. Qed.

Lemma set_audio_shape c a :
  guards f (value (fun c' => clip_audio c' = Some a /\
                             clip_duration c' = clip_duration c))
    (set_audio E c a).
Proof. apply guards_split; [unfold set_audio; frame_go|]. run_go. Qed.

Lemma silent_clip_shape cfg tmp_img :
  guards f (value (fun oc => exists c, oc = Some c /\ clip_audio c = None /\
                                       clip_duration c = min_slide_duration cfg))
    (silent_clip E cfg tmp_img).
Proof.
  unfold silent_clip.
  eapply guards_bind; [apply ImageClip_shape| |done]. intros c0 [Ha0 Hd0].
  eapply guards_bind; [apply fadein_shape| |done]. intros c1 [Ha1 Hd1].
  eapply guards_bind; [apply fadeout_shape| |done]. intros c2 [Ha2 Hd2].
  eapply guards_bind; [by apply guards_any, keeps_count_processed| |done].
  intros _ _. apply guards_ret. exists c2. split; [done|]. split; congruence.
Qed.

Lemma narrated_clip_shape cfg tmp_img p :
  guards f (value (fun oc => exists c a, oc = Some c /\ clip_audio c = Some a /\
                     clip_duration c = clamp_duration cfg (audio_duration a)))
    (narrated_clip E cfg tmp_img p).
Proof.
  unfold narrated_clip.
  eapply guards_bind; [by apply guards_any, keeps_narrated_audio| |done].
  intros a _.
  eapply guards_bind; [apply volumex_shape| |done]. intros ? ->.
  eapply guards_bind; [apply ImageClip_shape| |done]. intros c0 [Ha0 Hd0].
  eapply guards_bind; [apply fadein_shape| |done]. intros c1 [Ha1 Hd1].
  eapply guards_bind; [apply fadeout_shape| |done]. intros c2 [Ha2 Hd2].
  eapply guards_bind; [apply volumex_shape| |done]. intros ? ->.
  eapply guards_bind; [apply set_audio_shape| |done]. intros c3 [Ha3 Hd3].
  eapply guards_bind; [by apply guards_any, keeps_count_processed| |done].
  intros _ _. apply guards_ret. exists c3, a. split; [done|]. split; [done|].
  unfold clamp_duration. congruence.
Qed.

Lemma compose_clip_shape cfg tmp_img path found :
  guards f (value (fun oc => exists c, oc = Some c /\ well_timed cfg c))
    (compose_clip E cfg tmp_img path found).
Proof.
  assert (guards f (value (fun oc => exists c, oc = Some c /\ well_timed cfg c))
            (silent_clip E cfg tmp_img)) as Hsilent.
  { eapply guards_mono; [apply silent_clip_shape|].
    intros [oc|e]; [|done]. intros (c & -> & Ha & Hd). exists c. split; [done|].
    unfold well_timed. by rewrite Ha. }
  unfold compose_clip. destruct path as [p|]; [|done]. destruct found; [|done].
  apply guards_try.
  - eapply guards_mono; [apply narrated_clip_shape|].
    intros [oc|e]; [|done]. intros (c & a & -> & Ha & Hd). exists c. split; [done|].
    unfold well_timed. by rewrite Ha.
  - intros e. eapply guards_bind; [|intros _ _; exact Hsilent|done].
    apply guards_any, keeps_emit; done.
Qed.

(** The body of the builder's [try]: it returns a clip or raises, and
    leaves [f] alone. *)
Lemma builder_body_shape cfg slide template slide_num total_slides logo lang speed :
  guards f (fun r => match r with
                     | Ok oc => exists c, oc = Some c /\ well_timed cfg c
                     | Raise _ => True
                     end)
    (let* slide_img :=
       _create_enhanced_slide E cfg slide template slide_num total_slides logo in
     let* tmp_img := NamedTemporaryFile in
     ext E Image_save >>
     write_file tmp_img (Png slide_img) >>
     modify (set_temp_files (fun l => l ++ [tmp_img])) >>
     let* audio_file_path := _process_slide_audio E slide lang speed in
     let* found :=
       match audio_file_path with
       | Some p => tmp_exists p
       | None => ret false
       end in
     compose_clip E cfg tmp_img audio_file_path found).
Proof.
  eapply guards_bind; [by apply guards_any, keeps_render| |done]. intros img _.
  eapply guards_bind; [by apply guards_any, keeps_tmp| |done]. intros tmp _.
  eapply guards_bind; [by apply guards_any, keeps_ext| |done]. intros _ _.
  eapply guards_bind; [by apply guards_any, keeps_write| |done]. intros _ _.
  eapply guards_bind; [by apply guards_any, keeps_register| |done]. intros _ _.
  eapply guards_bind; [by apply guards_any, keeps_process_audio| |done]. intros path _.
  eapply guards_bind with (P := fun _ => True); [| |done].
  { apply guards_any. destruct path; frame_go. }
  intros found _. apply compose_clip_shape.
Qed.

End Builder.

Section BuilderCounters.

Context `{FO : FloatOps} (E : Env).

Global Instance failed_frame : Frame failed.
Proof. by split. Qed.

(** What a call of the builder comes to: a well-timed clip and the count
    of failures as it was, or nothing and one failure more; no exception. *)
Lemma builder_run cfg slide template slide_num total_slides logo lang speed w :
  let r := _create_slide_video_clip E cfg slide template slide_num total_slides
             logo lang speed w in
  match r.1 with
  | Ok (Some c) => failed r.2 = failed w /\ well_timed cfg c
  | Ok None => failed r.2 = failed w + 1
  | Raise _ => False
  end.
Proof.
  unfold _create_slide_video_clip, try_except.
  destruct (builder_body_shape failed E cfg slide template slide_num total_slides
              logo lang speed w) as [Hf Hr].
  match goal with |- context [match ?m w with _ => _ end] =>
    change (f_lit 1 1) with (f_lit 1 1) in *; destruct (m w) as [[oc|e] w1] end;
    simpl in *.
  - destruct Hr as (c & -> & Hc). done.
  - unfold failed in *. simpl. by rewrite Hf.
Qed.

End BuilderCounters.

(** ** The claims on the renderer *)

Section RendererClaims.

Context `{FO : FloatOps} (E : Env).


Lemma initials_logo_outcome company_name :
  outcome (generate_initials_logo E company_name) (fun _ => True).
Proof.
  unfold generate_initials_logo. apply outcome_bind.
  eapply outcome_mono with (Q := fun r => exists font, r = Ok font).
  { outcome_go; eauto. }
  intros r [font ->]. destruct (textbbox E font _) as [[[x0 y0] x1] y1].
  by apply outcome_ret.
Qed.



End RendererClaims.




(** ** The claims on the clip builder *)

Section BuilderClaims.

Context `{FO : FloatOps} (E : Env).

Lemma clamp_in_range cfg d :
  f_le (min_slide_duration cfg) (max_slide_duration cfg) ->
  f_le (min_slide_duration cfg) (clamp_duration cfg d) /\
  f_le (clamp_duration cfg d) (max_slide_duration cfg).
Proof.
  unfold f_le, clamp_duration, py_max, py_min. intros Hle.
  destruct (f_ltb (max_slide_duration cfg) (f_add d (f_lit 1 1))) eqn:H1.
  - rewrite Hle. split; [exact Hle|apply f_ltb_irrefl].
  - destruct (f_ltb (f_add d (f_lit 1 1)) (min_slide_duration cfg)) eqn:H2.
    + split; [apply f_ltb_irrefl|exact Hle].
    + by split.
Qed.



End BuilderClaims.




(** ** Views of the trace *)

Section Views.

Context `{FO : FloatOps} {B : Type} (g : Event -> option B).
Hypothesis g_report : forall e, is_report e = true -> g e = None.

Lemma view_add_event e w :
  view g (add_event e w) = view g w ++ option_list (g e).
Proof.
  unfold view, add_event. simpl. rewrite omap_app. f_equal.
Qed.

Global Instance view_frame : Frame (view g).
Proof.
  split; try done. intros e w He. rewrite view_add_event, g_report by done.
  simpl. by rewrite app_nil_r.
Qed.

Lemma keeps_emit_view e : g e = None -> keeps (view g) (emit e).
Proof.
  intros He w. split; [|done]. unfold emit, modify. simpl.
  rewrite view_add_event, He. simpl. by rewrite app_nil_r.
Qed.

Lemma keeps_count_failed : keeps (view g) count_failed.
Proof. by intros w. Qed.

Lemma keeps_metrics h : keeps (view g) (modify (set_metrics h)).
Proof. by intros w. Qed.

Lemma keeps_next_call : keeps (view g) next_call.
Proof. by intros w. Qed.

Lemma keeps_new_generator : keeps (view g) new_generator.
Proof. by intros w. Qed.

Lemma keeps_show_progress stage msg :
  (forall m, g (ShowProgress stage msg m) = None) ->
  keeps (view g) (_show_progress stage msg).
Proof.
  intros Hg. unfold _show_progress. apply keeps_bind; [by apply keeps_get|].
  intros m. by apply keeps_emit_view.
Qed.

End Views.

(** ** Computations that add to an observation *)

Section Adds.

Context `{FO : FloatOps} {B : Type} (f : World -> list B).

Lemma adds_mono {A} (R R' : list B -> Result A -> Prop) (m : M A) :
  adds f R m -> (forall X r, R X r -> R' X r) -> adds f R' m.
Proof. intros Hm HR w. destruct (Hm w) as (X & Hf & HX). eauto. Qed.

Lemma adds_guards {A} (S : Result A -> Prop) (m : M A) :
  guards f S m -> adds f (fun X r => X = [] /\ S r) m.
Proof.
  intros Hm w. destruct (Hm w) as [Hf Hr]. exists [].
  by rewrite app_nil_r.
Qed.

Lemma adds_keeps {A} (m : M A) :
  keeps f m -> adds f (fun X r => X = []) m.
Proof.
  intros Hm. eapply adds_mono; [apply adds_guards, Hm|]. by intros X r [].
Qed.

Lemma adds_ret {A} (R : list B -> Result A -> Prop) (a : A) :
  R [] (Ok a) -> adds f R (ret a).
Proof. intros HR w. exists []. by rewrite app_nil_r. Qed.

Lemma adds_bind {A C} (R1 : list B -> Result A -> Prop)
    (R : list B -> Result C -> Prop) (m : M A) (k : A -> M C) :
  adds f R1 m ->
  (forall a X1, R1 X1 (Ok a) -> adds f (fun X2 r => R (X1 ++ X2) r) (k a)) ->
  (forall e X1, R1 X1 (Raise e) -> R X1 (Raise e)) ->
  adds f R (bind m k).
Proof.
  intros Hm Hk He w. unfold bind. destruct (Hm w) as (X1 & Hf1 & H1).
  destruct (m w) as [[a|e] w1]; simpl in *.
  - destruct (Hk a X1 H1 w1) as (X2 & Hf2 & H2). exists (X1 ++ X2).
    split; [|done]. by rewrite Hf2, Hf1, app_assoc.
  - exists X1. split; [done|]. by apply He.
Qed.

Lemma adds_try {A} (R1 R : list B -> Result A -> Prop)
    (m : M A) (h : Exn -> M A) :
  adds f R1 m ->
  (forall a X1, R1 X1 (Ok a) -> R X1 (Ok a)) ->
  (forall e X1, R1 X1 (Raise e) -> adds f (fun X2 r => R (X1 ++ X2) r) (h e)) ->
  adds f R (try_except m h).
Proof.
  intros Hm Ha Hh w. unfold try_except. destruct (Hm w) as (X1 & Hf1 & H1).
  destruct (m w) as [[a|e] w1]; simpl in *.
  - exists X1. split; [done|]. by apply Ha.
  - destruct (Hh e X1 H1 w1) as (X2 & Hf2 & H2). exists (X1 ++ X2).
    split; [|done]. by rewrite Hf2, Hf1, app_assoc.
Qed.

(** A step that leaves the observation alone, then the rest. *)
Lemma adds_after {A C} (S : Result A -> Prop)
    (R : list B -> Result C -> Prop) (m : M A) (k : A -> M C) :
  guards f S m ->
  (forall a, S (Ok a) -> adds f R (k a)) ->
  (forall e, S (Raise e) -> R [] (Raise e)) ->
  adds f R (bind m k).
Proof.
  intros Hm Hk He. eapply adds_bind; [apply adds_guards, Hm| |].
  - intros a X1 [-> Ha]. simpl. by apply Hk.
  - intros e X1 [-> HS]. by apply He.
Qed.

(** A loop that keeps the observation and an invariant of its accumulator,
    as long as it does not raise. *)
Lemma guards_loop {A S} (I : S -> Prop) (xs : list A)
    (body : S -> A -> M S) (acc : S) :
  I acc ->
  (forall acc x, x ∈ xs -> I acc -> guards f (value I) (body acc x)) ->
  guards f (value I) (for_each xs body acc).
Proof.
  revert acc. induction xs as [|x xs IH]; intros acc Hacc Hbody w; simpl.
  - done.
  - unfold bind. destruct (Hbody acc x (list_elem_of_here _ _) Hacc w) as [Hf Hr].
    destruct (body acc x w) as [[acc'|e] w1]; simpl in *; [|done].
    destruct (IH acc' Hr (fun a y Hy => Hbody a y (list_elem_of_further _ _ _ Hy)) w1)
      as [Hf' Hr'].
    split; [congruence|done].
Qed.

Lemma guards_then {A C} (P : A -> Prop) (S : Result C -> Prop)
    (m : M A) (k : A -> M C) :
  guards f (returned P) m ->
  (forall a, P a -> guards f S (k a)) ->
  guards f S (bind m k).
Proof.
  intros Hm Hk w. unfold bind. destruct (Hm w) as [Hf Hr].
  destruct (m w) as [[a|e] w1]; simpl in *; [|done].
  destruct (Hk a Hr w1) as [Hf' Hr']. split; [congruence|done].
Qed.

Lemma guards_loop_total {A S} (I : S -> Prop) (xs : list A)
    (body : S -> A -> M S) (acc : S) :
  I acc ->
  (forall acc x, x ∈ xs -> I acc -> guards f (returned I) (body acc x)) ->
  guards f (returned I) (for_each xs body acc).
Proof.
  revert acc. induction xs as [|x xs IH]; intros acc Hacc Hbody; simpl.
  - by intros w.
  - eapply guards_then; [apply Hbody; [left|done]|].
    intros acc' Hacc'. apply IH; [done|]. intros a y Hy. apply Hbody. by right.
Qed.

Lemma guards_total {A} (m : M A) :
  keeps f m -> (forall w, exists a, (m w).1 = Ok a) ->
  guards f (returned (fun _ => True)) m.
Proof.
  intros Hk Hr w. split; [apply Hk|]. by destruct (Hr w) as [a ->].
Qed.

End Adds.

(** ** The pipeline through a view of its events *)

Section PipelineViews.

Context `{FO : FloatOps} {B : Type} (g : Event -> option B) (E : Env).
Hypothesis g_report : forall e, is_report e = true -> g e = None.
Hypothesis g_generated : forall k n m,
  g (ShowProgress 2 (Say2 "Generated slides" k n) m) = None.

Local Existing Instance view_frame.

Local Instance view_g_frame : Frame (view g) := view_frame g g_report.

Lemma keeps_builder cfg slide template slide_num total_slides logo lang speed :
  keeps (view g)
    (_create_slide_video_clip E cfg slide template slide_num total_slides logo
       lang speed).
Proof.
  unfold _create_slide_video_clip. apply keeps_try.
  - eapply guards_keeps, builder_body_shape. apply _.
  - intros e. apply keeps_bind; [apply keeps_emit; first [exact _|reflexivity]|].
    intros _.
    apply keeps_bind; [apply keeps_count_failed|]. intros _. apply keeps_ret.
Qed.

Lemma builder_returns cfg slide template slide_num total_slides logo lang speed w :
  exists oc,
    (_create_slide_video_clip E cfg slide template slide_num total_slides logo
       lang speed w).1 = Ok oc.
Proof.
  pose proof (builder_run E cfg slide template slide_num total_slides logo
                lang speed w) as H. simpl in H.
  destruct (_create_slide_video_clip _ _ _ _ _ _ _ _ _ w).1 as [oc|e]; [|done].
  by exists oc.
Qed.

Lemma guards_builder cfg slide template slide_num total_slides logo lang speed :
  guards (view g) (returned (fun _ => True))
    (_create_slide_video_clip E cfg slide template slide_num total_slides logo
       lang speed).
Proof.
  intros w. split; [apply keeps_builder|].
  destruct (builder_returns cfg slide template slide_num total_slides logo
              lang speed w) as [oc ->]. done.
Qed.

Lemma guards_cleanup :
  guards (view g) (returned (fun _ => True)) (_cleanup_temp_files E).
Proof.
  unfold _cleanup_temp_files.
  eapply guards_then with (P := fun _ => True); [by intros w|]. intros files _.
  eapply guards_then with (P := fun _ => True); [|by intros _ _ w].
  apply guards_loop_total; [done|]. intros [] p _ _.
  pose proof view_g_frame.
  apply guards_total; [by frame_go|]. intros w.
  unfold try_except, bind, tmp_exists, get, os_unlink, ext, next_call,
    bind, modify, emit, ret, throw. simpl.
  repeat (case_match; simplify_eq/=); eauto.
Qed.

Lemma initials_logo_yields company_name :
  yields (generate_initials_logo E company_name) (fun _ => True).
Proof.
  unfold generate_initials_logo. eapply yields_bind with (P := fun _ => True).
  - unfold yields. outcome_go; done.
  - intros font _. destruct (textbbox E font _) as [[[x0 y0] x1] y1].
    by apply yields_ret.
Qed.

Lemma guards_initials_logo company_name :
  guards (view g) (returned (fun _ => True)) (generate_initials_logo E company_name).
Proof.
  pose proof view_g_frame.
  apply guards_total.
  - unfold generate_initials_logo. by frame_go.
  - intros w.
    destruct (outcome_run _ _ w (initials_logo_yields company_name))
      as (evs & HQ & _).
    destruct (generate_initials_logo E company_name w).1 as [img|e]; [|done].
    by exists img.
Qed.

Lemma initials_logo_total company_name w :
  exists img w1, generate_initials_logo E company_name w = (Ok img, w1).
Proof.
  destruct (outcome_run _ _ w (initials_logo_yields company_name))
    as (evs & HQ & _).
  destruct (generate_initials_logo E company_name w) as [[img|e] w1];
    simpl in *; [|done]. by exists img, w1.
Qed.

Lemma try_except_total {A} (m : M A) (h : Exn -> M A) w :
  (forall e w1, exists a, (h e w1).1 = Ok a) ->
  exists a, (try_except m h w).1 = Ok a.
Proof.
  intros Hh. unfold try_except. destruct (m w) as [[a|e] w1]; simpl; eauto.
Qed.

Lemma guards_extract_logo company_name :
  guards (view g) (returned (fun _ => True)) (extract_company_logo E company_name).
Proof.
  pose proof view_g_frame.
  assert (forall n, keeps (view g) (generate_initials_logo E n)) as Hk.
  { intros n w. by destruct (guards_initials_logo n w). }
  apply guards_total.
  - unfold extract_company_logo. by frame_go.
  - intros w. unfold extract_company_logo. apply try_except_total.
    intros e w1. destruct (initials_logo_total company_name w1)
      as (img & w2 & ->). by exists img.
Qed.

Lemma keeps_run_future {A} (job : M A) :
  keeps (view g) job -> keeps (view g) (run_future job).
Proof.
  intros Hj w. unfold run_future. destruct (Hj w) as [Hf _].
  by destruct (job w).
Qed.

Lemma keeps_run_pool cfg slides template logo lang speed :
  keeps (view g) (run_pool E cfg slides template logo lang speed).
Proof.
  unfold run_pool. apply keeps_for_each. intros results future.
  destruct (slides !! future); [|apply keeps_ret].
  apply keeps_bind; [|intros; apply keeps_ret].
  apply keeps_run_future, keeps_builder.
Qed.

Lemma keeps_collect_step n_slides fidx results acc future :
  keeps (view g) (collect_step n_slides fidx results acc future).
Proof.
  pose proof view_g_frame.
  unfold collect_step, future_result.
  apply keeps_bind; [by frame_go|]. intros slide_idx.
  apply keeps_try.
  - apply keeps_bind; [by frame_go|]. intros clip.
    apply keeps_bind; [|intros; apply keeps_ret].
    apply keeps_show_progress. apply g_generated.
  - intros e. apply keeps_bind; [apply keeps_emit; first [exact _|reflexivity]|].
    intros _. apply keeps_bind; [apply keeps_count_failed|]. intros _.
    apply keeps_ret.
Qed.

Lemma keeps_collect_completed n_slides fidx results :
  keeps (view g) (collect_completed E n_slides fidx results).
Proof.
  unfold collect_completed. apply keeps_bind; [|intros; apply keeps_ret].
  apply keeps_for_each. intros. apply keeps_collect_step.
Qed.

End PipelineViews.

(** Walk through a computation whose events the view does not read. *)
Ltac view_go :=
  repeat (first
    [ solve [eauto with frames]
    | apply keeps_emit; first [exact _ | reflexivity]
    | apply keeps_emit_view; reflexivity
    | apply keeps_show_progress; intros ?; reflexivity
    | apply keeps_metrics
    | apply keeps_next_call
    | apply keeps_count_failed
    | apply keeps_bind; [|intros ?]
    | apply keeps_try; [|intros ?]
    | apply keeps_for_each; intros ? ?
    | match goal with
      | |- keeps _ (if ?b then _ else _) => destruct b
      | |- keeps _ (match ?x with _ => _ end) => destruct x
      end ]).

Section Schedule.

Context `{FO : FloatOps} (E : Env).

Lemma sched_report e : is_report e = true -> sched_of e = None.
Proof. by destruct e. Qed.

Lemma export_report e : is_report e = true -> export_of e = None.
Proof. by destruct e. Qed.

Local Instance sched_frame : Frame (view sched_of) := view_frame _ sched_report.
Local Instance export_frame : Frame (view export_of) := view_frame _ export_report.

Lemma adds_emit {B} (g : Event -> option B) e :
  adds (view g) (fun X r => X = option_list (g e) /\ r = Ok tt) (emit e).
Proof.
  intros w. exists (option_list (g e)). split; [|done].
  unfold emit, modify. simpl. apply view_add_event.
Qed.

Lemma guards_show_progress {B} (g : Event -> option B) stage msg :
  (forall m, g (ShowProgress stage msg m) = None) ->
  guards (view g) (returned (fun _ => True)) (_show_progress stage msg).
Proof.
  intros Hg w. split; [|done]. unfold _show_progress, bind, get, emit, modify.
  simpl. rewrite view_add_event, Hg. simpl. by rewrite app_nil_r.
Qed.

Lemma sequential_loop cfg slides template logo lang speed
    (ps : list (nat * Slide)) (acc : list Clip) :
  adds (view sched_of)
    (fun X r => X = map (fun p => Sequential (Z.of_nat p.1 + 1)) ps /\
                returned (fun _ => True) r)
    (for_each ps
       (fun video_clips '(i, slide) =>
          _show_progress 2 (Say2 "Generating slide" (Z.of_nat i + 1) (len slides)) >>
          let* clip := build E cfg slides template logo lang speed i slide in
          ret (match clip with
               | Some c => video_clips ++ [c]
               | None => video_clips
               end))
       acc).
Proof.
  revert acc. induction ps as [|[i slide] ps IH]; intros acc; simpl for_each.
  - by apply adds_ret.
  - eapply adds_bind with
      (R1 := fun X r => X = [Sequential (Z.of_nat i + 1)] /\
                        returned (fun _ => True) r).
    + eapply adds_bind with
        (R1 := fun X r => X = [Sequential (Z.of_nat i + 1)] /\ r = Ok tt).
      * unfold _show_progress.
        eapply adds_after with (S := returned (fun _ => True)); [by intros w| |done].
        intros m _. eapply adds_mono; [apply adds_emit|]. by intros X r [-> ->].
      * intros [] X1 [-> _].
        eapply adds_after with (S := returned (fun _ => True)).
        -- apply guards_builder. apply sched_report.
        -- intros clip _. apply adds_ret. by rewrite app_nil_r.
        -- done.
      * by intros e X1 [_ ?].
    + intros acc' X1 [-> _]. eapply adds_mono; [apply IH|].
      intros X r [-> Hr]. done.
    + by intros e X1 [_ ?].
Qed.

Lemma enumerate_indices {A} (xs : list A) (h : nat -> Sched) :
  map (fun p => h p.1) (enumerate xs) = map h (seq 0 (length xs)).
Proof.
  unfold enumerate. change (map ?g ?l) with (g <$> l).
  rewrite fmap_imap. rewrite (imap_ext _ (fun n _ => h n)) by done.
  apply imap_seq_0.
Qed.

Lemma process_sequential_schedule cfg slides template logo lang speed :
  adds (view sched_of)
    (fun X r => X = map (fun i => Sequential (Z.of_nat i + 1))
                        (seq 0 (length slides)) /\
                returned (fun _ => True) r)
    (process_sequential E cfg slides template logo lang speed).
Proof.
  unfold process_sequential. eapply adds_mono; [apply sequential_loop|].
  intros X r [-> Hr]. split; [|done].
  apply (enumerate_indices slides (fun i => Sequential (Z.of_nat i + 1))).
Qed.

Lemma process_parallel_schedule cfg slides template logo lang speed :
  adds (view sched_of) (fun X r => X = [Pool (Z.min 4 (len slides))])
    (process_parallel E cfg slides template logo lang speed).
Proof.
  unfold process_parallel.
  eapply adds_after; [by apply guards_show_progress| |done].
  intros _ _.
  eapply adds_bind; [apply adds_emit| |].
  - intros [] X1 [-> _]. simpl option_list.
    eapply adds_after with (S := fun _ => True).
    + apply keeps_run_pool. apply sched_report.
    + intros results _. eapply adds_mono.
      * apply adds_keeps, keeps_collect_completed; [apply sched_report|done].
      * intros X r ->. done.
    + intros. done.
  - by intros e X1 [_ ?].
Qed.

Lemma guards_modify_metrics {B} (g : Event -> option B) h :
  guards (view g) (returned (fun _ => True)) (modify (set_metrics h)).
Proof. by intros w. Qed.

Lemma guards_next_call {B} (g : Event -> option B) :
  guards (view g) (returned (fun _ => True)) next_call.
Proof. by intros w. Qed.

Lemma guards_new_generator {B} (g : Event -> option B) :
  guards (view g) (returned (fun _ => True)) new_generator.
Proof. by intros w. Qed.

Lemma keeps_cleanup {B} (g : Event -> option B) :
  (forall e, is_report e = true -> g e = None) ->
  keeps (view g) (_cleanup_temp_files E).
Proof.
  intros Hg w. by destruct (guards_cleanup g E Hg w).
Qed.

Lemma export_clips_schedule cfg start_time video_clips :
  keeps (view sched_of) (export_clips E cfg start_time video_clips).
Proof.
  pose proof sched_frame. pose proof (keeps_cleanup sched_of sched_report).
  unfold export_clips, set_generation_time, set_file_size_mb. by view_go.
Qed.

Lemma pipeline_schedule slides company_name template lang speed config :
  VIDEO_LIBS_AVAILABLE E = true ->
  adds (view sched_of)
    (fun X r =>
       X = if 3 <? len slides then [Pool (Z.min 4 (len slides))]
           else map (fun i => Sequential (Z.of_nat i + 1))
                    (seq 0 (length slides)))
    (create_professional_placement_video E slides company_name template lang
       speed config true).
Proof.
  intros Hlibs. unfold create_professional_placement_video.
  rewrite Hlibs. simpl negb. cbv iota.
  destruct slides as [|slide0 slides'] eqn:Hslides.
  { simpl. eapply adds_mono; [apply adds_keeps|by intros X r ->].
    pose proof sched_frame. by view_go. }
  rewrite <- Hslides. replace (truthy slides) with true by by subst.
  simpl negb. cbv iota.
  eapply adds_after; [apply guards_new_generator| |done]. intros _ _.
  eapply adds_after; [apply guards_next_call| |done]. intros k0 _.
  eapply adds_try with (R1 := fun X r =>
    X = if 3 <? len slides then [Pool (Z.min 4 (len slides))]
        else map (fun i => Sequential (Z.of_nat i + 1)) (seq 0 (length slides))).
  - unfold set_total_slides.
    eapply adds_after; [apply guards_modify_metrics| |done]. intros _ _.
    eapply adds_after; [by apply guards_show_progress| |done]. intros _ _.
    eapply adds_after; [apply guards_extract_logo, sched_report| |done].
    intros logo _.
    eapply adds_after; [by apply guards_show_progress| |done]. intros _ _.
    eapply adds_bind with (R1 := fun X r =>
      X = if 3 <? len slides then [Pool (Z.min 4 (len slides))]
          else map (fun i => Sequential (Z.of_nat i + 1)) (seq 0 (length slides))).
    + simpl andb. destruct (3 <? len slides).
      * apply process_parallel_schedule.
      * eapply adds_mono; [apply process_sequential_schedule|]. by intros X r [].
    + intros clips X1 ->. eapply adds_mono.
      * apply adds_keeps.
        apply (export_clips_schedule (default default_config config)
                 (time_time E k0) clips).
      * intros X r ->. by rewrite app_nil_r.
    + by intros e X1 ->.
  - by intros a X1 ->.
  - intros e X1 ->. eapply adds_mono.
    + apply adds_keeps. pose proof sched_frame.
      pose proof (keeps_cleanup sched_of sched_report). by view_go.
    + intros X r ->. by rewrite app_nil_r.
Qed.

End Schedule.

Section Exports.

Context `{FO : FloatOps} (E : Env).

Local Instance export_frame' : Frame (view export_of) :=
  view_frame _ export_report.

Lemma export_clips_exports cfg start_time video_clips :
  adds (view export_of)
    (fun X r => export_shape X /\ (video_clips = [] -> X = [] /\ r = Ok None))
    (export_clips E cfg start_time video_clips).
Proof.
  pose proof export_frame'. pose proof (keeps_cleanup E export_of export_report).
  unfold export_clips. destruct video_clips as [|c cs]; simpl negb; cbv iota.
  { eapply adds_after with (S := fun r => r = Ok tt).
    - intros w. split; [|done]. apply keeps_emit; [exact _|reflexivity].
    - intros _ _. apply adds_ret. split; [by left|done].
    - done. }
  set (clips := c :: cs).
  assert (forall X, (X = [Concatenate clips] \/
                     exists p cfg', X = [Concatenate clips; WriteVideofile p cfg']) ->
                    export_shape X /\ (clips = [] -> X = [] /\ False)) as Hshape.
  { intros X HX. split; [right; by exists clips|done]. }
  eapply adds_mono with (R := fun X r =>
    X = [Concatenate clips] \/
    exists p cfg', X = [Concatenate clips; WriteVideofile p cfg']).
  2: { intros X r HX. destruct (Hshape X HX) as [H1 H2]. split; [done|].
       intros Hnil. by destruct (H2 Hnil). }
  eapply adds_after; [by apply guards_show_progress| |done]. intros _ _.
  eapply adds_bind; [apply adds_emit| |by intros e X1 [_ ?]].
  intros [] X1 [-> _]. simpl option_list.
  eapply adds_mono with (R := fun X2 r =>
    X2 = [] \/ exists p cfg', X2 = [WriteVideofile p cfg']).
  2: { intros X2 r [->|(p & cfg' & ->)]; [by left|right; by exists p, cfg']. }
  eapply adds_after with (S := fun _ => True); [apply keeps_ext; exact _| |by left].
  intros _ _.
  eapply adds_after with (S := fun _ => True); [|intros _ _|by left].
  { match goal with |- guards ?f _ ?m => change (keeps f m) end. by view_go. }
  eapply adds_after; [by apply guards_show_progress| |done]. intros _ _.
  eapply adds_after; [by apply guards_show_progress| |done]. intros _ _.
  eapply adds_after with (S := fun _ => True); [apply keeps_tmp; exact _| |by left].
  intros tmp_video _.
  eapply adds_bind; [apply adds_emit| |by intros e X1 [_ ?]].
  intros [] X1 [-> _]. simpl option_list.
  eapply adds_mono.
  - apply adds_keeps. unfold set_generation_time, set_file_size_mb. by view_go.
  - intros X r ->. right. by exists tmp_video, cfg.
Qed.

Lemma keeps_process_parallel cfg slides template logo lang speed :
  keeps (view export_of) (process_parallel E cfg slides template logo lang speed).
Proof.
  pose proof export_frame'.
  pose proof (keeps_run_pool export_of E export_report cfg slides template
                logo lang speed).
  assert (forall n fidx results,
            keeps (view export_of) (collect_completed E n fidx results)) as Hc.
  { intros. by apply keeps_collect_completed; [apply export_report|]. }
  unfold process_parallel. by view_go.
Qed.

Lemma keeps_process_sequential cfg slides template logo lang speed :
  keeps (view export_of) (process_sequential E cfg slides template logo lang speed).
Proof.
  pose proof export_frame'.
  assert (forall i slide, keeps (view export_of)
            (build E cfg slides template logo lang speed i slide)) as Hb.
  { intros. apply keeps_builder, export_report. }
  unfold process_sequential. apply keeps_for_each. intros acc [i slide].
  by view_go.
Qed.

Section NoClip.

Variables (cfg : VideoConfig) (slides : list Slide) (template : string)
          (lang : string) (speed : float).
Hypothesis Hnull : all_builds_null E cfg slides template lang speed.

Lemma build_null logo i slide :
  slides !! i = Some slide ->
  guards (view export_of) (fun r => r = Ok None)
    (build E cfg slides template logo lang speed i slide).
Proof.
  intros Hi w. split; [apply keeps_builder, export_report|].
  by apply Hnull.
Qed.

Lemma process_sequential_null logo :
  guards (view export_of) (value (fun clips => clips = []))
    (process_sequential E cfg slides template logo lang speed).
Proof.
  unfold process_sequential. apply guards_loop; [done|].
  intros acc [i slide] Hin ->.
  apply elem_of_lookup_imap in Hin as (i' & slide' & [= -> ->] & Hi).
  eapply guards_then; [by apply guards_show_progress|]. intros _ _.
  eapply guards_then with (P := fun clip => clip = None).
  - eapply guards_mono; [by apply build_null|]. by intros r ->.
  - intros clip ->. by apply guards_ret.
Qed.

Lemma run_pool_null logo :
  guards (view export_of)
    (value (fun results : gmap nat (Result (option Clip)) =>
              forall i r, results !! i = Some r -> r = Ok None))
    (run_pool E cfg slides template logo lang speed).
Proof.
  unfold run_pool. apply guards_loop; [by intros i r; rewrite lookup_empty|].
  intros results future _ Hres.
  destruct (slides !! future) as [slide|] eqn:Hslide; [|by apply guards_ret].
  eapply guards_then with (P := fun r => r = Ok None).
  - intros w. unfold run_future.
    destruct (build_null logo future slide Hslide w) as [Hf Hr].
    destruct (build E cfg slides template logo lang speed future slide w)
      as [r w1]. simpl in *. by subst.
  - intros r ->. apply guards_ret. intros i r Hi.
    destruct (decide (future = i)) as [->|Hne].
    + rewrite lookup_insert_eq in Hi. congruence.
    + rewrite lookup_insert_ne in Hi by done. eauto.
Qed.

Lemma collect_completed_null n fidx
    (results : gmap nat (Result (option Clip))) :
  (forall i r, results !! i = Some r -> r = Ok None) ->
  guards (view export_of) (value (fun clips => clips = []))
    (collect_completed E n fidx results).
Proof.
  intros Hres. unfold collect_completed.
  eapply guards_bind with (P := fun video_clips => video_clips = []);
    [|by intros ? ->; apply guards_ret|done].
  apply guards_loop; [done|]. intros acc future _ ->.
  unfold collect_step.
  eapply guards_bind with (P := fun _ => True); [| |done].
  { apply guards_any. pose proof export_frame'. by view_go. }
  intros slide_idx _. apply guards_try.
  - eapply guards_bind with (P := fun clip => clip = None); [| |done].
    + intros w. unfold future_result.
      destruct (results !! future) as [r|] eqn:Hr; [|done].
      by rewrite (Hres _ _ Hr).
    + intros clip ->.
      eapply guards_then; [by apply guards_show_progress|]. intros _ _.
      by apply guards_ret.
  - intros e.
    eapply guards_then with (P := fun _ => True).
    { intros w. split; [|done]. apply keeps_emit; [exact _|reflexivity]. }
    intros _ _. eapply guards_then with (P := fun _ => True); [by intros w|].
    intros _ _. by apply guards_ret.
Qed.

Lemma process_parallel_null logo :
  guards (view export_of) (value (fun clips => clips = []))
    (process_parallel E cfg slides template logo lang speed).
Proof.
  unfold process_parallel.
  eapply guards_then; [by apply guards_show_progress|]. intros _ _.
  eapply guards_then with (P := fun _ => True).
  { intros w. split; [|done]. by apply keeps_emit_view. }
  intros _ _.
  eapply guards_bind; [apply run_pool_null| |done].
  intros results Hres. by apply collect_completed_null.
Qed.

End NoClip.

Lemma guards_report e :
  is_report e = true ->
  guards (view export_of) (returned (fun _ => True)) (emit e).
Proof. intros He w. split; [|done]. apply keeps_emit; [exact _|done]. Qed.

Lemma returned_value {A} (m : M A) (P : A -> Prop) :
  guards (view export_of) (returned P) m -> guards (view export_of) (value P) m.
Proof. intros Hm. eapply guards_mono; [exact Hm|]. by intros []. Qed.

Lemma failure_handler (e : Exn) :
  guards (view export_of) (fun r => r = Ok None)
    (emit (LogError (Say "Critical error in video generation")) >>
     emit (StError (Say "Video generation failed")) >>
     _cleanup_temp_files E >>
     ret (@None nat)).
Proof.
  eapply guards_then; [by apply guards_report|]. intros _ _.
  eapply guards_then; [by apply guards_report|]. intros _ _.
  eapply guards_then; [apply guards_cleanup, export_report|]. intros _ _.
  by apply guards_ret.
Qed.

Lemma pipeline_exports slides company_name template lang speed config parallel :
  adds (view export_of) (fun X r => export_shape X)
    (create_professional_placement_video E slides company_name template lang
       speed config parallel).
Proof.
  pose proof export_frame'.
  unfold create_professional_placement_video.
  destruct (VIDEO_LIBS_AVAILABLE E); simpl negb; cbv iota.
  2: { eapply adds_mono; [apply adds_keeps|intros X r ->; by left]. by view_go. }
  destruct (truthy slides); simpl negb; cbv iota.
  2: { eapply adds_mono; [apply adds_keeps|intros X r ->; by left]. by view_go. }
  eapply adds_after; [apply guards_new_generator| |done]. intros _ _.
  eapply adds_after; [apply guards_next_call| |done]. intros k0 _.
  eapply adds_try with (R1 := fun X r => export_shape X).
  - unfold set_total_slides.
    eapply adds_after; [apply guards_modify_metrics| |done]. intros _ _.
    eapply adds_after; [by apply guards_show_progress| |done]. intros _ _.
    eapply adds_after; [apply guards_extract_logo, export_report| |done].
    intros logo _.
    eapply adds_after; [by apply guards_show_progress| |done]. intros _ _.
    eapply adds_after with (S := fun _ => True); [| |by left].
    + destruct (parallel && (3 <? len slides));
        [apply keeps_process_parallel|apply keeps_process_sequential].
    + intros clips _. eapply adds_mono.
      * apply (export_clips_exports (default default_config config)
                 (time_time E k0) clips).
      * by intros X r [? _].
  - by intros a X1 ?.
  - intros e X1 HX1. eapply adds_mono.
    + apply adds_guards, failure_handler. exact e.
    + intros X r [-> _]. by rewrite app_nil_r.
Qed.

Lemma pipeline_no_clip slides company_name template lang speed config parallel :
  all_builds_null E (default default_config config) slides template lang speed ->
  guards (view export_of) (fun r => r = Ok None)
    (create_professional_placement_video E slides company_name template lang
       speed config parallel).
Proof.
  intros Hnull. pose proof export_frame'.
  unfold create_professional_placement_video.
  destruct (VIDEO_LIBS_AVAILABLE E); simpl negb; cbv iota.
  2: { eapply guards_then; [by apply guards_report|]. intros _ _.
       by apply guards_ret. }
  destruct (truthy slides); simpl negb; cbv iota.
  2: { eapply guards_then; [by apply guards_report|]. intros _ _.
       by apply guards_ret. }
  eapply guards_then; [apply guards_new_generator|]. intros _ _.
  eapply guards_then; [apply guards_next_call|]. intros k0 _.
  apply guards_try; [|apply failure_handler].
  eapply guards_mono with (S := value (fun a => a = None)).
  2: { intros [a|e]; simpl; [by intros ->|done]. }
  unfold set_total_slides.
  eapply guards_bind; [apply returned_value, guards_modify_metrics| |done].
  intros _ _.
  eapply guards_bind; [by apply returned_value, guards_show_progress| |done].
  intros _ _.
  eapply guards_bind;
    [apply returned_value, guards_extract_logo, export_report| |done].
  intros logo _.
  eapply guards_bind; [by apply returned_value, guards_show_progress| |done].
  intros _ _.
  eapply guards_bind with (P := fun clips => clips = []); [| |done].
  - destruct (parallel && (3 <? len slides));
      [by apply process_parallel_null|by apply process_sequential_null].
  - intros clips ->. simpl negb. cbv iota.
    eapply guards_bind; [by apply returned_value, guards_report| |done].
    intros _ _. by apply guards_ret.
Qed.


End Exports.

(** ** The claims on assembly and export *)

Section ScheduleClaim.

Context `{FO : FloatOps} (E : Env).


End ScheduleClaim.


(** The hypothesis of the last part of C3 can hold: on a host where
    saving an image always fails, every build returns null. *)
Lemma no_build_when_images_cannot_be_saved :
  all_builds_null (host (fails_at Image_save) []) small_config four_slides
    "minimalist" "en" (1 # 1)%Q.
Proof.
  intros i slide logo w _. unfold build, _create_slide_video_clip, try_except.
  unfold bind at 1.
  destruct (_create_enhanced_slide _ _ _ _ _ _ _ w) as [[img|e] w1]; [|done].
  reflexivity.
Qed.


(** C6 at a failing input: one slide, and [write_videofile] raises. The
    run returns null, the image and the narration are removed and the
    registry is emptied, but the file created for the video, number 3, is
    still on the disk. *)
Lemma export_failure_leaves_the_output_file :
  let r := hello_video (host (fails_at Write_videofile) []) in
  r.1 = Ok None /\
  last (view export_of r.2) = Some (WriteVideofile 3 small_config) /\
  temp_files r.2 = [] /\
  map fst (map_to_list (disk r.2)) = [3%nat].
Proof.
  cbv zeta.
  split; [vm_compute; reflexivity|].
  split; [vm_compute; reflexivity|].
  split; vm_compute; reflexivity.
Qed.

(** ** More on the wrapping of text *)

Section WrappingBounds.

Context `{FO : FloatOps} (E : Env).

Lemma join_singleton (sep w : str) : join sep [w] = w.
Proof. reflexivity. Qed.

Lemma wrap_words_fit font max_width (all : list str) words :
  forall lines current_line,
  words ⊆ all ->
  Forall (fun line => fits E font max_width line \/ line ∈ all) lines ->
  (current_line = [] \/
   fits E font max_width (join SPACE current_line) \/
   join SPACE current_line ∈ all) ->
  let '(lines', current') := wrap_words E font max_width words lines current_line in
  Forall (fun line => fits E font max_width line \/ line ∈ all) lines' /\
  (current' = [] \/
   fits E font max_width (join SPACE current') \/
   join SPACE current' ∈ all).
Proof.
  induction words as [|word rest IH]; intros lines cur Hsub Hlines Hcur; simpl.
  - done.
  - assert (Hword : word ∈ all) by (apply Hsub; left).
    assert (Hrest : rest ⊆ all) by (intros x Hx; apply Hsub; by right).
    destruct (_ <=? _) eqn:Hfit.
    + apply IH; [done|done|]. right; left.
      unfold fits. by apply Z.leb_le.
    + destruct cur as [|c0 cur]; simpl.
      * apply IH; [done| |by left].
        apply Forall_app; split; [done|]. apply Forall_singleton. by right.
      * apply IH; [done| |].
        -- apply Forall_app; split; [done|]. apply Forall_singleton.
           destruct Hcur as [?|Hcur]; [done|]. exact Hcur.
        -- right; right. by rewrite join_singleton.
Qed.

(** X7. Every line that [_wrap_text] returns fits in [max_width], as the
    font measures it, unless the line is one word of the text. *)
Theorem wrapped_lines_fit_or_are_one_word (text : str) (font : Font)
    (max_width : Z) :
  Forall (fun line =>
            bbox_width (getbbox E font line) <= max_width \/
            line ∈ split text)
         (_wrap_text E text font max_width).
Proof.
  unfold _wrap_text.
  pose proof (wrap_words_fit font max_width (split text) (split text) [] []) as H.
  destruct (wrap_words _ _ _ _ _ _) as [lines cur].
  destruct H as [Hlines Hcur]; [done|constructor|by left|].
  destruct cur as [|c0 cur]; unfold truthy; [exact Hlines|].
  apply Forall_app; split; [exact Hlines|]. apply Forall_singleton.
  destruct Hcur as [?|Hcur]; [done|]. exact Hcur.
Qed.

Lemma join_nonempty (ws : list str) :
  Forall is_word ws -> ws <> [] -> join SPACE ws <> [].
Proof.
  intros Hws Hne. destruct ws as [|w ws]; [done|].
  apply Forall_cons in Hws as [[Hw _] _].
  destruct w as [|c w]; [done|]. by destruct ws.
Qed.

Lemma wrap_words_count font max_width words :
  forall lines current_line,
  Forall is_word words -> Forall is_word current_line ->
  Forall (fun line => line <> []) lines ->
  let '(lines', current') := wrap_words E font max_width words lines current_line in
  Forall (fun line => line <> []) lines' /\ Forall is_word current' /\
  (length lines' + (if truthy current' then 1 else 0)
   <= length lines + (if truthy current_line then 1 else 0) + length words)%nat.
Proof.
  induction words as [|word rest IH]; intros lines cur Hws Hcur Hlines; simpl.
  - split; [done|]. split; [done|]. destruct (truthy cur); unfold str in *; lia.
  - apply Forall_cons in Hws as [Hw Hrest].
    destruct (_ <=? _).
    + specialize (IH lines (cur ++ [word]) Hrest).
      destruct (wrap_words _ _ _ _ _ _) as [lines' cur'].
      destruct IH as (IH1 & IH2 & IH3); [|done|].
      { apply Forall_app; split; [done|by apply Forall_singleton]. }
      split; [done|]. split; [done|].
      assert (truthy (cur ++ [word]) = true) as Ht by (by destruct cur).
      rewrite Ht in IH3. destruct (truthy cur); unfold str in *; lia.
    + destruct cur as [|c0 cur]; simpl.
      * specialize (IH (lines ++ [word]) [] Hrest).
        destruct (wrap_words _ _ _ _ _ _) as [lines' cur'].
        destruct IH as (IH1 & IH2 & IH3); [constructor| |].
        { apply Forall_app; split; [done|]. apply Forall_singleton.
          by destruct Hw. }
        split; [done|]. split; [done|].
        rewrite length_app in IH3. simpl in IH3. unfold str in *. lia.
      * specialize (IH (lines ++ [join SPACE (c0 :: cur)]) [word] Hrest).
        destruct (wrap_words _ _ _ _ _ _) as [lines' cur'].
        destruct IH as (IH1 & IH2 & IH3); [by apply Forall_singleton| |].
        { apply Forall_app; split; [done|]. apply Forall_singleton.
          by apply join_nonempty. }
        split; [done|]. split; [done|].
        rewrite length_app in IH3. simpl in IH3. unfold str in *. lia.
Qed.

(** X8. [_wrap_text] returns no empty line and at most one line for each
    word of the text; a text without a word gives no line at all. *)
Theorem wrapped_lines_are_not_empty (text : str) (font : Font) (max_width : Z) :
  Forall (fun line => line <> []) (_wrap_text E text font max_width) /\
  (length (_wrap_text E text font max_width) <= length (split text))%nat.
Proof.
  unfold _wrap_text.
  pose proof (wrap_words_count font max_width (split text) [] []
                (split_words text) (List.Forall_nil _) (List.Forall_nil _)) as H.
  destruct (wrap_words _ _ _ _ _ _) as [lines cur].
  destruct H as (Hlines & Hcur & Hlen). simpl in Hlen.
  destruct cur as [|c0 cur]; unfold truthy in *.
  - split; [done|unfold str in *; lia].
  - split.
    + apply Forall_app; split; [done|]. apply Forall_singleton.
      by apply join_nonempty.
    + rewrite length_app. simpl. unfold str in *. lia.
Qed.

End WrappingBounds.

(** ** The script parser *)

Section Strings.

Lemma is_prefix_app (p rest : str) : is_prefix p (p ++ rest) = true.
Proof. induction p as [|a p IH]; simpl; [done|]. by rewrite N.eqb_refl, IH. Qed.

Lemma is_prefix_inv (p s : str) :
  is_prefix p s = true -> s = p ++ drop (length p) s.
Proof.
  revert s. induction p as [|a p IH]; intros [|b s]; simpl; try done.
  intros [Hab Hp]%andb_true_iff. apply N.eqb_eq in Hab as ->.
  f_equal. by apply IH.
Qed.

Lemma is_prefix_elem (p s : str) (x : char) :
  is_prefix p s = true -> x ∈ p -> x ∈ s.
Proof.
  intros Hp Hx. rewrite (is_prefix_inv p s Hp). apply elem_of_app. by left.
Qed.

(** A string in which some code point of [old] does not occur is left as
    it is by [replace]. *)
Lemma replace_absent (old new s : str) (x : char) :
  x ∈ old -> x ∉ s -> replace old new s = s.
Proof.
  intros Hx. unfold replace. induction s as [|c s IH]; intros Hs; [done|].
  simpl. destruct (is_prefix old (c :: s)) eqn:Hp.
  - destruct Hs. by eapply is_prefix_elem.
  - f_equal. apply IH. intros ?. apply Hs. by right.
Qed.

Lemma replace_go_elem (old new : str) (x : char) : forall s skip,
  x ∈ replace_go old new skip s -> x ∈ s \/ x ∈ new.
Proof.
  induction s as [|c s IH]; intros skip; simpl; [by left|].
  destruct skip as [|n].
  - destruct (is_prefix old (c :: s)).
    + intros [H|H]%elem_of_app; [by right|].
      apply IH in H as [H|H]; [left; by right|by right].
    + intros [->|H]%elem_of_cons; [left; by left|].
      apply IH in H as [H|H]; [left; by right|by right].
  - intros H. apply IH in H as [H|H]; [left; by right|by right].
Qed.

Lemma replace_elem (old new s : str) (x : char) :
  x ∈ replace old new s -> x ∈ s \/ x ∈ new.
Proof. apply replace_go_elem. Qed.

(** No code point [c] is left once [c] is replaced. *)
Lemma replace_char_gone (c : char) (new s : str) :
  c ∉ new -> c ∉ replace [c] new s.
Proof.
  intros Hnew. unfold replace. induction s as [|x s IH]; simpl.
  - by intros ?%elem_of_nil.
  - destruct (x =? c)%N eqn:Hx.
    + rewrite N.eqb_sym, Hx. simpl.
      intros [H|H]%elem_of_app; [done|]. by apply IH.
    + rewrite N.eqb_sym, Hx. simpl.
      intros [->|H]%elem_of_cons; [by rewrite N.eqb_refl in Hx|by apply IH].
Qed.

Lemma lstrip_suffix (s : str) :
  exists p, s = p ++ lstrip s /\ Forall (fun c => is_space c = true) p.
Proof.
  induction s as [|c s (p & IH & Hp)]; simpl; [by exists []|].
  destruct (is_space c) eqn:Hc.
  - exists (c :: p). split; [simpl; by rewrite <- IH|by constructor].
  - by exists [].
Qed.

Lemma lstrip_head (s : str) (x : char) (r : str) :
  lstrip s = x :: r -> is_space x = false.
Proof.
  induction s as [|c s IH]; simpl; [done|].
  destruct (is_space c) eqn:Hc; [done|]. by intros [= <- _].
Qed.

Lemma lstrip_fixed (s : str) :
  match s with [] => True | x :: _ => is_space x = false end -> lstrip s = s.
Proof. destruct s as [|x s]; simpl; [done|]. by intros ->. Qed.

Lemma lstrip_idem (s : str) : lstrip (lstrip s) = lstrip s.
Proof.
  apply lstrip_fixed. destruct (lstrip s) eqn:H; [done|].
  by eapply lstrip_head.
Qed.

Lemma elem_of_lstrip (s : str) (x : char) : x ∈ lstrip s -> x ∈ s.
Proof.
  destruct (lstrip_suffix s) as (p & Hs & _). intros H.
  rewrite Hs. apply elem_of_app. by right.
Qed.

Lemma elem_of_rev {A} (l : list A) (x : A) : x ∈ rev l <-> x ∈ l.
Proof. rewrite rev_alt. apply elem_of_reverse. Qed.

Lemma elem_of_strip (s : str) (x : char) : x ∈ strip s -> x ∈ s.
Proof.
  unfold strip. intros H. apply (proj1 (elem_of_rev _ _)) in H.
  apply elem_of_lstrip in H. apply (proj1 (elem_of_rev _ _)) in H.
  by apply elem_of_lstrip.
Qed.

(** The ends of a stripped string are not white space. *)
Lemma strip_ends (s : str) :
  match strip s with [] => True | x :: _ => is_space x = false end /\
  match rev (strip s) with [] => True | x :: _ => is_space x = false end.
Proof.
  unfold strip. rewrite rev_involutive.
  set (a := lstrip s). set (b := lstrip (rev a)).
  assert (Hb : match b with [] => True | x :: _ => is_space x = false end).
  { subst b. destruct (lstrip (rev a)) eqn:H; [done|]. by eapply lstrip_head. }
  split; [|done].
  destruct (lstrip_suffix (rev a)) as (p & Hp & _). fold b in Hp.
  destruct (rev b) as [|x rb] eqn:Hrb; [done|].
  assert (Ha : rev (rev a) = rev b ++ rev p) by (by rewrite Hp, rev_app_distr).
  rewrite rev_involutive, Hrb in Ha. simpl in Ha.
  subst a. by eapply lstrip_head.
Qed.

Lemma strip_fixed (s : str) :
  match s with [] => True | x :: _ => is_space x = false end ->
  match rev s with [] => True | x :: _ => is_space x = false end ->
  strip s = s.
Proof.
  intros H1 H2. unfold strip.
  rewrite (lstrip_fixed s H1), (lstrip_fixed (rev s) H2).
  apply rev_involutive.
Qed.

Lemma strip_idem (s : str) : strip (strip s) = strip s.
Proof. destruct (strip_ends s). by apply strip_fixed. Qed.

(** What [strip] leaves as it is has no white space at its ends. *)
Lemma stripped_ends (s : str) :
  strip s = s ->
  match s with [] => True | x :: _ => is_space x = false end /\
  match rev s with [] => True | x :: _ => is_space x = false end.
Proof. intros H. rewrite <- H. apply strip_ends. Qed.

Lemma strip_trailing_newline (s : str) :
  s <> [] -> strip s = s -> strip (s ++ NL) = s.
Proof.
  intros Hne Hs. destruct (stripped_ends s Hs) as [H1 H2].
  unfold strip. rewrite (lstrip_fixed (s ++ NL)) by (destruct s; [done|exact H1]).
  unfold NL. rewrite rev_app_distr. simpl.
  rewrite (lstrip_fixed (rev s) H2). apply rev_involutive.
Qed.

End Strings.

Section Regex.

Variable U : Unicode.

Lemma run_Cat {R : Type} (r1 r2 : Re) (s : str) gs
    (k : str -> gmap nat str -> option R) :
  run U (Cat r1 r2) s gs k = run U r1 s gs (fun s' gs' => run U r2 s' gs' k).
Proof. reflexivity. Qed.

Lemma run_Many {R : Type} greedy least c (r : Re) (s : str) gs
    (k : str -> gmap nat str -> option R) :
  run U (Cat (Many greedy least c) r) s gs k
  = many U greedy c least s (fun s' => run U r s' gs k).
Proof. reflexivity. Qed.

Lemma run_Group_Many {R : Type} n greedy least c (r : Re) (s : str) gs
    (k : str -> gmap nat str -> option R) :
  run U (Cat (Group n (Many greedy least c)) r) s gs k
  = many U greedy c least s
      (fun s' => run U r s' (<[n := take (length s - length s') s]> gs) k).
Proof. reflexivity. Qed.

Lemma run_One {R : Type} c (r : Re) (x : char) (s : str) gs
    (k : str -> gmap nat str -> option R) :
  run U (Cat (One c) r) (x :: s) gs k
  = if accepts U c x then run U r s gs k else None.
Proof. reflexivity. Qed.

Lemma run_chars {R : Type} (p s : str) gs (k : str -> gmap nat str -> option R) :
  run U (foldr (fun c r => Cat (One (Exactly c)) r) Eps p) s gs k
  = if is_prefix p s then k (drop (length p) s) gs else None.
Proof.
  revert s. induction p as [|a p IH]; intros s; simpl; [done|].
  destruct s as [|x s]; [done|]. simpl.
  rewrite (N.eqb_sym x a). destruct (a =? x)%N; [|done]. apply IH.
Qed.

Lemma run_Str {R : Type} (a : string) (r : Re) (s : str) gs
    (k : str -> gmap nat str -> option R) :
  run U (Cat (Str a) r) s gs k
  = if is_prefix (lit a) s then run U r (drop (length (lit a)) s) gs k else None.
Proof. unfold Str. simpl. apply run_chars. Qed.

Lemma run_Str_app {R : Type} (a : string) (r : Re) (s : str) gs
    (k : str -> gmap nat str -> option R) :
  run U (Cat (Str a) r) (lit a ++ s) gs k = run U r s gs k.
Proof. by rewrite run_Str, is_prefix_app, drop_app_length. Qed.

(** A greedy repetition takes the whole run when what follows matches. *)
Lemma many_greedy_all {R : Type} (c : CharClass) (p rest : str)
    (k : str -> option R) (r : R) : forall least,
  Forall (fun x => accepts U c x = true) p ->
  (least <= length p)%nat ->
  match rest with [] => True | x :: _ => accepts U c x = false end ->
  k rest = Some r ->
  many U true c least (p ++ rest) k = Some r.
Proof.
  induction p as [|a p IH]; intros least Hp Hleast Hrest Hk; simpl in *.
  - assert (least = 0%nat) as -> by lia.
    destruct rest as [|x rest]; [done|]. simpl. by rewrite Hrest.
  - apply Forall_cons in Hp as [Ha Hp]. rewrite Ha.
    rewrite (IH (pred least)); [done|done|lia|done|done].
Qed.

(** A lazy repetition passes over the code points at which what follows
    cannot match. *)
Lemma many_lazy_skip {R : Type} (c : CharClass) (P : char -> Prop) (p rest : str)
    (k : str -> option R) :
  (forall x tail, P x -> k (x :: tail) = None) ->
  Forall (fun x => accepts U c x = true) p ->
  Forall P p ->
  many U false c 0 (p ++ rest) k = many U false c 0 rest k.
Proof.
  intros Hk. induction p as [|a p IH]; intros Hc Hp; simpl; [done|].
  apply Forall_cons in Hc as [Ha Hc]. apply Forall_cons in Hp as [HPa Hp].
  rewrite Ha, (Hk a (p ++ rest) HPa). by apply IH.
Qed.

(** It stops as soon as what follows matches. *)
Lemma many_lazy_hit {R : Type} (c : CharClass) (s : str) (k : str -> option R) (r : R) :
  k s = Some r -> many U false c 0 s k = Some r.
Proof.
  intros Hk. destruct s as [|x s]; simpl; [done|].
  rewrite Hk. by destruct (accepts U c x).
Qed.

Lemma many_lazy_step {R : Type} (c : CharClass) (x : char) (s : str)
    (k : str -> option R) :
  accepts U c x = true -> k (x :: s) = None ->
  many U false c 0 (x :: s) k = many U false c 0 s k.
Proof. intros Hc Hk. simpl. by rewrite Hc, Hk. Qed.

Lemma findall_skip (r : Re) (p rest : str) :
  rest <> [] ->
  findall_go U r (length p) (p ++ rest) = findall_go U r 0 rest.
Proof.
  intros Hrest. induction p as [|a p IH]; simpl; [done|].
  exact IH.
Qed.

Lemma findall_skip_all (r : Re) (p : str) :
  match_at U r [] = None ->
  findall_go U r (length p) p = [].
Proof.
  intros H. induction p as [|a p IH]; simpl; [by rewrite H|done].
Qed.

End Regex.

Section Parser.

Variable U : Unicode.


Lemma parse_loop (matches : list (gmap nat str)) : forall slides,
  fold_left
    (fun slides gs =>
       let title := strip (group gs 1) in
       let content :=
         strip (replace (lit "narrator:") []
                 (replace (lit "Narrator:") []
                   (replace NL SPACE (strip (group gs 2))))) in
       if truthy title && truthy content
       then slides ++ [mk_slide title content]
       else slides)
    matches slides
  = slides ++ omap slide_of matches.
Proof.
  induction matches as [|gs matches IH]; intros slides; simpl.
  - by rewrite app_nil_r.
  - rewrite IH. unfold slide_of at 2.
    destruct (truthy _ && truthy _); simpl; [by rewrite <- app_assoc|done].
Qed.

Lemma parse_omap (script : str) :
  parse_script_into_slides U script
  = omap slide_of (findall U slide_pattern script).
Proof. unfold parse_script_into_slides. by rewrite parse_loop. Qed.

Lemma truthy_nonempty {A} (l : list A) : truthy l = true <-> l <> [].
Proof. by destruct l. Qed.

Lemma slide_of_presentable gs slide :
  slide_of gs = Some slide -> presentable slide.
Proof.
  unfold slide_of.
  set (title := strip (group gs 1)).
  set (body := replace _ _ (replace _ _ (replace _ _ _))).
  destruct (truthy title && truthy (strip body)) eqn:H; [|done].
  apply andb_true_iff in H as [Ht Hc]. intros [= <-].
  exists title, (strip body). split; [done|].
  split; [by apply truthy_nonempty|]. split; [apply strip_idem|].
  split; [by apply truthy_nonempty|]. split; [apply strip_idem|].
  intros H%elem_of_strip. subst body.
  apply replace_elem in H as [H|H]; [|by apply elem_of_nil in H].
  apply replace_elem in H as [H|H]; [|by apply elem_of_nil in H].
  revert H. apply (replace_char_gone 10%N SPACE).
  change SPACE with [32%N]. by intros [=]%list_elem_of_singleton.
Qed.

(** X1. Every slide that [parse_script_into_slides] returns has a title and
    a narration, neither of them empty or with white space at its ends,
    and the narration is one line. *)
Theorem parsed_slides_are_presentable (script : str) :
  Forall presentable (parse_script_into_slides U script).
Proof.
  rewrite parse_omap. apply Forall_forall. intros slide H.
  apply list_elem_of_omap in H as (gs & _ & H).
  by eapply slide_of_presentable.
Qed.

Lemma no_match_without_marker (s : str) :
  is_prefix (lit "[SLIDE ") s = false -> match_at U slide_pattern s = None.
Proof.
  intros H. unfold match_at, slide_pattern, cat. cbn [foldr].
  by rewrite run_Str, H.
Qed.

Lemma findall_without_marker (s : str) :
  occurs (lit "[SLIDE ") s = false -> findall_go U slide_pattern 0 s = [].
Proof.
  induction s as [|x s IH]; intros H.
  - cbn [findall_go]. by rewrite no_match_without_marker.
  - cbn [occurs] in H. apply orb_false_iff in H as [H1 H2].
    cbn [findall_go]. rewrite (no_match_without_marker _ H1). by apply IH.
Qed.

(** X3. A script in which the marker [[SLIDE ] does not occur has no
    slide. *)
Theorem script_without_marker_has_no_slide (script : str) :
  occurs (lit "[SLIDE ") script = false ->
  parse_script_into_slides U script = [].
Proof.
  intros H. rewrite parse_omap. unfold findall.
  by rewrite findall_without_marker.
Qed.

End Parser.

Section RoundTrip.

Variable U : Unicode.
Hypothesis colon_is_no_digit : isdecimal U 58%N = false.

Lemma has_false (c : char) (s : str) : has c s = false <-> c ∉ s.
Proof.
  unfold has. induction s as [|x s IH]; simpl.
  - split; [intros _ ?%elem_of_nil; done|done].
  - rewrite orb_false_iff, IH, not_elem_of_cons.
    split; intros [H1 H2]; (split; [|done]).
    + intros ->. by rewrite N.eqb_refl in H1.
    + by apply N.eqb_neq.
Qed.

Lemma forallb_Forall_true {A} (f : A -> bool) (l : list A) :
  forallb f l = true -> Forall (fun x => f x = true) l.
Proof.
  induction l as [|x l IH]; simpl; [constructor|].
  intros [H1 H2]%andb_true_iff. constructor; [done|by apply IH].
Qed.

Lemma length_before {A} (x a : A) (inner rest : list A) :
  (length (x :: inner ++ a :: rest) - length rest)%nat
  = S (length (inner ++ [a])).
Proof. cbn [length]. rewrite !length_app. cbn [length]. lia. Qed.

Lemma take_front {A} (p rest : list A) :
  take (length (p ++ rest) - length rest) (p ++ rest) = p.
Proof.
  rewrite length_app.
  replace (length p + length rest - length rest)%nat with (length p) by lia.
  by rewrite take_app_length.
Qed.


Lemma lookahead_fails {R : Type} (x : char) (tail : str) gs
    (k : str -> gmap nat str -> option R) :
  x <> 10%N -> run U lookahead (x :: tail) gs k = None.
Proof.
  intros Hx. unfold lookahead, next_slide_or_end. cbn [run accepts].
  apply N.eqb_neq in Hx. by rewrite Hx.
Qed.

Lemma lookahead_at_end {R : Type} gs (k : str -> gmap nat str -> option R) :
  run U lookahead [] gs k = k [] gs.
Proof. reflexivity. Qed.

Lemma lookahead_at_empty_line {R : Type} (tail : str) gs
    (k : str -> gmap nat str -> option R) :
  run U lookahead (10%N :: 10%N :: tail) gs k = None.
Proof. reflexivity. Qed.

Lemma lookahead_at_marker {R : Type} (tail : str) gs
    (k : str -> gmap nat str -> option R) :
  run U lookahead (10%N :: lit "[SLIDE" ++ tail) gs k
  = k (10%N :: lit "[SLIDE" ++ tail) gs.
Proof. reflexivity. Qed.


Lemma second_group {R : Type} (content tail rest nl : str) gs
    (k : str -> gmap nat str -> option R) (r : R) :
  10%N ∉ content ->
  follows tail rest nl ->
  k rest (<[2%nat := content ++ nl]> gs) = Some r ->
  run U (Cat (Group 2 (Many false 0 AnyChar)) lookahead) (content ++ tail) gs k
  = Some r.
Proof.
  intros Hc Htail Hk. rewrite run_Group_Many.
  rewrite (many_lazy_skip U AnyChar (fun x => x <> 10%N)).
  - destruct Htail as [(-> & -> & ->)|(more & -> & -> & ->)].
    + apply many_lazy_hit. rewrite lookahead_at_end.
      rewrite app_nil_r in *. rewrite Nat.sub_0_r, firstn_all. exact Hk.
    + rewrite many_lazy_step; [|done|done].
      apply many_lazy_hit.
      change (run U lookahead (10%N :: lit "[SLIDE" ++ more)
                (<[2%nat := take (length (content ++ 10%N :: 10%N :: lit "[SLIDE" ++ more)
                                  - length (10%N :: lit "[SLIDE" ++ more))
                                 (content ++ 10%N :: 10%N :: lit "[SLIDE" ++ more)]> gs) k
              = Some r).
      rewrite lookahead_at_marker.
      replace (content ++ 10%N :: 10%N :: lit "[SLIDE" ++ more)
        with ((content ++ NL) ++ 10%N :: lit "[SLIDE" ++ more)
        by (by rewrite <- app_assoc).
      rewrite take_front. exact Hk.
  - intros x tl Hx. by apply lookahead_fails.
  - by apply Forall_forall.
  - apply Forall_forall. intros x Hx ->. done.
Qed.

Lemma block_match {R : Type} (num title content tail rest nl : str)
    (k : str -> gmap nat str -> option R) (r : R) :
  well_formed_block U (num, title, content) = true ->
  follows tail rest nl ->
  k rest (<[2%nat := content ++ nl]> (<[1%nat := title]> ∅)) = Some r ->
  run U slide_pattern (slide_block (num, title, content) ++ tail) ∅ k = Some r.
Proof.
  intros Hwf Htail Hk. unfold well_formed_block in Hwf.
  apply andb_true_iff in Hwf as [Hwf Hc].
  apply andb_true_iff in Hwf as [Hn Ht].
  apply andb_true_iff in Hn as [Hn1 Hn2].
  apply andb_true_iff in Ht as [Ht Ht3].
  apply andb_true_iff in Ht as [Ht1 Ht2].
  apply andb_true_iff in Hc as [Hc Hc4].
  apply andb_true_iff in Hc as [Hc Hc3].
  apply andb_true_iff in Hc as [Hc1 Hc2].
  apply bool_decide_eq_true in Ht2, Hc2.
  apply negb_true_iff, has_false in Ht3, Hc3, Hc4.
  apply truthy_nonempty in Hn1, Ht1, Hc1.
  unfold slide_block, slide_pattern, cat. cbn [foldr].
  rewrite <- !app_assoc. rewrite run_Str_app.
  (* the number *)
  rewrite run_Many.
  change (lit ": " ++ title ++ lit "]" ++ NL ++ content ++ tail)
    with (lit ":" ++ 32%N :: title ++ lit "]" ++ NL ++ content ++ tail).
  apply many_greedy_all.
  { by apply forallb_Forall_true. }
  { destruct num; [done|simpl; lia]. }
  { exact colon_is_no_digit. }
  rewrite run_Str_app.
  (* the white space *)
  rewrite run_Many.
  apply (many_greedy_all U WhiteSpace [32%N]).
  { by repeat constructor. }
  { simpl; lia. }
  { destruct (stripped_ends title Ht2) as [H1 _]. by destruct title. }
  (* the title *)
  rewrite run_Group_Many.
  rewrite (many_lazy_skip U AnyChar (fun x => x <> 93%N)).
  2:{ intros x tl Hx. rewrite run_Str.
      change (is_prefix (lit "]") (x :: tl)) with ((93 =? x)%N && true).
      apply not_eq_sym, N.eqb_neq in Hx. by rewrite Hx. }
  2:{ by apply Forall_forall. }
  2:{ apply Forall_forall. intros x Hx ->. done. }
  apply many_lazy_hit. rewrite take_front.
  rewrite run_Str_app.
  change (NL ++ content ++ tail) with (10%N :: content ++ tail).
  rewrite run_One. cbn [accepts]. rewrite N.eqb_refl.
  fold lookahead. by eapply second_group.
Qed.

Lemma findall_at_match (r : Re) (x : char) (s : str) (n : nat) gs :
  match_at U r (x :: s) = Some (S n, gs) ->
  findall_go U r 0 (x :: s) = gs :: findall_go U r n s.
Proof.
  intros H. cbn [findall_go]. rewrite H.
  by replace (S n - 1)%nat with n by lia.
Qed.

Lemma findall_at_miss (r : Re) (x : char) (s : str) :
  match_at U r (x :: s) = None ->
  findall_go U r 0 (x :: s) = findall_go U r 0 s.
Proof. intros H. cbn [findall_go]. by rewrite H. Qed.

Lemma script_of_cons b b2 bs :
  script_of (b :: b2 :: bs)
  = slide_block b ++ 10%N :: 10%N :: script_of (b2 :: bs).
Proof. reflexivity. Qed.

Lemma script_of_marker b bs :
  exists more, script_of (b :: bs) = lit "[SLIDE" ++ more.
Proof.
  destruct b as [[num title] content].
  destruct bs as [|b2 bs].
  - by eexists.
  - rewrite script_of_cons. unfold slide_block.
    change (lit "[SLIDE ") with (lit "[SLIDE" ++ [32%N]).
    rewrite <- !app_assoc. by eexists.
Qed.

Lemma slide_of_block_groups (num title content nl : str) :
  well_formed_block U (num, title, content) = true ->
  nl = [] \/ nl = NL ->
  slide_of (<[2%nat := content ++ nl]> (<[1%nat := title]> ∅))
  = Some (mk_slide title content).
Proof.
  intros Hwf Hnl. unfold well_formed_block in Hwf.
  apply andb_true_iff in Hwf as [Hwf Hc].
  apply andb_true_iff in Hwf as [_ Ht].
  apply andb_true_iff in Ht as [Ht _].
  apply andb_true_iff in Ht as [Ht1 Ht2].
  apply andb_true_iff in Hc as [Hc Hc4].
  apply andb_true_iff in Hc as [Hc Hc3].
  apply andb_true_iff in Hc as [Hc1 Hc2].
  apply bool_decide_eq_true in Ht2, Hc2.
  apply negb_true_iff, has_false in Hc3, Hc4.
  unfold slide_of, group.
  rewrite lookup_insert_ne by done. rewrite !lookup_insert_eq. cbn [default from_option id].
  assert (strip (content ++ nl) = content) as ->.
  { destruct Hnl as [->| ->].
    - by rewrite app_nil_r.
    - apply strip_trailing_newline; [by apply truthy_nonempty|done]. }
  rewrite (replace_absent NL SPACE content 10%N); [|by left|done].
  rewrite (replace_absent (lit "Narrator:") [] content 58%N); [| |done].
  2:{ change (lit "Narrator:") with (lit "Narrator" ++ [58%N]).
      apply elem_of_app. right. by left. }
  rewrite (replace_absent (lit "narrator:") [] content 58%N); [| |done].
  2:{ change (lit "narrator:") with (lit "narrator" ++ [58%N]).
      apply elem_of_app. right. by left. }
  by rewrite Ht2, Hc2, Ht1, Hc1.
Qed.

Lemma findall_formatted (blocks : list (str * str * str)) :
  forallb (well_formed_block U) blocks = true ->
  omap slide_of (findall_go U slide_pattern 0 (script_of blocks))
  = map slide_of_block blocks.
Proof.
  induction blocks as [|b bs IH]; intros Hwf.
  - reflexivity.
  - cbn [forallb] in Hwf. apply andb_true_iff in Hwf as [Hb Hbs].
    destruct b as [[num title] content].
    set (inner := lit "SLIDE " ++ num ++ lit ": " ++ title ++ lit "]"
                    ++ NL ++ content).
    assert (Hblock : slide_block (num, title, content) = 91%N :: inner)
      by reflexivity.
    destruct bs as [|b2 bs].
    + change (script_of [(num, title, content)]) with (91%N :: inner).
      rewrite (findall_at_match _ _ _ (length inner)
                 (<[2%nat := content]> (<[1%nat := title]> ∅))).
      2:{ unfold match_at.
          pose proof (block_match num title content [] [] []
                        (fun s' gs => Some (length (91%N :: inner) - length s', gs)%nat)
                        (S (length inner), <[2%nat := content ++ []]> (<[1%nat := title]> ∅))
                        Hb) as H.
          rewrite !app_nil_r in H. apply H; [by left|].
          cbn [length]. by rewrite Nat.sub_0_r. }
      rewrite findall_skip_all by (by apply no_match_without_marker).
      cbn [omap list_omap map slide_of_block].
      pose proof (slide_of_block_groups num title content [] Hb
                    (or_introl eq_refl)) as Hs.
      rewrite app_nil_r in Hs.
      match goal with
      | |- context [slide_of ?g] =>
          replace (slide_of g) with (Some (mk_slide title content))
            by (symmetry; exact Hs)
      end.
      done.
    + rewrite script_of_cons.
      destruct (script_of_marker b2 bs) as (more & Hmore).
      specialize (IH Hbs). rewrite Hmore in *.
      rewrite Hblock.
      change ((91%N :: inner) ++ 10%N :: 10%N :: lit "[SLIDE" ++ more)
        with (91%N :: inner ++ 10%N :: 10%N :: lit "[SLIDE" ++ more).
      rewrite (findall_at_match _ _ _ (length (inner ++ [10%N]))
                 (<[2%nat := content ++ NL]> (<[1%nat := title]> ∅))).
      2:{ unfold match_at.
          apply (block_match num title content
                   (10%N :: 10%N :: lit "[SLIDE" ++ more)
                   (10%N :: lit "[SLIDE" ++ more) NL); [done|right; by eexists|].
          f_equal. f_equal. apply length_before. }
      replace (inner ++ 10%N :: 10%N :: lit "[SLIDE" ++ more)
        with ((inner ++ [10%N]) ++ 10%N :: lit "[SLIDE" ++ more)
        by (by rewrite <- app_assoc).
      rewrite findall_skip by done.
      rewrite findall_at_miss by (by apply no_match_without_marker).
      cbn [omap list_omap].
      pose proof (slide_of_block_groups num title content NL Hb
                    (or_intror eq_refl)) as Hs.
      match goal with
      | |- context [slide_of ?g] =>
          replace (slide_of g) with (Some (mk_slide title content))
            by (symmetry; exact Hs)
      end.
      cbn [map slide_of_block]. f_equal. exact IH.
Qed.

(** X2. Reading back a script in the layout the prompt asks for: the
    parser returns its slides, with their titles and narrations, in
    order. *)
Theorem parse_formatted_script (blocks : list (str * str * str)) :
  forallb (well_formed_block U) blocks = true ->
  parse_script_into_slides U (script_of blocks) = map slide_of_block blocks.
Proof.
  intros Hwf. rewrite parse_omap. unfold findall.
  by apply findall_formatted.
Qed.

End RoundTrip.

(** ** The WhatsApp link *)

Section Link.

Variable U : Unicode.

Lemma utf8_is_byte (c : char) (bs : list N) :
  utf8 c = Some bs -> Forall (fun b => (b < 256)%N) bs.
Proof.
  unfold utf8.
  destruct (N.ltb_spec c 128); [intros [= <-]; repeat constructor; lia|].
  destruct (N.ltb_spec c 2048).
  { intros [= <-].
    pose proof (N.Div0.div_lt_upper_bound c 64 32).
    pose proof (N.mod_upper_bound c 64).
    repeat constructor; lia. }
  destruct (_ && _); [done|].
  destruct (N.ltb_spec c 65536).
  { intros [= <-].
    pose proof (N.Div0.div_lt_upper_bound c 4096 16).
    pose proof (N.mod_upper_bound (c / 64) 64).
    pose proof (N.mod_upper_bound c 64).
    repeat constructor; lia. }
  destruct (N.ltb_spec c 1114112); [|done].
  intros [= <-].
  pose proof (N.Div0.div_lt_upper_bound c 262144 5).
  pose proof (N.mod_upper_bound (c / 4096) 64).
  pose proof (N.mod_upper_bound (c / 64) 64).
  pose proof (N.mod_upper_bound c 64).
  repeat constructor; lia.
Qed.

Lemma encode_is_bytes (s : str) (bs : list N) :
  encode s = Some bs -> Forall (fun b => (b < 256)%N) bs.
Proof.
  unfold encode. destruct (mapM utf8 s) as [bss|] eqn:H; [|done].
  simpl. intros [= <-]. apply mapM_Some in H.
  apply Forall_concat.
  induction H as [|c bs s bss Hc _ IH]; constructor; [|done].
  by eapply utf8_is_byte.
Qed.

Lemma hex_digit_safe (n : N) : (n < 16)%N -> url_safe (hex_digit n) = true.
Proof.
  intros Hn. unfold hex_digit, url_safe, always_safe.
  destruct (N.ltb_spec n 10).
  - replace ((48 <=? 48 + n) && (48 + n <=? 57))%N with true.
    + by rewrite !orb_true_r.
    + symmetry. apply andb_true_iff. split; apply N.leb_le; lia.
  - replace ((65 <=? 55 + n) && (55 + n <=? 90))%N with true; [done|].
    symmetry. apply andb_true_iff. split; apply N.leb_le; lia.
Qed.

Lemma quote_byte_safe (b : N) :
  (b < 256)%N -> Forall (fun c => url_safe c = true) (quote_byte b).
Proof.
  intros Hb. unfold quote_byte.
  destruct (always_safe b || (b =? 47)%N) eqn:Hs.
  - apply Forall_singleton. unfold url_safe. by rewrite Hs.
  - pose proof (N.Div0.div_lt_upper_bound b 16 16).
    pose proof (N.mod_upper_bound b 16).
    repeat constructor; [apply hex_digit_safe; lia..].
Qed.

Lemma quote_safe (s q : str) :
  quote s = Some q -> Forall (fun c => url_safe c = true) q.
Proof.
  unfold quote. destruct (encode s) as [bs|] eqn:H; [|done].
  simpl. intros [= <-]. apply encode_is_bytes in H.
  apply Forall_concat, Forall_map.
  eapply Forall_impl; [exact H|]. intros b Hb. by apply quote_byte_safe.
Qed.

(** X4. In the link that [generate_whatsapp_web_link] returns, the message
    is the value of the parameter [text], written with letters, digits,
    the marks [_.-~/] and [%] only. *)
Theorem link_text_is_escaped (message : str) (phone_number : option str)
    (link : str) :
  generate_whatsapp_web_link U message phone_number = Some link ->
  exists base q,
    link = base ++ lit "?text=" ++ q /\
    quote message = Some q /\
    forallb url_safe q = true.
Proof.
  unfold generate_whatsapp_web_link.
  destruct (quote message) as [q|] eqn:Hq; [|done]. cbn [mbind option_bind].
  pose proof (quote_safe _ _ Hq) as Hsafe.
  assert (forallb url_safe q = true) as Hb.
  { clear Hq. induction Hsafe as [|c q Hc _ IH]; [done|].
    simpl. by rewrite Hc, IH. }
  destruct (truthy _); intros [= <-].
  - exists (lit "https://wa.me/" ++
            filter (fun c => isdigit U c = true) (default [] phone_number)), q.
    split; [|done]. by rewrite <- app_assoc.
  - by exists (lit "https://web.whatsapp.com/send"), q.
Qed.

End Link.

Section LinkInjective.

Variable U : Unicode.

Lemma concat_codes_inj {A B} (R : A -> list B -> Prop) :
  (forall a e, R a e -> e <> []) ->
  (forall a1 a2 e1 e2 r1 r2,
     R a1 e1 -> R a2 e2 -> e1 ++ r1 = e2 ++ r2 -> a1 = a2 /\ e1 = e2) ->
  forall l1 l2 es1 es2,
    Forall2 R l1 es1 -> Forall2 R l2 es2 ->
    concat es1 = concat es2 -> l1 = l2.
Proof.
  intros Hne Hpre l1 l2 es1 es2 H1. revert l2 es2.
  induction H1 as [|a1 e1 l1 es1 Ha1 _ IH]; intros l2 es2 H2 Heq.
  - destruct H2 as [|a2 e2 l2 es2 Ha2 _]; [done|].
    simpl in Heq. symmetry in Heq. apply app_eq_nil in Heq as [He _].
    by apply Hne in Ha2.
  - destruct H2 as [|a2 e2 l2 es2 Ha2 H2].
    + simpl in Heq. apply app_eq_nil in Heq as [He _]. by apply Hne in Ha1.
    + simpl in Heq.
      destruct (Hpre _ _ _ _ _ _ Ha1 Ha2 Heq) as [-> ->].
      apply app_inv_head in Heq. f_equal. by eapply IH.
Qed.

Lemma hex_digit_inj (n m : N) : hex_digit n = hex_digit m -> n = m.
Proof.
  unfold hex_digit.
  destruct (N.ltb_spec n 10), (N.ltb_spec m 10); lia.
Qed.

Lemma quote_byte_prefix (a b : N) (r1 r2 : str) :
  quote_byte a ++ r1 = quote_byte b ++ r2 -> a = b.
Proof.
  unfold quote_byte.
  destruct (always_safe a || (a =? 47)%N) eqn:Ha,
           (always_safe b || (b =? 47)%N) eqn:Hb; simpl.
  - by intros [= ->].
  - intros [= -> _]. by vm_compute in Ha.
  - intros [= <- _]. by vm_compute in Hb.
  - intros [= H1%hex_digit_inj H2%hex_digit_inj _].
    rewrite (N.Div0.div_mod a 16), (N.Div0.div_mod b 16). by rewrite H1, H2.
Qed.

(** The arithmetic that [utf8] does on a code point. *)
Lemma sextets (c : N) :
  (c = 64 * (c / 64) + c mod 64 /\ c mod 64 < 64 /\
   c / 64 = 64 * (c / 4096) + (c / 64) mod 64 /\ (c / 64) mod 64 < 64 /\
   c / 4096 = 64 * (c / 262144) + (c / 4096) mod 64 /\ (c / 4096) mod 64 < 64)%N.
Proof.
  pose proof (N.Div0.div_div c 64 64) as H1.
  pose proof (N.Div0.div_div c 4096 64) as H2.
  change (64 * 64)%N with 4096%N in H1. change (4096 * 64)%N with 262144%N in H2.
  rewrite <- H2, <- H1.
  repeat split;
    first [apply N.Div0.div_mod | by apply N.mod_upper_bound].
Qed.

Lemma utf8_prefix (c1 c2 : char) (e1 e2 : list N) (r1 r2 : list N) :
  utf8 c1 = Some e1 -> utf8 c2 = Some e2 ->
  e1 ++ r1 = e2 ++ r2 -> c1 = c2 /\ e1 = e2.
Proof.
  intros H1 H2 Heq.
  assert (c1 = c2) as ->; [|split; [done|congruence]].
  revert H1 H2. unfold utf8.
  destruct (sextets c1) as (A1 & A2 & A3 & A4 & A5 & A6).
  destruct (sextets c2) as (B1 & B2 & B3 & B4 & B5 & B6).
  generalize dependent (c1 mod 64)%N. generalize dependent ((c1 / 64) mod 64)%N.
  generalize dependent ((c1 / 4096) mod 64)%N.
  generalize dependent (c2 mod 64)%N. generalize dependent ((c2 / 64) mod 64)%N.
  generalize dependent ((c2 / 4096) mod 64)%N.
  generalize dependent (c1 / 262144)%N. generalize dependent (c1 / 4096)%N.
  generalize dependent (c1 / 64)%N.
  generalize dependent (c2 / 262144)%N. generalize dependent (c2 / 4096)%N.
  generalize dependent (c2 / 64)%N.
  intros.
  destruct (N.ltb_spec c1 128), (N.ltb_spec c2 128);
    [| destruct (N.ltb_spec c2 2048);
       [|destruct (_ && _); [done|];
         destruct (N.ltb_spec c2 65536);
         [|destruct (N.ltb_spec c2 1114112); [|done]]]
     | destruct (N.ltb_spec c1 2048);
       [|destruct (_ && _); [done|];
         destruct (N.ltb_spec c1 65536);
         [|destruct (N.ltb_spec c1 1114112); [|done]]]
     | destruct (N.ltb_spec c1 2048);
       [|destruct (_ && _); [done|];
         destruct (N.ltb_spec c1 65536);
         [|destruct (N.ltb_spec c1 1114112); [|done]]];
       (destruct (N.ltb_spec c2 2048);
        [|destruct (_ && _); [done|];
          destruct (N.ltb_spec c2 65536);
          [|destruct (N.ltb_spec c2 1114112); [|done]]])];
    simplify_eq/=; lia.
Qed.

Lemma utf8_nonempty (c : char) (e : list N) : utf8 c = Some e -> e <> [].
Proof.
  unfold utf8. repeat case_match; try done; by intros [= <-].
Qed.

Lemma encode_inj (s1 s2 : str) (bs : list N) :
  encode s1 = Some bs -> encode s2 = Some bs -> s1 = s2.
Proof.
  unfold encode.
  destruct (mapM utf8 s1) as [es1|] eqn:H1; [|done].
  destruct (mapM utf8 s2) as [es2|] eqn:H2; [|done].
  simpl. intros [= <-] [= Heq].
  apply mapM_Some in H1, H2.
  eapply (concat_codes_inj (fun c e => utf8 c = Some e)); [| |done..].
  - apply utf8_nonempty.
  - intros. by eapply utf8_prefix.
Qed.

Lemma quote_bytes_inj (b1 b2 : list N) :
  concat (map quote_byte b1) = concat (map quote_byte b2) -> b1 = b2.
Proof.
  apply (concat_codes_inj (fun b e => e = quote_byte b)).
  - intros b e ->. unfold quote_byte. by destruct (_ || _).
  - intros a1 a2 e1 e2 r1 r2 -> -> H.
    apply quote_byte_prefix in H. by subst.
  - apply Forall2_fmap_r, Forall_Forall2_diag, Forall_true. done.
  - apply Forall2_fmap_r, Forall_Forall2_diag, Forall_true. done.
Qed.

Lemma quote_inj (s1 s2 q : str) :
  quote s1 = Some q -> quote s2 = Some q -> s1 = s2.
Proof.
  unfold quote.
  destruct (encode s1) as [b1|] eqn:H1; [|done].
  destruct (encode s2) as [b2|] eqn:H2; [|done].
  simpl. intros [= <-] [= Heq].
  apply quote_bytes_inj in Heq. subst. by eapply encode_inj.
Qed.

(** X5. The link keeps the whole message: two messages with the same
    link, for the same phone number, are the same message. *)
Theorem link_determines_message (message1 message2 : str)
    (phone_number : option str) (link : str) :
  generate_whatsapp_web_link U message1 phone_number = Some link ->
  generate_whatsapp_web_link U message2 phone_number = Some link ->
  message1 = message2.
Proof.
  unfold generate_whatsapp_web_link.
  destruct (quote message1) as [q1|] eqn:H1; [|done].
  destruct (quote message2) as [q2|] eqn:H2; [|done].
  cbn [mbind option_bind].
  destruct (truthy _); intros Ha Hb;
    assert (Heq := eq_trans Ha (eq_sym Hb)); apply (inj Some) in Heq.
  - do 3 apply app_inv_head in Heq. subst. by eapply quote_inj.
  - apply app_inv_head in Heq. subst. by eapply quote_inj.
Qed.

Lemma utf8_none (c : char) :
  is_code_point c = true -> (utf8 c = None <-> is_surrogate c = true).
Proof.
  unfold is_code_point, is_surrogate, utf8. intros Hc.
  destruct (N.ltb_spec c 128).
  { split; [done|]. intros [H1 _]%andb_true_iff. apply N.leb_le in H1. lia. }
  destruct (N.ltb_spec c 2048).
  { split; [done|]. intros [H1 _]%andb_true_iff. apply N.leb_le in H1. lia. }
  destruct (_ && _); [done|].
  rewrite Hc. by destruct (c <? 65536)%N.
Qed.

(** X6. [generate_whatsapp_web_link] fails, with the [UnicodeEncodeError]
    of [quote], exactly on the messages that hold a surrogate code
    point. *)
Theorem link_fails_on_surrogates_only (message : str)
    (phone_number : option str) :
  forallb is_code_point message = true ->
  (generate_whatsapp_web_link U message phone_number = None <->
   existsb is_surrogate message = true).
Proof.
  intros Hcp. unfold generate_whatsapp_web_link, quote, encode.
  assert (mapM utf8 message = None <-> existsb is_surrogate message = true) as <-.
  { induction message as [|c s IH]; [done|].
    cbn [forallb] in Hcp. apply andb_true_iff in Hcp as [Hc Hs].
    cbn [existsb]. rewrite orb_true_iff, <- (IH Hs), <- (utf8_none c Hc).
    cbn [mapM]. destruct (utf8 c); simpl.
    - destruct (mapM utf8 s); simpl.
      + split; [done|by intros [?|?]].
      + split; [by right|done].
    - split; [by left|done]. }
  destruct (mapM utf8 message); simpl; [|done].
  by destruct (truthy _).
Qed.

End LinkInjective.

(** ** Pre- and postconditions *)

Section Hoare.

Context `{FO : FloatOps}.

Lemma hoare_conseq {A} (P P' : World -> Prop) (Q Q' : Result A -> World -> Prop)
    (m : M A) :
  hoare P' m Q' -> (forall w, P w -> P' w) -> (forall r w, Q' r w -> Q r w) ->
  hoare P m Q.
Proof. intros Hm HP HQ w Hw. apply HQ, Hm, HP, Hw. Qed.

Lemma hoare_conj {A} (P : World -> Prop) (Q1 Q2 : Result A -> World -> Prop)
    (m : M A) :
  hoare P m Q1 -> hoare P m Q2 -> hoare P m (fun r w => Q1 r w /\ Q2 r w).
Proof. intros H1 H2 w Hw. split; [by apply H1|by apply H2]. Qed.

Lemma hoare_ret {A} (P : World -> Prop) (Q : Result A -> World -> Prop) (a : A) :
  (forall w, P w -> Q (Ok a) w) -> hoare P (ret a) Q.
Proof. intros H w Hw. by apply H. Qed.

Lemma hoare_throw {A} (P : World -> Prop) (Q : Result A -> World -> Prop) e :
  (forall w, P w -> Q (Raise e) w) -> hoare P (throw e) Q.
Proof. intros H w Hw. by apply H. Qed.

Lemma hoare_bind {A B} (P : World -> Prop) (Q1 : Result A -> World -> Prop)
    (Q : Result B -> World -> Prop) (m : M A) (k : A -> M B) :
  hoare P m Q1 ->
  (forall a, hoare (Q1 (Ok a)) (k a) Q) ->
  (forall e w, Q1 (Raise e) w -> Q (Raise e) w) ->
  hoare P (bind m k) Q.
Proof.
  intros Hm Hk He w Hw. specialize (Hm w Hw). unfold wp, bind in *.
  destruct (m w) as [[a|e] w1]; simpl in *.
  - by apply Hk.
  - by apply He.
Qed.

Lemma hoare_try {A} (P : World -> Prop) (Q1 Q : Result A -> World -> Prop)
    (m : M A) (h : Exn -> M A) :
  hoare P m Q1 ->
  (forall a w, Q1 (Ok a) w -> Q (Ok a) w) ->
  (forall e, hoare (Q1 (Raise e)) (h e) Q) ->
  hoare P (try_except m h) Q.
Proof.
  intros Hm Ha Hh w Hw. specialize (Hm w Hw). unfold wp, try_except in *.
  destruct (m w) as [[a|e] w1]; simpl in *.
  - by apply Ha.
  - by apply Hh.
Qed.

(** A loop with an invariant of its accumulator. *)
Lemma hoare_for_each {A S} (I : S -> World -> Prop) (Qe : Exn -> World -> Prop)
    (xs : list A) (body : S -> A -> M S) (acc : S) :
  (forall acc x, x ∈ xs ->
     hoare (I acc) (body acc x)
       (fun r w => match r with Ok acc' => I acc' w | Raise e => Qe e w end)) ->
  hoare (I acc) (for_each xs body acc)
    (fun r w => match r with Ok acc' => I acc' w | Raise e => Qe e w end).
Proof.
  revert acc. induction xs as [|x xs IH]; intros acc Hbody; simpl.
  - by apply hoare_ret.
  - eapply hoare_bind; [apply Hbody; left| |done].
    intros acc'. apply IH. intros a y Hy. apply Hbody. by right.
Qed.

(** A step whose value is known, then the rest. *)
Lemma hoare_step {A B} (I : World -> Prop) (V : A -> Prop)
    (Q : Result B -> World -> Prop) (m : M A) (k : A -> M B) :
  preserves I m -> gives m V ->
  (forall a, V a -> hoare I (k a) Q) ->
  (forall e w, I w -> Q (Raise e) w) ->
  hoare I (bind m k) Q.
Proof.
  intros Hm Hv Hk He.
  eapply hoare_bind with
    (Q1 := fun r w => I w /\ value V r).
  - apply hoare_conj; [exact Hm|]. intros w _. apply Hv.
  - intros a w [Hw Ha]. by apply Hk.
  - intros e w [Hw _]. by apply He.
Qed.

Section Preserves.

Context (I : World -> Prop).

Lemma preserves_ret {A} (a : A) : preserves I (ret a).
Proof. by apply hoare_ret. Qed.

Lemma preserves_throw {A} e : preserves I (throw (A := A) e).
Proof. by apply hoare_throw. Qed.

Lemma preserves_bind {A B} (m : M A) (k : A -> M B) :
  preserves I m -> (forall a, preserves I (k a)) -> preserves I (bind m k).
Proof. intros Hm Hk. eapply hoare_bind; [exact Hm|exact Hk|done]. Qed.

Lemma preserves_try {A} (m : M A) (h : Exn -> M A) :
  preserves I m -> (forall e, preserves I (h e)) -> preserves I (try_except m h).
Proof. intros Hm Hh. eapply hoare_try; [exact Hm|done|exact Hh]. Qed.

Lemma preserves_for_each {A S} (xs : list A) (body : S -> A -> M S) (acc : S) :
  (forall acc x, preserves I (body acc x)) -> preserves I (for_each xs body acc).
Proof.
  intros Hbody. revert acc. induction xs as [|x xs IH]; intros acc; simpl.
  - apply preserves_ret.
  - apply preserves_bind; [apply Hbody|]. intros. apply IH.
Qed.

Lemma preserves_get {A} (g : World -> A) : preserves I (get g).
Proof. by intros w Hw. Qed.

Lemma preserves_exists p : preserves I (tmp_exists p).
Proof. by intros w Hw. Qed.

Lemma preserves_read p : preserves I (read_file p).
Proof.
  intros w Hw. unfold wp, read_file, bind, get. simpl.
  by destruct (disk w !! p).
Qed.

Lemma preserves_pil E c : preserves I (pil E c).
Proof.
  unfold pil. destruct (pil_fails E c); [apply preserves_throw|apply preserves_ret].
Qed.

Lemma preserves_true_div num den : preserves I (true_div num den).
Proof.
  unfold true_div. destruct (den =? 0); [apply preserves_throw|apply preserves_ret].
Qed.

Context `{!Stable I}.

Lemma preserves_next_call : preserves I next_call.
Proof. intros w Hw. by apply stable_tick. Qed.

Lemma preserves_ext E s : preserves I (ext E s).
Proof.
  intros w Hw. unfold wp, ext, bind, next_call. simpl.
  destruct (ext_fails E s (tick w)); simpl; by apply stable_tick.
Qed.

Lemma preserves_emit e : preserves I (emit e).
Proof. intros w Hw. by apply stable_event. Qed.

Lemma preserves_show_progress stage msg : preserves I (_show_progress stage msg).
Proof.
  unfold _show_progress. apply preserves_bind; [apply preserves_get|].
  intros m. apply preserves_emit.
Qed.

Context `{!StableDisk I}.

Lemma preserves_tmp : preserves I NamedTemporaryFile.
Proof.
  intros w Hw. unfold wp, NamedTemporaryFile. simpl.
  change (I (set_next_tmp (S (next_tmp (set_disk (insert (next_tmp w) Blank) w)))
               (set_disk (insert (next_tmp w) Blank) w))).
  by apply stable_fresh, stable_disk.
Qed.

Lemma preserves_write p c : preserves I (write_file p c).
Proof. intros w Hw. by apply stable_disk. Qed.

Lemma preserves_unlink E p : preserves I (os_unlink E p).
Proof.
  unfold os_unlink. apply preserves_bind; [apply preserves_ext|]. intros _.
  intros w Hw. unfold wp, bind, get, modify. simpl.
  destruct (disk w !! p); simpl; [by apply stable_disk|done].
Qed.

End Preserves.

End Hoare.

Create HintDb stable.

#[export] Hint Resolve preserves_ret preserves_throw preserves_get
  preserves_exists preserves_read preserves_pil preserves_true_div
  preserves_next_call preserves_ext preserves_emit preserves_show_progress
  preserves_tmp preserves_write preserves_unlink : stable.

(** Walk through a computation that keeps an invariant. *)
Ltac stable_go :=
  repeat (first
    [ solve [eauto with stable typeclass_instances]
    | lazymatch goal with
      | |- preserves _ (bind _ _) => apply preserves_bind; [|intros ?]
      | |- preserves _ (try_except _ _) => apply preserves_try; [|intros ?]
      | |- preserves _ (for_each _ _ _) => apply preserves_for_each; intros ? ?
      | |- preserves _ (if ?b then _ else _) => destruct b
      | |- preserves _ (match ?x with _ => _ end) => destruct x
      end ]).

Section StableCode.

Context `{FO : FloatOps} (I : World -> Prop) `{!Stable I} (E : Env).

Lemma preserves_gradient img width height r0 rs g0 gs b0 bs :
  preserves I (gradient E img width height r0 rs g0 gs b0 bs).
Proof. unfold gradient. stable_go. Qed.

Lemma preserves_get_font font_type width : preserves I (_get_font E font_type width).
Proof.
  unfold _get_font.
  generalize (if String.eqb font_type "title" then width / 25 else width / 35).
  intros size. induction font_paths as [|p ps IH]; simpl; stable_go.
Qed.

Lemma preserves_render cfg slide template slide_num total_slides logo :
  preserves I
    (_create_enhanced_slide E cfg slide template slide_num total_slides logo).
Proof.
  unfold _create_enhanced_slide, _apply_corporate_template, _apply_modern_template,
    _apply_minimalist_template, _apply_default_template, _add_company_logo,
    _add_slide_content, _add_slide_metadata, _apply_visual_effects.
  pose proof preserves_gradient. pose proof preserves_get_font.
  stable_go.
Qed.

Lemma preserves_initials_logo company_name :
  preserves I (generate_initials_logo E company_name).
Proof. unfold generate_initials_logo. stable_go. Qed.

Lemma preserves_extract_logo company_name :
  preserves I (extract_company_logo E company_name).
Proof.
  unfold extract_company_logo. pose proof preserves_initials_logo. stable_go.
Qed.

Context `{!StableDisk I}.

Lemma preserves_tts text lang speed :
  preserves I (enhanced_text_to_speech E text lang speed).
Proof. unfold enhanced_text_to_speech. stable_go. Qed.

End StableCode.

(** ** The metrics of a run *)

Section Metrics.

Context `{FO : FloatOps} (E : Env).


Local Instance metrics_stable m0 : Stable (metrics_are m0).
Proof. by split. Qed.

Local Instance metrics_stable_disk m0 : StableDisk (metrics_are m0).
Proof. by split. Qed.

Local Instance metrics_stable_temp m0 : StableTemp (metrics_are m0).
Proof. by intros g w. Qed.

Lemma preserves_register (I : World -> Prop) `{!StableTemp I} g :
  preserves I (modify (set_temp_files g)).
Proof. intros w Hw. by apply stable_temp. Qed.

Lemma preserves_process_audio (I : World -> Prop) `{!Stable I} `{!StableDisk I}
    `{!StableTemp I}
    slide lang speed :
  preserves I (_process_slide_audio E slide lang speed).
Proof.
  unfold _process_slide_audio.
  pose proof (preserves_tts I E). pose proof (preserves_register I).
  stable_go.
Qed.

Ltac gives_go :=
  intros ?w;
  unfold ImageClip, AudioFileClip, fadein, fadeout, volumex, set_audio,
    ext, next_call, read_file, get, bind, ret, throw, value;
  simpl; repeat case_match; simplify_eq/=; auto.

Lemma ImageClip_gives p d :
  gives (ImageClip E p d) (fun c => clip_duration c = d).
Proof. gives_go. Qed.

Lemma fadein_gives c d :
  gives (fadein E c d) (fun c' => clip_duration c' = clip_duration c).
Proof. gives_go. Qed.

Lemma fadeout_gives c d :
  gives (fadeout E c d) (fun c' => clip_duration c' = clip_duration c).
Proof. gives_go. Qed.

Lemma volumex_gives a : gives (volumex E a) (fun a' => a' = a).
Proof. gives_go. Qed.

Lemma set_audio_gives c a :
  gives (set_audio E c a) (fun c' => clip_duration c' = clip_duration c).
Proof. gives_go. Qed.

Lemma gives_any {A} (m : M A) : gives m (fun _ => True).
Proof. intros w. by destruct (m w).1. Qed.


Lemma count_and_return m0 (c : Clip) :
  hoare (metrics_are m0) (count_processed (clip_duration c) >> ret (Some c))
    (counted m0).
Proof. intros w Hw. unfold wp, counted. simpl. by rewrite Hw. Qed.

Lemma silent_clip_counted m0 cfg tmp_img :
  hoare (metrics_are m0) (silent_clip E cfg tmp_img) (counted m0).
Proof.
  unfold silent_clip.
  eapply hoare_step; [unfold ImageClip; stable_go|apply ImageClip_gives| |done].
  intros c0 H0.
  eapply hoare_step; [unfold fadein; stable_go|apply fadein_gives| |done].
  intros c1 H1.
  eapply hoare_step; [unfold fadeout; stable_go|apply fadeout_gives| |done].
  intros c2 H2.
  replace (min_slide_duration cfg) with (clip_duration c2) by congruence.
  apply count_and_return.
Qed.

Lemma narrated_clip_counted m0 cfg tmp_img p :
  hoare (metrics_are m0) (narrated_clip E cfg tmp_img p) (counted m0).
Proof.
  unfold narrated_clip.
  eapply hoare_step; [unfold AudioFileClip; stable_go|apply gives_any| |done].
  intros a _.
  eapply hoare_step; [unfold volumex; stable_go|apply volumex_gives| |done].
  intros a' Ha'. simpl in Ha'. subst a'.
  eapply hoare_step; [unfold ImageClip; stable_go|apply ImageClip_gives| |done].
  intros c0 H0.
  eapply hoare_step; [unfold fadein; stable_go|apply fadein_gives| |done].
  intros c1 H1.
  eapply hoare_step; [unfold fadeout; stable_go|apply fadeout_gives| |done].
  intros c2 H2.
  eapply hoare_step; [unfold volumex; stable_go|apply volumex_gives| |done].
  intros a' Ha'. simpl in Ha'. subst a'.
  eapply hoare_step; [unfold set_audio; stable_go|apply set_audio_gives| |done].
  intros c3 H3.
  match goal with |- hoare _ (count_processed ?d >> _) _ =>
    replace d with (clip_duration c3) by congruence end.
  apply count_and_return.
Qed.

Lemma compose_clip_counted m0 cfg tmp_img path found :
  hoare (metrics_are m0) (compose_clip E cfg tmp_img path found) (counted m0).
Proof.
  unfold compose_clip.
  destruct path as [p|]; [|apply silent_clip_counted].
  destruct found; [|apply silent_clip_counted].
  eapply hoare_try; [apply narrated_clip_counted|done|].
  intros e. eapply hoare_bind; [apply (preserves_emit (metrics_are m0))| |done].
  intros []. apply silent_clip_counted.
Qed.

(** A call of the builder counts the slide once: as processed, with the
    duration of the clip it returns, or else as failed. *)
Lemma builder_metrics cfg slide template slide_num total_slides logo lang speed w :
  let r := _create_slide_video_clip E cfg slide template slide_num total_slides
             logo lang speed w in
  match r.1 with
  | Ok (Some c) => metrics r.2 = add_processed (clip_duration c) (metrics w)
  | Ok None => metrics r.2 = add_failed (metrics w)
  | Raise _ => False
  end.
Proof.
  set (m0 := metrics w).
  assert (hoare (metrics_are m0)
            (_create_slide_video_clip E cfg slide template slide_num total_slides
               logo lang speed)
            (fun r w' => match r with
                         | Ok (Some c) => metrics w' = add_processed (clip_duration c) m0
                         | Ok None => metrics w' = add_failed m0
                         | Raise _ => False
                         end)) as H.
  { unfold _create_slide_video_clip.
    eapply hoare_try with (Q1 := counted m0).
    - eapply hoare_step;
        [apply (preserves_render (metrics_are m0))|apply gives_any| |done].
      intros img _.
      eapply hoare_step; [stable_go|apply gives_any| |done]. intros tmp _.
      eapply hoare_step; [stable_go|apply gives_any| |done]. intros _ _.
      eapply hoare_step; [stable_go|apply gives_any| |done]. intros _ _.
      eapply hoare_step;
        [apply (preserves_register (metrics_are m0))|apply gives_any| |done].
      intros _ _.
      eapply hoare_step;
        [apply (preserves_process_audio (metrics_are m0))|apply gives_any| |done].
      intros path _.
      eapply hoare_step; [destruct path; stable_go|apply gives_any| |done].
      intros found _. apply compose_clip_counted.
    - intros [c|] w' Hc; [exact Hc|destruct Hc].
    - intros e w' Hw'. unfold wp. simpl. unfold metrics_are in Hw'. simpl in Hw'.
      by rewrite Hw'. }
  exact (H w eq_refl).
Qed.

End Metrics.

Section SequentialMetrics.

Context `{FO : FloatOps} (E : Env).

(** X9. A call of [_create_slide_video_clip] counts its slide exactly
    once: when it returns a clip, [processed_slides] grows by one and
    [total_duration] by the duration of that clip; when it returns null,
    [failed_slides] grows by one; nothing else in the metrics changes, and
    no exception escapes. *)
Theorem builder_counts_the_slide_once (cfg : VideoConfig) (slide : Slide)
    (template : string) (slide_num total_slides : Z) (company_logo : Logo)
    (tts_lang : string) (speed_factor : float) (w : World) :
  let r := _create_slide_video_clip E cfg slide template slide_num total_slides
             company_logo tts_lang speed_factor w in
  match r.1 with
  | Ok (Some c) => metrics r.2 = add_processed (clip_duration c) (metrics w)
  | Ok None => metrics r.2 = add_failed (metrics w)
  | Raise _ => False
  end.
Proof.
  intros r. subst r.
  pose proof (builder_metrics E cfg slide template slide_num total_slides
                company_logo tts_lang speed_factor w) as H.
  exact H.
Qed.



Lemma sequential_body_metrics cfg slides template logo lang speed acc item w :
  exists new w',
    sequential_body E cfg slides template logo lang speed acc item w
    = (Ok (acc ++ new), w') /\
    (length new <= 1)%nat /\
    metrics_after 1 new (metrics w) (metrics w').
Proof.
  destruct item as [i slide]. unfold sequential_body, _show_progress.
  unfold bind at 1. unfold bind at 1. unfold get, emit, modify. simpl.
  set (w1 := add_event _ w). unfold bind, build.
  pose proof (builder_metrics E cfg slide template (Z.of_nat i + 1) (len slides)
                logo lang speed w1) as Hb.
  simpl in Hb.
  destruct (_create_slide_video_clip E cfg slide template (Z.of_nat i + 1)
              (len slides) logo lang speed w1) as [[[c|]|e] w2];
    simpl in Hb; [| |done].
  - exists [c], w2. split; [done|]. split; [done|].
    subst w1. simpl in Hb. rewrite Hb.
    unfold metrics_after, len. simpl. repeat split; lia.
  - exists [], w2. rewrite app_nil_r. split; [done|]. split; [simpl; lia|].
    subst w1. simpl in Hb. rewrite Hb.
    unfold metrics_after, len. simpl. repeat split; lia.
Qed.

Lemma sequential_loop_metrics cfg slides template logo lang speed
    (items : list (nat * Slide)) : forall acc w,
  exists new w',
    for_each items (sequential_body E cfg slides template logo lang speed) acc w
    = (Ok (acc ++ new), w') /\
    (length new <= length items)%nat /\
    metrics_after (length items) new (metrics w) (metrics w').
Proof.
  induction items as [|item items IH]; intros acc w.
  - exists [], w. simpl. rewrite app_nil_r. split; [done|]. split; [done|].
    unfold metrics_after, len. simpl. repeat split; lia.
  - cbn [for_each]. unfold bind.
    destruct (sequential_body_metrics cfg slides template logo lang speed acc item w)
      as (new1 & w1 & -> & Hlen1 & H11 & H12 & H13 & H14 & H15 & H16).
    destruct (IH (acc ++ new1) w1)
      as (new & w' & -> & Hlen & H21 & H22 & H23 & H24 & H25 & H26).
    exists (new1 ++ new), w'. split; [by rewrite <- app_assoc|].
    split; [rewrite length_app; simpl; lia|].
    unfold metrics_after, len in *.
    rewrite map_app, fold_left_app, length_app. cbn [length].
    split; [congruence|]. split; [lia|]. split; [lia|].
    split; [by rewrite H24, H14|]. split; congruence.
Qed.

(** X10. The sequential processing of the slides never raises, and the
    metrics it leaves agree with the clips it returns: [processed_slides]
    has grown by their number, [failed_slides] by the number of the other
    slides, and [total_duration] by their durations, added in order. *)
Theorem sequential_metrics_agree_with_clips (cfg : VideoConfig)
    (slides : list Slide) (template : string) (company_logo : Logo)
    (tts_lang : string) (speed_factor : float) (w : World) :
  exists clips w',
    process_sequential E cfg slides template company_logo tts_lang speed_factor w
    = (Ok clips, w') /\
    (length clips <= length slides)%nat /\
    processed_slides (metrics w') = processed_slides (metrics w) + len clips /\
    failed_slides (metrics w') = failed_slides (metrics w) + (len slides - len clips) /\
    total_duration (metrics w')
    = fold_left f_add (map clip_duration clips) (total_duration (metrics w)).
Proof.
  unfold process_sequential.
  change (for_each (enumerate slides) _ [])
    with (for_each (enumerate slides)
            (sequential_body E cfg slides template company_logo tts_lang speed_factor) []).
  destruct (sequential_loop_metrics cfg slides template company_logo tts_lang
              speed_factor (enumerate slides) [] w)
    as (new & w' & Hrun & Hlen & H1 & H2 & H3 & H4 & _).
  assert (length (enumerate slides) = length slides) as Hn
    by (unfold enumerate; apply length_imap).
  rewrite Hn in *.
  exists new, w'. split; [exact Hrun|]. split; [done|].
  split; [done|]. split; [|done]. exact H3.
Qed.

End SequentialMetrics.

(** ** Temporary files *)

Section Cleanup.

Context `{FO : FloatOps} (E : Env).



Lemma cleanup_body_unlinks u p w :
  exists w', cleanup_body E u p w = (Ok tt, w') /\ unlinked E [p] w w'.
Proof.
  unfold cleanup_body, try_except, bind, tmp_exists, get, os_unlink, ext,
    next_call, bind, modify, emit, ret, throw. simpl.
  destruct (disk w !! p) as [f|] eqn:Hp; simpl.
  - destruct (ext_fails E Os_unlink (tick w)) eqn:Hfail; simpl.
    + eexists. split; [done|]. unfold unlinked. simpl.
      repeat split; try done. intros Hno. by rewrite Hno in Hfail.
    + rewrite Hp. simpl. eexists. split; [done|]. unfold unlinked. simpl.
      repeat split; try done.
      * intros q Hq. apply lookup_delete_ne. intros ->. apply Hq. by left.
      * intros q Hq. destruct (decide (p = q)) as [->|Hne].
        -- apply lookup_delete_eq.
        -- by rewrite lookup_delete_ne.
      * intros _ q Hq. apply list_elem_of_singleton in Hq as ->.
        apply lookup_delete_eq.
  - eexists. split; [done|]. unfold unlinked.
    repeat split; try done.
    intros _ q Hq. by apply list_elem_of_singleton in Hq as ->.
Qed.

Lemma cleanup_loop_unlinks (files : list nat) : forall w,
  exists w', for_each files (cleanup_body E) tt w = (Ok tt, w') /\
             unlinked E files w w'.
Proof.
  induction files as [|p files IH]; intros w.
  - exists w. split; [done|]. unfold unlinked. repeat split; try done.
    intros _ q Hq. by apply elem_of_nil in Hq.
  - cbn [for_each]. unfold bind.
    destruct (cleanup_body_unlinks tt p w)
      as (w1 & -> & H11 & H12 & H13 & H14 & H15 & H16).
    destruct (IH w1) as (w' & -> & H21 & H22 & H23 & H24 & H25 & H26).
    exists w'. split; [done|]. unfold unlinked.
    split; [congruence|]. split; [congruence|]. split; [congruence|].
    split; [|split].
    + intros q Hq. apply not_elem_of_cons in Hq as [Hqp Hq].
      rewrite H24 by done. apply H14.
      by intros ->%list_elem_of_singleton.
    + intros q Hq. apply H25, H15, Hq.
    + intros Hno q Hq. apply elem_of_cons in Hq as [->|Hq].
      * apply H25, (H16 Hno). by left.
      * by apply (H26 Hno).
Qed.

Lemma cleanup_run (w : World) :
  exists w', _cleanup_temp_files E w = (Ok tt, set_temp_files (fun _ => []) w') /\
             unlinked E (temp_files w) w w'.
Proof.
  destruct (cleanup_loop_unlinks (temp_files w) w) as (w' & Hrun & H).
  exists w'. split; [|exact H].
  unfold _cleanup_temp_files, bind, get.
  change (for_each (temp_files w) _ tt w)
    with (for_each (temp_files w) (cleanup_body E) tt w).
  by rewrite Hrun.
Qed.

(** X11. [_cleanup_temp_files] never raises and empties the registry of
    temporary files; it leaves the metrics and every file that is not
    registered as they are, creates no file, and, unless [os.unlink]
    fails, no registered file is left on the disk. *)
Theorem cleanup_removes_the_registered_files_only (w : World) :
  let r := _cleanup_temp_files E w in
  r.1 = Ok tt /\
  temp_files r.2 = [] /\
  metrics r.2 = metrics w /\
  (forall p, p ∉ temp_files w -> disk r.2 !! p = disk w !! p) /\
  (forall p, disk w !! p = None -> disk r.2 !! p = None) /\
  ((forall k, ext_fails E Os_unlink k = false) ->
   forall p, p ∈ temp_files w -> disk r.2 !! p = None).
Proof.
  destruct (cleanup_run w) as (w' & Heq & H1 & H2 & H3 & H4 & H5 & H6).
  rewrite Heq. cbn. repeat split; done.
Qed.

End Cleanup.

Section Speech.

Context `{FO : FloatOps} (E : Env).

Local Ltac call_ok :=
  lazymatch goal with
  | |- context [ext_fails ?env ?site ?k] =>
      destruct (ext_fails env site k); simpl; [by exists None|]
  end.

(** What a synthesis comes to. *)
Lemma speech_run (text : str) (lang : string) (speed_factor : float) (w : World) :
  let r := enhanced_text_to_speech E text lang speed_factor w in
  exists o,
    r.1 = Ok o /\
    temp_files r.2 = temp_files w /\
    metrics r.2 = metrics w /\
    match o with
    | Some p =>
        (p = S (next_tmp w) /\ next_tmp r.2 = S (S (next_tmp w))) /\
        (exists seconds, disk r.2 !! p = Some (Mp3 seconds)) /\
        disk r.2 !! next_tmp w = None /\
        (forall q, q <> p -> q <> next_tmp w -> disk r.2 !! q = disk w !! q)
    | None => True
    end.
Proof.
  cbv zeta.
  unfold enhanced_text_to_speech, try_except.
  destruct (negb (truthy _)); [by exists None|].
  unfold os_unlink, bind, ext, next_call, NamedTemporaryFile, write_file,
    read_file, modify, get, emit, ret, throw, bind. simpl.
  destruct (ext_fails E GTTS_new (tick w)); simpl; [by exists None|].
  call_ok.
  call_ok.
  rewrite !lookup_insert_eq. simpl.
  destruct (negb (f_eqb speed_factor (f_lit 1 1))); simpl.
  - call_ok.
    call_ok.
    call_ok.
    rewrite !lookup_insert_ne by lia. rewrite !lookup_insert_eq. simpl.
    eexists (Some _). repeat split; try done.
    + eexists. rewrite lookup_delete_ne by lia. by rewrite lookup_insert_eq.
    + by rewrite lookup_delete_eq.
    + intros q Hq1 Hq2. rewrite lookup_delete_ne by done.
      by rewrite !lookup_insert_ne by done.
  - call_ok.
    call_ok.
    rewrite !lookup_insert_ne by lia. rewrite !lookup_insert_eq. simpl.
    eexists (Some _). repeat split; try done.
    + eexists. rewrite lookup_delete_ne by lia. by rewrite lookup_insert_eq.
    + by rewrite lookup_delete_eq.
    + intros q Hq1 Hq2. rewrite lookup_delete_ne by done.
      by rewrite !lookup_insert_ne by done.
Qed.


(** X12. [enhanced_text_to_speech] never raises.  When it returns a path,
    that path is a new file on the disk, holding the narration; the file
    of the first synthesis has been removed again, and no other file, nor
    the registry of temporary files, nor the metrics have changed. *)
Theorem speech_is_one_new_file (text : str) (lang : string)
    (speed_factor : float) (w : World) :
  let r := enhanced_text_to_speech E text lang speed_factor w in
  exists o,
    r.1 = Ok o /\
    temp_files r.2 = temp_files w /\
    metrics r.2 = metrics w /\
    match o with
    | Some p =>
        p = S (next_tmp w) /\
        (exists seconds, disk r.2 !! p = Some (Mp3 seconds)) /\
        disk r.2 !! next_tmp w = None /\
        (forall q, q <> p -> q <> next_tmp w -> disk r.2 !! q = disk w !! q)
    | None => True
    end.
Proof.
  destruct (speech_run text lang speed_factor w) as (o & Hr & Ht & Hm & Ho).
  exists o. split; [done|]. split; [done|]. split; [done|].
  destruct o as [p|]; [|done].
  destruct Ho as ((Hp & _) & Hd & Hn & Hq). done.
Qed.

End Speech.

(** ** The files of a run *)

Section RegistryInvariant.

Context `{FO : FloatOps} (E : Env).

Global Instance registry_stable : Stable registry_is_old.
Proof. by split. Qed.

Global Instance registry_stable_disk : StableDisk registry_is_old.
Proof.
  split; try done. intros w Hw. unfold registry_is_old in *. simpl.
  eapply Forall_impl; [exact Hw|]. simpl. lia.
Qed.

Global Instance registry_stable_metrics : StableMetrics registry_is_old.
Proof. by intros g w. Qed.

Global Instance registry_and_file_stable p : Stable (registry_and_file_are_old p).
Proof. by split. Qed.

Global Instance registry_and_file_stable_disk p :
  StableDisk (registry_and_file_are_old p).
Proof.
  split; try done. intros w [Hw Hp]. split; [by apply stable_fresh|simpl; lia].
Qed.

Global Instance registry_and_file_stable_metrics p :
  StableMetrics (registry_and_file_are_old p).
Proof. by intros g w. Qed.

Lemma preserves_count_processed (I : World -> Prop) `{!StableMetrics I} d :
  preserves I (count_processed d).
Proof. intros w Hw. by apply stable_metrics. Qed.

Lemma preserves_count_failed (I : World -> Prop) `{!StableMetrics I} :
  preserves I count_failed.
Proof. intros w Hw. by apply stable_metrics. Qed.

Lemma preserves_set_metrics (I : World -> Prop) `{!StableMetrics I} g :
  preserves I (modify (set_metrics g)).
Proof. intros w Hw. by apply stable_metrics. Qed.

Lemma preserves_compose_clip (I : World -> Prop) `{!Stable I} `{!StableMetrics I}
    cfg tmp_img path found :
  preserves I (compose_clip E cfg tmp_img path found).
Proof.
  pose proof (preserves_count_processed I).
  unfold compose_clip, narrated_clip, silent_clip, AudioFileClip, ImageClip,
    fadein, fadeout, volumex, set_audio.
  stable_go.
Qed.

(** A step that keeps the invariant, then the rest. *)
Lemma hoare_after {A B} (I : World -> Prop) (Q : Result B -> World -> Prop)
    (m : M A) (k : A -> M B) :
  preserves I m ->
  (forall a, hoare I (k a) Q) ->
  (forall e w, I w -> Q (Raise e) w) ->
  hoare I (bind m k) Q.
Proof. intros Hm Hk He. eapply hoare_bind; [exact Hm|exact Hk|exact He]. Qed.

Lemma new_file_is_old :
  hoare registry_is_old NamedTemporaryFile
    (fun r w => match r with
                | Ok p => registry_and_file_are_old p w
                | Raise _ => registry_is_old w
                end).
Proof.
  intros w Hw. unfold wp, NamedTemporaryFile. simpl. split; [|simpl; lia].
  change (registry_is_old
            (set_next_tmp (S (next_tmp (set_disk (insert (next_tmp w) Blank) w)))
               (set_disk (insert (next_tmp w) Blank) w))).
  by apply stable_fresh, stable_disk.
Qed.

Lemma register_old_file p :
  hoare (registry_and_file_are_old p) (modify (set_temp_files (fun l => l ++ [p])))
    (fun _ w => registry_is_old w).
Proof.
  intros w [Hw Hp]. unfold wp, registry_is_old in *. simpl.
  apply Forall_app. split; [done|by apply Forall_singleton].
Qed.

Lemma speech_file_is_old text lang speed :
  hoare registry_is_old (enhanced_text_to_speech E text lang speed)
    (fun r w => match r with
                | Ok (Some p) => registry_and_file_are_old p w
                | _ => registry_is_old w
                end).
Proof.
  intros w Hw. unfold wp.
  pose proof (preserves_tts registry_is_old E text lang speed w Hw) as Hinv.
  destruct (speech_run E text lang speed w) as (o & Hr & _ & _ & Ho).
  unfold wp in Hinv.
  destruct (enhanced_text_to_speech E text lang speed w) as [r w']; simpl in *.
  subst r. destruct o as [p|]; [|done].
  destruct Ho as ((-> & Hn) & _). split; [done|lia].
Qed.

Lemma preserves_audio_registry slide lang speed :
  preserves registry_is_old (_process_slide_audio E slide lang speed).
Proof.
  unfold _process_slide_audio. apply preserves_try; [|intros e; stable_go].
  apply preserves_bind; [destruct (slide !! "content"); stable_go|].
  intros content.
  eapply hoare_bind; [apply speech_file_is_old| |done].
  intros [p|].
  - eapply hoare_after; [apply preserves_exists| |by intros e w []].
    intros found. destruct found.
    + eapply hoare_bind; [apply register_old_file| |done].
      intros ?. by apply hoare_ret.
    + eapply hoare_conseq with (P' := registry_is_old) (Q' := fun _ w => registry_is_old w);
        [change (preserves registry_is_old
                   (emit (LogWarning (Say "Audio file not generated or doesn't exist for slide")) >>
                    ret (@None nat))); stable_go
        |by intros w []|done].
  - change (preserves registry_is_old
              (let* found := ret false in
               emit (LogWarning (Say "Audio file not generated or doesn't exist for slide")) >>
               ret (@None nat))).
    stable_go.
Qed.

Lemma preserves_builder_registry cfg slide template slide_num total_slides logo
    lang speed :
  preserves registry_is_old
    (_create_slide_video_clip E cfg slide template slide_num total_slides logo
       lang speed).
Proof.
  unfold _create_slide_video_clip. apply preserves_try.
  - apply preserves_bind; [apply preserves_render; apply _|]. intros img.
    eapply hoare_bind; [apply new_file_is_old| |done]. intros tmp.
    eapply hoare_after; [stable_go| |by intros e w []]. intros ?.
    eapply hoare_after; [stable_go| |by intros e w []]. intros ?.
    eapply hoare_bind; [apply register_old_file| |done]. intros ?.
    apply preserves_bind; [apply preserves_audio_registry|]. intros path.
    apply preserves_bind; [destruct path; stable_go|]. intros found.
    apply preserves_compose_clip; apply _.
  - intros e. pose proof (preserves_count_failed registry_is_old). stable_go.
Qed.

End RegistryInvariant.

Section Values.

Context `{FO : FloatOps}.

Lemma gives_mono {A} (m : M A) (V V' : A -> Prop) :
  gives m V -> (forall a, V a -> V' a) -> gives m V'.
Proof. intros Hm HV w. specialize (Hm w). destruct (m w).1; simpl in *; auto. Qed.

Lemma gives_ret {A} (a : A) (V : A -> Prop) : V a -> gives (ret a) V.
Proof. by intros Ha w. Qed.

Lemma gives_throw {A} e (V : A -> Prop) : gives (throw e) V.
Proof. by intros w. Qed.

Lemma gives_bind {A B} (m : M A) (k : A -> M B) (V : A -> Prop) (V' : B -> Prop) :
  gives m V -> (forall a, V a -> gives (k a) V') -> gives (bind m k) V'.
Proof.
  intros Hm Hk w. specialize (Hm w). unfold bind.
  destruct (m w) as [[a|e] w1]; simpl in *; [|done]. by apply Hk.
Qed.

Lemma gives_try {A} (m : M A) (h : Exn -> M A) (V : A -> Prop) :
  gives m V -> (forall e, gives (h e) V) -> gives (try_except m h) V.
Proof.
  intros Hm Hh w. specialize (Hm w). unfold try_except.
  destruct (m w) as [[a|e] w1]; simpl in *; [done|]. apply Hh.
Qed.

Lemma gives_for_each {A S} (I : S -> Prop) (xs : list A) (body : S -> A -> M S)
    (acc : S) :
  I acc -> (forall acc x, I acc -> gives (body acc x) I) ->
  gives (for_each xs body acc) I.
Proof.
  revert acc. induction xs as [|x xs IH]; intros acc Hacc Hbody; simpl.
  - by apply gives_ret.
  - eapply gives_bind; [by apply Hbody|]. intros acc' Hacc'. by apply IH.
Qed.

Lemma hoare_gives {A} (I : World -> Prop) (V : A -> Prop) (m : M A) :
  preserves I m -> gives m V -> hoare I m (fun r w => I w /\ value V r).
Proof. intros Hm Hv. apply hoare_conj; [exact Hm|]. intros w _. apply Hv. Qed.

End Values.

Section Processing.

Context `{FO : FloatOps} (E : Env).

Lemma builder_gives cfg slide template slide_num total_slides logo lang speed :
  gives (_create_slide_video_clip E cfg slide template slide_num total_slides
           logo lang speed)
    (fun oc => forall c, oc = Some c -> well_timed cfg c).
Proof.
  intros w.
  pose proof (builder_run E cfg slide template slide_num total_slides logo
                lang speed w) as H. simpl in H.
  destruct (_create_slide_video_clip _ _ _ _ _ _ _ _ _ w).1 as [[c|]|e];
    simpl; [|done|done].
  intros ? [= <-]. by destruct H.
Qed.

Lemma sequential_gives cfg slides template logo lang speed :
  gives (process_sequential E cfg slides template logo lang speed)
    (Forall (well_timed cfg)).
Proof.
  unfold process_sequential. apply gives_for_each; [constructor|].
  intros acc [i slide] Hacc.
  eapply gives_bind; [apply gives_any|]. intros _ _.
  eapply gives_bind; [apply builder_gives|]. intros [c|] Hc; apply gives_ret.
  - apply Forall_app. split; [done|]. apply Forall_singleton. by apply Hc.
  - done.
Qed.

Lemma preserves_sequential cfg slides template logo lang speed :
  preserves registry_is_old
    (process_sequential E cfg slides template logo lang speed).
Proof.
  unfold process_sequential, build.
  pose proof (preserves_builder_registry E).
  apply preserves_for_each. intros acc [i slide]. stable_go.
Qed.

Lemma preserves_run_future {A} (I : World -> Prop) (job : M A) :
  preserves I job -> preserves I (run_future job).
Proof.
  intros Hj w Hw. specialize (Hj w Hw). unfold wp, run_future in *.
  by destruct (job w).
Qed.

Lemma run_future_gives {A} (job : M A) (V : A -> Prop) :
  gives job V -> gives (run_future job) (value V).
Proof.
  intros Hj w. specialize (Hj w). unfold run_future.
  by destruct (job w) as [[a|e] w1].
Qed.


Lemma run_pool_gives cfg slides template logo lang speed :
  gives (run_pool E cfg slides template logo lang speed) (holds_good_clips cfg).
Proof.
  unfold run_pool. apply gives_for_each; [by intros i c|].
  intros results future Hres.
  destruct (slides !! future) as [slide|]; [|by apply gives_ret].
  eapply gives_bind; [apply run_future_gives, builder_gives|].
  intros r Hr. apply gives_ret. intros i c.
  destruct (decide (future = i)) as [->|Hne].
  - rewrite lookup_insert_eq. intros [= ->]. by apply Hr.
  - rewrite lookup_insert_ne by done. apply Hres.
Qed.

Lemma preserves_run_pool cfg slides template logo lang speed :
  preserves registry_is_old (run_pool E cfg slides template logo lang speed).
Proof.
  unfold run_pool. apply preserves_for_each. intros results future.
  destruct (slides !! future) as [slide|]; [|apply preserves_ret].
  apply preserves_bind; [|intros; apply preserves_ret].
  apply preserves_run_future, preserves_builder_registry.
Qed.

Lemma collect_completed_gives cfg n_slides fidx results :
  holds_good_clips cfg results ->
  gives (collect_completed E n_slides fidx results) (Forall (well_timed cfg)).
Proof.
  intros Hres. unfold collect_completed.
  eapply gives_bind with (V := Forall (fun ic => well_timed cfg ic.2)).
  - apply gives_for_each; [constructor|]. intros acc future Hacc.
    unfold collect_step.
    eapply gives_bind; [apply gives_any|]. intros slide_idx _.
    apply gives_try.
    + eapply gives_bind with (V := fun oc => forall c, oc = Some c -> well_timed cfg c).
      * unfold future_result.
        destruct (results !! future) as [[oc|e]|] eqn:Hf;
          [|apply gives_throw..].
        apply gives_ret. intros c ->. by eapply Hres.
      * intros [c|] Hc; (eapply gives_bind; [apply gives_any|]); intros _ _;
          apply gives_ret; [|done].
        apply Forall_app. split; [done|]. apply Forall_singleton. by apply Hc.
    + intros e. eapply gives_bind; [apply gives_any|]. intros _ _.
      eapply gives_bind; [apply gives_any|]. intros _ _. by apply gives_ret.
  - intros acc Hacc. apply gives_ret. apply Forall_fmap.
    unfold sort_by_key. by rewrite merge_sort_Permutation.
Qed.

Lemma preserves_collect_completed (I : World -> Prop) `{!Stable I}
    `{!StableMetrics I} n_slides fidx results :
  preserves I (collect_completed E n_slides fidx results).
Proof.
  pose proof (preserves_count_failed I).
  unfold collect_completed, collect_step, future_result. stable_go.
Qed.

Lemma parallel_gives cfg slides template logo lang speed :
  gives (process_parallel E cfg slides template logo lang speed)
    (Forall (well_timed cfg)).
Proof.
  unfold process_parallel.
  eapply gives_bind; [apply gives_any|]. intros _ _.
  eapply gives_bind; [apply gives_any|]. intros _ _.
  eapply gives_bind; [apply run_pool_gives|]. intros results Hres.
  by apply collect_completed_gives.
Qed.

Lemma preserves_parallel cfg slides template logo lang speed :
  preserves registry_is_old
    (process_parallel E cfg slides template logo lang speed).
Proof.
  unfold process_parallel.
  pose proof (preserves_run_pool cfg slides template logo lang speed).
  pose proof (preserves_collect_completed registry_is_old).
  stable_go.
Qed.

End Processing.

Section VideoFile.

Context `{FO : FloatOps} (E : Env).


Local Instance unregistered_stable p : Stable (unregistered p).
Proof. by split. Qed.

Local Instance unregistered_stable_disk p : StableDisk (unregistered p).
Proof. by split. Qed.

Local Instance video_stable p clips : Stable (is_unregistered_video p clips).
Proof. by split. Qed.

Local Instance video_stable_metrics p clips :
  StableMetrics (is_unregistered_video p clips).
Proof. by intros g w. Qed.


Local Instance video_left_stable p clips : Stable (video_left p clips).
Proof. by split. Qed.

Lemma new_file_is_unregistered :
  hoare registry_is_old NamedTemporaryFile
    (fun r w => match r with Ok p => unregistered p w | Raise _ => True end).
Proof.
  intros w Hw. unfold wp, NamedTemporaryFile, unregistered. simpl.
  intros Hin. unfold registry_is_old in Hw.
  rewrite Forall_forall in Hw. apply Hw in Hin. lia.
Qed.

Lemma video_is_written p clips :
  hoare (unregistered p) (write_file p (Mp4 clips))
    (fun _ w => is_unregistered_video p clips w).
Proof.
  intros w Hw. unfold wp, is_unregistered_video. simpl.
  split; [exact Hw|apply lookup_insert_eq].
Qed.

Lemma cleanup_keeps_video p clips :
  hoare (is_unregistered_video p clips) (_cleanup_temp_files E)
    (fun r w => match r with Ok _ => video_left p clips w | Raise _ => False end).
Proof.
  intros w [Hp Hd]. unfold wp.
  destruct (cleanup_run E w) as (w' & -> & _ & _ & _ & Hkeep & _).
  simpl. split; [|done]. by rewrite Hkeep.
Qed.

Lemma cleanup_returns :
  hoare (fun _ => True) (_cleanup_temp_files E)
    (fun r _ => match r with Ok _ => True | Raise _ => False end).
Proof.
  intros w _. unfold wp. by destruct (cleanup_run E w) as (w' & -> & _).
Qed.


Lemma export_clips_leaves_video cfg start_time clips :
  hoare registry_is_old (export_clips E cfg start_time clips) (exported clips).
Proof.
  unfold export_clips. destruct clips as [|c clips]; simpl negb; cbv iota.
  { intros w _. by unfold wp. }
  set (cs := c :: clips).
  eapply hoare_after; [stable_go| |done]. intros ?.
  eapply hoare_after; [stable_go| |done]. intros ?.
  eapply hoare_after; [stable_go| |done]. intros ?.
  eapply hoare_after; [stable_go| |done]. intros ?.
  eapply hoare_after; [stable_go| |done]. intros ?.
  eapply hoare_after; [stable_go| |done]. intros ?.
  eapply hoare_bind; [apply new_file_is_unregistered| |done]. intros p.
  eapply hoare_after; [stable_go| |done]. intros ?.
  eapply hoare_after; [stable_go| |done]. intros ?.
  eapply hoare_bind; [apply video_is_written| |done]. intros ?.
  pose proof (preserves_set_metrics (is_unregistered_video p cs)) as Hset.
  eapply hoare_after; [stable_go| |done]. intros k1.
  eapply hoare_after; [unfold set_generation_time; stable_go| |done]. intros ?.
  eapply hoare_after; [stable_go| |done]. intros found.
  eapply hoare_after; [unfold set_file_size_mb; stable_go| |done]. intros ?.
  eapply hoare_after; [stable_go| |done]. intros ?.
  eapply hoare_after; [stable_go| |done]. intros ?.
  eapply hoare_bind; [apply cleanup_keeps_video| |done]. intros ?.
  eapply hoare_after; [apply (preserves_emit (video_left p cs)); apply _| |done].
  intros ?. apply hoare_ret. intros w Hw. by split.
Qed.

End VideoFile.

Section Pipeline.

Context `{FO : FloatOps} (E : Env).

Lemma hoare_if {A} (b : bool) (P : World -> Prop) (Q : Result A -> World -> Prop)
    (m1 m2 : M A) :
  hoare P m1 Q -> hoare P m2 Q -> hoare P (if b then m1 else m2) Q.
Proof. by destruct b. Qed.

Lemma preserves_set_total_slides (I : World -> Prop) `{!StableMetrics I} n :
  preserves I (set_total_slides n).
Proof. intros w Hw. by apply stable_metrics. Qed.

(** A run of the pipeline raises nothing, and when it returns a path it
    has left the video there. *)
Lemma pipeline_run slides company_name template lang speed config parallel :
  hoare (fun _ => True)
    (create_professional_placement_video E slides company_name template lang
       speed config parallel)
    (leaves_video (default default_config config)).
Proof.
  unfold create_professional_placement_video.
  apply hoare_if; [by intros w _|].
  apply hoare_if; [by intros w _|].
  set (cfg := default default_config config).
  eapply hoare_bind with
    (Q1 := fun r w => match r with Ok _ => registry_is_old w | Raise _ => False end);
    [by intros w _; constructor| |done].
  intros ?.
  eapply hoare_bind with
    (Q1 := fun r w => match r with Ok _ => registry_is_old w | Raise _ => False end);
    [by intros w Hw| |done].
  intros k0.
  eapply hoare_try with
    (Q1 := fun r w => match r with
                      | Ok o => leaves_video cfg (Ok o) w
                      | Raise _ => True
                      end).
  - pose proof (preserves_set_total_slides registry_is_old).
    eapply hoare_after; [stable_go| |done]. intros ?.
    eapply hoare_after; [stable_go| |done]. intros ?.
    eapply hoare_after; [apply preserves_extract_logo; apply _| |done].
    intros logo.
    eapply hoare_after; [stable_go| |done]. intros ?.
    eapply hoare_bind with
      (Q1 := fun r w => registry_is_old w /\ value (Forall (well_timed cfg)) r).
    + apply hoare_if; apply hoare_gives.
      * apply preserves_parallel.
      * apply parallel_gives.
      * apply preserves_sequential.
      * apply sequential_gives.
    + intros clips w [Hw Hclips].
      pose proof (export_clips_leaves_video E cfg (time_time E k0) clips w Hw)
        as Hx.
      unfold wp in *.
      destruct (export_clips E cfg (time_time E k0) clips w) as [[[p|]|e] w'];
        simpl in *; try done.
      destruct Hx as [Hne [Hd Ht]]. by exists clips.
    + done.
  - by intros o w Ho.
  - intros e.
    eapply hoare_conseq with (P' := fun _ => True);
      [|done|intros r w Hr; exact Hr].
    eapply hoare_bind with (Q1 := fun r _ => match r with Ok _ => True | Raise _ => False end);
      [by intros w _| |done]. intros ?.
    eapply hoare_bind with (Q1 := fun r _ => match r with Ok _ => True | Raise _ => False end);
      [by intros w _| |done]. intros ?.
    eapply hoare_bind; [apply cleanup_returns| |done]. intros ?.
    by intros w _.
Qed.

(** X13. [create_professional_placement_video] lets no exception escape:
    whatever the slides, the configuration and the failures of the outside
    world, it returns a path or null. *)
Theorem pipeline_never_raises (slides : list Slide) (company_name : str)
    (template : string) (tts_lang : string) (speed_factor : float)
    (config : option VideoConfig) (parallel_processing : bool) (w : World) :
  exists o,
    (create_professional_placement_video E slides company_name template
       tts_lang speed_factor config parallel_processing w).1 = Ok o.
Proof.
  pose proof (pipeline_run slides company_name template tts_lang speed_factor
                config parallel_processing w I) as H.
  unfold wp in H.
  destruct (create_professional_placement_video _ _ _ _ _ _ _ _ w).1 as [o|e];
    [by exists o|done].
Qed.

(** X14. When [create_professional_placement_video] returns a path, the
    file at that path is on the disk and holds the video of a non-empty
    list of clips, each of them with the duration that the builder gives
    it; the registry of temporary files is empty, and the clean-up has not
    removed the video. *)
Theorem returned_path_holds_the_video (slides : list Slide) (company_name : str)
    (template : string) (tts_lang : string) (speed_factor : float)
    (config : option VideoConfig) (parallel_processing : bool)
    (w w' : World) (p : nat) :
  create_professional_placement_video E slides company_name template
    tts_lang speed_factor config parallel_processing w = (Ok (Some p), w') ->
  exists clips,
    clips <> [] /\
    Forall (well_timed (default default_config config)) clips /\
    disk w' !! p = Some (Mp4 clips) /\
    temp_files w' = [].
Proof.
  intros Hrun.
  pose proof (pipeline_run slides company_name template tts_lang speed_factor
                config parallel_processing w I) as H.
  unfold wp in H. rewrite Hrun in H. exact H.
Qed.

End Pipeline.

(** ** The card renderer *)

Section Cards.

Context `{FO : FloatOps} (E : Env) (U : Unicode).

Lemma draw_point_ops colors font y point :
  draw_point colors font 1080 80 y point
  = [ CardRoundedRectangle 80 y 1000 (y + 180) 20 (card_bg colors);
      CardEllipse 110 (y + 75) 140 (y + 105) (accent colors) ] ++
    imap (fun k line => CardText (inject_Z 160) (y + 30 + Z.of_nat k * 60) line
                          font (primary colors))
         (point_lines point).
Proof.
  unfold draw_point, point_lines.
  change ((1080 - 2 * 80 - 100) / 22) with 37.
  change (180 / 2) with 90.
  simpl app. f_equal. f_equal. f_equal; lia.
Qed.

(** What a successful call has drawn. *)
Lemma card_inv slide template slide_num total_slides logo card :
  create_interactive_slide E U slide template slide_num total_slides logo = inr card ->
  exists title content header title_y,
    slide !! "title" = Some title /\ slide !! "content" = Some content /\
    total_slides <> 0 /\
    (if shows_logo slide_num logo
     then title_y = 270 /\ exists img, logo = LogoImage img /\
            header = [CardPaste (MkImage (img_mode img) (150, 150)
                                   (img_ops img ++ [Resized (150, 150)]))
                        465 80 (String.eqb (img_mode img) "RGBA")]
     else title_y = 120 /\ header = []) /\
    card_ops card
    = header ++
      [CardText (Qmake (1080 - bbox_width (textbbox E (card_fonts E).1.1 (upper_case U title))) 2)
         title_y (upper_case U title) (card_fonts E).1.1
         (accent (color_scheme template))] ++
      concat (imap (fun k point =>
                      draw_point (color_scheme template) (card_fonts E).1.2 1080 80
                        (title_y + 150 + Z.of_nat k * 210) point)
                   (take 4 (card_points content))) ++
      [ CardLine 80 1800 1000 1800 (secondary (color_scheme template)) 8;
        CardLine 80 1800 (80 + float_int E 0 920 slide_num total_slides) 1800
          (accent (color_scheme template)) 8;
        CardText (inject_Z 80) 1820 (slide_label slide_num total_slides)
          (card_fonts E).2 (secondary (color_scheme template)) ].
Proof.
  unfold create_interactive_slide, shows_logo.
  destruct (card_fonts E) as [[font_bold font_regular] font_small] eqn:Hfonts.
  unfold card_item. cbn [fst snd].
  destruct ((slide_num =? 1) && logo_truthy logo) eqn:Hlogo.
  - destruct logo as [|p|img|b]; try discriminate.
    destruct (slide !! "title") as [title|] eqn:Htitle; [|discriminate].
    destruct (textbbox E font_bold (upper_case U title)) as [[[x0 y0] x1] y1] eqn:Hbox.
    destruct (slide !! "content") as [content|] eqn:Hcontent; [|discriminate].
    destruct (total_slides =? 0) eqn:Htotal; [discriminate|].
    intros [= <-]. exists title, content. eexists _, _.
    split; [done|]. split; [done|]. split; [lia|].
    split; [split; [reflexivity|]; by eexists|].
    cbn [card_ops]. rewrite <- !app_assoc, Hbox. reflexivity.
  - destruct (slide !! "title") as [title|] eqn:Htitle; [|discriminate].
    destruct (textbbox E font_bold (upper_case U title)) as [[[x0 y0] x1] y1] eqn:Hbox.
    destruct (slide !! "content") as [content|] eqn:Hcontent; [|discriminate].
    destruct (total_slides =? 0) eqn:Htotal; [discriminate|].
    intros [= <-]. exists title, content. eexists _, _.
    split; [done|]. split; [done|]. split; [lia|].
    split; [split; reflexivity|].
    cbn [card_ops]. rewrite <- !app_assoc, Hbox. reflexivity.
Qed.

Lemma omap_imap_inv {A B} (f : B -> option A) (g : nat -> A -> B) (l : list A) :
  (forall k x, f (g k x) = Some x) -> omap f (imap g l) = l.
Proof.
  revert g. induction l as [|x l IH]; intros g Hg; [done|].
  cbn. rewrite Hg. f_equal. apply IH. intros k y. apply Hg.
Qed.

Lemma omap_imap_none {A B C} (f : B -> option C) (g : nat -> A -> B) (l : list A) :
  (forall k x, f (g k x) = None) -> omap f (imap g l) = [].
Proof.
  revert g. induction l as [|x l IH]; intros g Hg; [done|].
  cbn. rewrite Hg. apply IH. intros k y. apply Hg.
Qed.

Lemma concat_length_le {A} (n : nat) (ls : list (list A)) :
  Forall (fun l => (length l <= n)%nat) ls ->
  (length (concat ls) <= n * length ls)%nat.
Proof.
  induction 1 as [|l ls Hl _ IH]; cbn; [lia|]. rewrite length_app. lia.
Qed.

Lemma omap_concat_imap {A B C} (f : B -> option C) (h : nat -> A -> list B)
    (q : A -> list C) (l : list A) :
  (forall k x, omap f (h k x) = q x) ->
  omap f (concat (imap h l)) = concat (map q l).
Proof.
  revert h. induction l as [|x l IH]; intros h Hh; [done|].
  cbn. rewrite omap_app, Hh. f_equal. apply IH. intros k y. apply Hh.
Qed.

Lemma omap_concat_imap_one {A B C} (f : B -> option C) (h : nat -> A -> list B)
    (q : nat -> A -> C) (l : list A) :
  (forall k x, omap f (h k x) = [q k x]) ->
  omap f (concat (imap h l)) = imap q l.
Proof.
  revert h q. induction l as [|x l IH]; intros h q Hh; [done|].
  cbn. rewrite omap_app, Hh. cbn. f_equal. apply IH. intros k y. apply Hh.
Qed.

(** The texts of a card: the title, the lines of the points, the label. *)
Lemma card_texts_eq slide template slide_num total_slides logo card title content :
  create_interactive_slide E U slide template slide_num total_slides logo = inr card ->
  slide !! "title" = Some title -> slide !! "content" = Some content ->
  card_texts card
  = upper_case U title ::
    concat (map point_lines (take 4 (card_points content))) ++
    [slide_label slide_num total_slides].
Proof.
  intros Hcard Ht Hc.
  destruct (card_inv _ _ _ _ _ _ Hcard)
    as (title' & content' & header & title_y & Ht' & Hc' & _ & Hh & Hops).
  assert (title' = title) as -> by congruence.
  assert (content' = content) as -> by congruence.
  unfold card_texts. rewrite Hops, !omap_app.
  assert (omap (fun op => match op with
                          | CardText _ _ text _ _ => Some text
                          | _ => None
                          end) header = []) as ->.
  { destruct (shows_logo slide_num logo).
    - destruct Hh as (_ & img & _ & ->). done.
    - destruct Hh as (_ & ->). done. }
  cbn [app]. cbn [omap list_omap]. f_equal. f_equal.
  apply omap_concat_imap. intros k p. rewrite draw_point_ops, omap_app.
  cbn [omap list_omap app]. by apply omap_imap_inv.
Qed.

(** The boxes of a card, one for each of the first four points. *)
Lemma card_boxes_eq slide template slide_num total_slides logo card content :
  create_interactive_slide E U slide template slide_num total_slides logo = inr card ->
  slide !! "content" = Some content ->
  card_boxes card
  = imap (fun k _ =>
            let y := (if shows_logo slide_num logo then 270 else 120) + 150
                     + Z.of_nat k * 210 in
            (80, y, 1000, y + 180))
         (take 4 (card_points content)).
Proof.
  intros Hcard Hc.
  destruct (card_inv _ _ _ _ _ _ Hcard)
    as (title & content' & header & title_y & _ & Hc' & _ & Hh & Hops).
  assert (content' = content) as -> by congruence.
  unfold card_boxes. rewrite Hops, !omap_app.
  assert (omap (fun op => match op with
                          | CardRoundedRectangle x0 y0 x1 y1 _ _ => Some (x0, y0, x1, y1)
                          | _ => None
                          end) header = [] /\
          title_y = if shows_logo slide_num logo then 270 else 120) as [-> ->].
  { destruct (shows_logo slide_num logo).
    - destruct Hh as (-> & img & _ & ->). done.
    - destruct Hh as (-> & ->). done. }
  cbn [app]. cbn [omap list_omap]. rewrite app_nil_r.
  apply omap_concat_imap_one. intros k p. rewrite draw_point_ops, omap_app.
  cbn [omap list_omap app].
  by rewrite omap_imap_none.
Qed.

Lemma range3_37 (n : nat) :
  range3 0 (Z.of_nat n) 37 = map (fun k => Z.of_nat (k * 37)) (seq 0 ((n + 36) / 37)).
Proof.
  unfold range3.
  replace (Z.to_nat ((Z.of_nat n - 0 + 37 - 1) / 37)) with ((n + 36) / 37)%nat.
  - apply map_ext. intros k. lia.
  - replace (Z.of_nat n - 0 + 37 - 1) with (Z.of_nat (n + 36)) by lia.
    change 37 with (Z.of_nat 37). rewrite <- Nat2Z.inj_div. lia.
Qed.

Lemma point_lines_eq (p : str) :
  point_lines p
  = take 2 (map (fun k => take 37 (drop (k * 37) p)) (seq 0 ((length p + 36) / 37))).
Proof.
  unfold point_lines, len. rewrite range3_37, map_map. f_equal.
  apply map_ext. intros k. unfold slice. f_equal; [lia|]. f_equal. lia.
Qed.

Lemma point_lines_short (p : str) :
  (length (point_lines p) <= 2)%nat /\
  Forall (fun l => (1 <= length l <= 37)%nat) (point_lines p).
Proof.
  rewrite point_lines_eq. split; [rewrite length_take; lia|].
  apply Forall_take, Forall_map, Forall_forall. intros k Hk.
  apply elem_of_seq in Hk.
  assert (k * 37 < length p)%nat.
  { pose proof (Nat.Div0.mul_div_le (length p + 36) 37).
    unfold str in *. lia. }
  rewrite length_take, length_drop. lia.
Qed.

Lemma point_lines_concat (p : str) : concat (point_lines p) = take 74 p.
Proof.
  rewrite point_lines_eq.
  destruct (decide (length p = 0)%nat) as [H0|H0].
  { destruct p; [done|discriminate]. }
  destruct (decide (length p <= 37)%nat) as [H1|H1].
  - replace ((length p + 36) / 37)%nat with 1%nat.
    2:{ apply Nat.div_unique with (r := (length p - 1)%nat); unfold str in *; lia. }
    cbn. rewrite app_nil_r, drop_0, !take_ge by lia. done.
  - assert (exists n, (length p + 36) / 37 = S (S n))%nat as [n ->].
    { assert (2 <= (length p + 36) / 37)%nat.
      { apply Nat.div_le_lower_bound; lia. }
      destruct ((length p + 36) / 37)%nat as [|[|n]]; try lia. by exists n. }
    cbn [seq map take concat]. rewrite app_nil_r, drop_0.
    change (1 * 37)%nat with 37%nat.
    rewrite <- (take_drop 37 (take 74 p)) at 1.
    rewrite take_take. f_equal. change 74%nat with (37 + 37)%nat.
    by rewrite take_drop_commute.
Qed.


(** X16. On a card the texts are the title in upper case, then at most
    eight lines, then the label of the progress bar; every line has between
    1 and 37 code points. *)
Theorem card_lines_are_short (slide : Slide) (template : string)
    (slide_num total_slides : Z) (company_logo : Logo) (card : Card)
    (title : str) :
  slide !! "title" = Some title ->
  create_interactive_slide E U slide template slide_num total_slides
    company_logo = inr card ->
  exists lines,
    card_texts card
    = upper_case U title :: lines ++ [slide_label slide_num total_slides] /\
    (length lines <= 8)%nat /\
    Forall (fun line => (1 <= length line <= 37)%nat) lines.
Proof.
  intros Ht Hcard.
  destruct (card_inv _ _ _ _ _ _ Hcard) as (_ & content & _ & _ & _ & Hc & _).
  eexists. split; [by apply (card_texts_eq _ _ _ _ _ _ _ content Hcard)|].
  assert (length (take 4 (card_points content)) <= 4)%nat as Hlen
    by (rewrite length_take; lia).
  split.
  - pose proof (concat_length_le 2 (map point_lines (take 4 (card_points content))))
      as Hle.
    rewrite length_map in Hle. etrans; [apply Hle|lia].
    apply Forall_map, Forall_forall. intros p _. apply point_lines_short.
  - apply Forall_concat, Forall_map, Forall_forall. intros p _.
    apply point_lines_short.
Qed.

(** X17. The lines of a card, read one after the other, are the first 74
    code points of each of the first four sentences of the content: a
    sentence is cut there, within a word too, and the sentences after the
    fourth are not shown. *)
Theorem card_shows_the_start_of_four_sentences (slide : Slide)
    (template : string) (slide_num total_slides : Z) (company_logo : Logo)
    (card : Card) (title content : str) :
  slide !! "title" = Some title ->
  slide !! "content" = Some content ->
  create_interactive_slide E U slide template slide_num total_slides
    company_logo = inr card ->
  exists lines,
    card_texts card
    = upper_case U title :: lines ++ [slide_label slide_num total_slides] /\
    concat lines = concat (map (take 74) (take 4 (card_points content))).
Proof.
  intros Ht Hc Hcard. eexists.
  split; [by apply (card_texts_eq _ _ _ _ _ _ _ content Hcard)|].
  generalize (take 4 (card_points content)) as points.
  induction points as [|p points IH]; [done|].
  cbn. rewrite concat_app, IH. f_equal. apply point_lines_concat.
Qed.

(** X18. A card has one box for each of the first four sentences, at most
    four; each spans the page from 80 to 1000, is 180 high and lies between
    270 and 1230, above the progress bar at 1800; a box starts 30 or more
    below the end of every box before it. *)
Theorem boxes_fit_the_page (slide : Slide) (template : string)
    (slide_num total_slides : Z) (company_logo : Logo) (card : Card)
    (content : str) :
  slide !! "content" = Some content ->
  create_interactive_slide E U slide template slide_num total_slides
    company_logo = inr card ->
  length (card_boxes card) = Nat.min 4 (length (card_points content)) /\
  Forall (fun b => exists y, b = (80, y, 1000, y + 180) /\ 270 <= y <= 1050)
         (card_boxes card) /\
  forall i j b1 b2,
    (i < j)%nat -> card_boxes card !! i = Some b1 -> card_boxes card !! j = Some b2 ->
    box_bottom b1 + 30 <= box_top b2.
Proof.
  intros Hc Hcard. rewrite (card_boxes_eq _ _ _ _ _ _ _ Hcard Hc).
  split; [by rewrite length_imap, length_take|]. split.
  - apply Forall_forall. intros b Hb.
    apply list_elem_of_lookup in Hb as [k Hk].
    rewrite list_lookup_imap in Hk.
    destruct (take 4 (card_points content) !! k) as [p|] eqn:Hp; [|done].
    injection Hk as <-. apply lookup_lt_Some in Hp. rewrite length_take in Hp.
    eexists. split; [reflexivity|].
    destruct (shows_logo slide_num company_logo); lia.
  - intros i j b1 b2 Hij H1 H2. rewrite list_lookup_imap in H1, H2.
    destruct (take 4 (card_points content) !! i); [|done].
    destruct (take 4 (card_points content) !! j); [|done].
    injection H1 as <-. injection H2 as <-.
    unfold box_bottom, box_top. cbn [fst snd]. lia.
Qed.

(** X19. The title of a card is drawn in upper case and centred without
    rounding: the margins on its left and on its right are equal, half a
    pixel included; it is at 270 under a logo and at 120 otherwise. *)
Theorem card_title_is_centred (slide : Slide) (template : string)
    (slide_num total_slides : Z) (company_logo : Logo) (card : Card)
    (title : str) :
  slide !! "title" = Some title ->
  create_interactive_slide E U slide template slide_num total_slides
    company_logo = inr card ->
  exists x font,
    In (CardText x (if shows_logo slide_num company_logo then 270 else 120)
          (upper_case U title) font (accent (color_scheme template)))
       (card_ops card) /\
    (x == inject_Z 1080
          - (x + inject_Z (bbox_width (textbbox E font (upper_case U title)))))%Q.
Proof.
  intros Ht Hcard.
  destruct (card_inv _ _ _ _ _ _ Hcard)
    as (title' & content & header & title_y & Ht' & _ & _ & Hh & Hops).
  assert (title' = title) as -> by congruence.
  assert (title_y = if shows_logo slide_num company_logo then 270 else 120) as ->.
  { destruct (shows_logo slide_num company_logo); by destruct Hh as [-> _]. }
  eexists _, _. split.
  - rewrite Hops. apply in_or_app. right. left. reflexivity.
  - generalize (bbox_width (textbbox E (card_fonts E).1.1 (upper_case U title))).
    intros w. unfold Qeq, Qminus, Qplus, Qopp, inject_Z. cbn. lia.
Qed.

End Cards.

(** ** Slides without narration, and the logo *)

Section Silent.

Context `{FO : FloatOps} (E : Env).

Lemma speech_gives_none text lang speed :
  truthy (clean_text text) = false ->
  gives (enhanced_text_to_speech E text lang speed) (fun o => o = None).
Proof.
  intros Hclean. unfold enhanced_text_to_speech. apply gives_try.
  - fold (clean_text text). rewrite Hclean. simpl negb. cbv iota.
    by apply gives_ret.
  - intros e. eapply gives_bind; [apply gives_any|]. intros _ _.
    by apply gives_ret.
Qed.

Lemma audio_gives_none slide lang speed :
  has_no_narration slide = true ->
  gives (_process_slide_audio E slide lang speed) (fun o => o = None).
Proof.
  intros Hno. unfold _process_slide_audio, has_no_narration in *.
  apply gives_try.
  - destruct (slide !! "content") as [content|].
    + eapply gives_bind with (V := fun c => c = content); [by apply gives_ret|].
      intros ? ->.
      eapply gives_bind; [apply speech_gives_none; by destruct (truthy _)|].
      intros o ->.
      eapply gives_bind; [apply gives_any|]. intros found _.
      eapply gives_bind; [apply gives_any|]. intros _ _. by apply gives_ret.
    + eapply gives_bind with (V := fun _ => False); [apply gives_throw|].
      intros c [].
  - intros e. eapply gives_bind; [apply gives_any|]. intros _ _.
    by apply gives_ret.
Qed.

Lemma silent_clip_gives cfg tmp_img :
  gives (silent_clip E cfg tmp_img)
    (fun oc => forall c, oc = Some c ->
               clip_audio c = None /\ clip_duration c = min_slide_duration cfg).
Proof.
  intros w.
  unfold silent_clip, ImageClip, fadein, fadeout, count_processed, ext,
    next_call, read_file, get, modify, bind, ret, throw, value.
  simpl. repeat case_match; simplify_eq/=; auto.
  intros c [= <-]. done.
Qed.

(** X20. A slide that has no content, or whose content leaves nothing to
    speak, is not a failure: when the builder returns a clip for it, the
    clip is silent and lasts the minimum duration. *)
Theorem slide_without_text_gets_a_silent_clip (cfg : VideoConfig)
    (slide : Slide) (template : string) (slide_num total_slides : Z)
    (company_logo : Logo) (tts_lang : string) (speed_factor : float)
    (w : World) (c : Clip) :
  has_no_narration slide = true ->
  (_create_slide_video_clip E cfg slide template slide_num total_slides
     company_logo tts_lang speed_factor w).1 = Ok (Some c) ->
  clip_audio c = None /\ clip_duration c = min_slide_duration cfg.
Proof.
  intros Hno Hrun.
  assert (gives (_create_slide_video_clip E cfg slide template slide_num
                   total_slides company_logo tts_lang speed_factor)
            (fun oc => forall c, oc = Some c ->
               clip_audio c = None /\ clip_duration c = min_slide_duration cfg))
    as H.
  { unfold _create_slide_video_clip. apply gives_try.
    - do 5 (eapply gives_bind; [apply gives_any|]; intros ? _).
      eapply gives_bind; [by apply audio_gives_none|]. intros o ->.
      eapply gives_bind; [apply gives_any|]. intros found _.
      apply silent_clip_gives.
    - intros e. do 2 (eapply gives_bind; [apply gives_any|]; intros ? _).
      by apply gives_ret. }
  specialize (H w). rewrite Hrun in H. by apply H.
Qed.

Lemma initials_logo_gives company_name :
  gives (generate_initials_logo E company_name)
    (fun img => img_size img = (200, 200) /\ img_mode img = "RGBA"%string).
Proof.
  unfold generate_initials_logo.
  eapply gives_bind; [apply gives_any|]. intros font _.
  destruct (textbbox E font _) as [[[x0 y0] x1] y1]. by apply gives_ret.
Qed.


End Silent.

(** ** Where the temporary files stay *)

Section KeptFiles.

Context `{FO : FloatOps} (E : Env).

Local Instance kept_stable : Stable registry_is_kept.
Proof. by split. Qed.

Local Instance kept_stable_metrics : StableMetrics registry_is_kept.
Proof. by intros g w. Qed.

Local Instance kept_old_stable p : Stable (registry_is_kept_and_old p).
Proof. by split. Qed.

Local Instance kept_has_stable p : Stable (registry_is_kept_and_has p).
Proof. by split. Qed.

Local Instance empty_stable : Stable registry_is_empty.
Proof. by split. Qed.

Local Instance empty_stable_metrics : StableMetrics registry_is_empty.
Proof. by intros g w. Qed.

Local Ltac frame_done :=
  simpl; repeat split; try lia;
  intros; rewrite ?lookup_delete_ne, ?lookup_insert_ne by lia; done.

Local Ltac call_frame :=
  lazymatch goal with
  | |- context [ext_fails ?env ?site ?k] =>
      destruct (ext_fails env site k); simpl; [frame_done|]
  end.

(** A synthesis leaves the registry and the files created before it as
    they are. *)
Lemma speech_frame (text : str) (lang : string) (speed_factor : float) (w : World) :
  let r := enhanced_text_to_speech E text lang speed_factor w in
  temp_files r.2 = temp_files w /\
  (next_tmp w <= next_tmp r.2)%nat /\
  forall q, (q < next_tmp w)%nat -> disk r.2 !! q = disk w !! q.
Proof.
  cbv zeta.
  unfold enhanced_text_to_speech, try_except.
  destruct (negb (truthy _)); [frame_done|].
  unfold os_unlink, bind, ext, next_call, NamedTemporaryFile, write_file,
    read_file, modify, get, emit, ret, throw, bind. simpl.
  destruct (ext_fails E GTTS_new (tick w)); simpl; [frame_done|].
  call_frame.
  call_frame.
  rewrite !lookup_insert_eq. simpl.
  destruct (negb (f_eqb speed_factor (f_lit 1 1))); simpl.
  - call_frame.
    call_frame.
    call_frame.
    rewrite !lookup_insert_ne by lia. rewrite !lookup_insert_eq. simpl.
    frame_done.
  - call_frame.
    call_frame.
    rewrite !lookup_insert_ne by lia. rewrite !lookup_insert_eq. simpl.
    frame_done.
Qed.

Lemma kept_new_file :
  hoare registry_is_kept NamedTemporaryFile
    (fun r w => match r with
                | Ok p => registry_is_kept_and_old p w
                | Raise _ => False
                end).
Proof.
  intros w Hw. unfold wp, NamedTemporaryFile. simpl. split; [|simpl; lia].
  unfold registry_is_kept in *. simpl.
  eapply Forall_impl; [exact Hw|]. intros q [Hq Hf]. split; [lia|].
  by rewrite lookup_insert_ne by lia.
Qed.

Lemma kept_write p f :
  hoare (registry_is_kept_and_old p) (write_file p f)
    (fun _ w => registry_is_kept_and_has p w).
Proof.
  intros w [Hw Hp]. unfold wp, registry_is_kept_and_has, registry_is_kept in *.
  simpl. split; [|split; [done|by rewrite lookup_insert_eq]].
  eapply Forall_impl; [exact Hw|]. intros q [Hq Hf]. split; [done|].
  destruct (decide (p = q)) as [->|Hne];
    [by rewrite lookup_insert_eq|by rewrite lookup_insert_ne].
Qed.

Lemma kept_register p :
  hoare (registry_is_kept_and_has p) (modify (set_temp_files (fun l => l ++ [p])))
    (fun _ w => registry_is_kept w).
Proof.
  intros w (Hw & Hp & Hf). unfold wp, registry_is_kept in *. simpl.
  apply Forall_app. split; [done|by apply Forall_singleton].
Qed.

Lemma kept_speech text lang speed :
  hoare registry_is_kept (enhanced_text_to_speech E text lang speed)
    (fun r w => match r with
                | Ok (Some p) => registry_is_kept_and_old p w
                | _ => registry_is_kept w
                end).
Proof.
  intros w Hw. unfold wp.
  destruct (speech_frame text lang speed w) as (Ht & Hn & Hd).
  destruct (speech_run E text lang speed w) as (o & Hr & _ & _ & Ho).
  destruct (enhanced_text_to_speech E text lang speed w) as [r w']; simpl in *.
  assert (registry_is_kept w') as Hw'.
  { unfold registry_is_kept in *. rewrite Ht.
    eapply Forall_impl; [exact Hw|]. intros q [Hq Hf]. split; [lia|].
    by rewrite Hd. }
  subst r. destruct o as [p|]; [|done].
  destruct Ho as ((-> & Hn') & _). split; [done|lia].
Qed.

Lemma kept_exists p :
  hoare (registry_is_kept_and_old p) (tmp_exists p)
    (fun r w => match r with
                | Ok true => registry_is_kept_and_has p w
                | _ => registry_is_kept w
                end).
Proof.
  intros w [Hw Hp]. unfold wp, tmp_exists, bind, get, ret. simpl.
  case_bool_decide; [by repeat split|done].
Qed.

Lemma preserves_audio_kept slide lang speed :
  preserves registry_is_kept (_process_slide_audio E slide lang speed).
Proof.
  unfold _process_slide_audio. apply preserves_try; [|intros e; stable_go].
  apply preserves_bind; [destruct (slide !! "content"); stable_go|].
  intros content.
  eapply hoare_bind; [apply kept_speech| |done].
  intros [p|].
  - eapply hoare_bind; [apply kept_exists| |done].
    intros [|].
    + eapply hoare_bind; [apply kept_register| |done].
      intros ?. by apply hoare_ret.
    + change (preserves registry_is_kept
                (emit (LogWarning (Say "Audio file not generated or doesn't exist for slide")) >>
                 ret (@None nat))).
      stable_go.
  - change (preserves registry_is_kept
              (let* found := ret false in
               emit (LogWarning (Say "Audio file not generated or doesn't exist for slide")) >>
               ret (@None nat))).
    stable_go.
Qed.

Lemma preserves_builder_kept cfg slide template slide_num total_slides logo
    lang speed :
  preserves registry_is_kept
    (_create_slide_video_clip E cfg slide template slide_num total_slides logo
       lang speed).
Proof.
  unfold _create_slide_video_clip. apply preserves_try.
  - apply preserves_bind; [apply preserves_render; apply _|]. intros img.
    eapply hoare_bind; [apply kept_new_file| |done]. intros tmp.
    eapply hoare_after; [stable_go| |by intros e w []]. intros ?.
    eapply hoare_bind; [apply kept_write| |by intros e w []]. intros ?.
    eapply hoare_bind; [apply kept_register| |done]. intros ?.
    apply preserves_bind; [apply preserves_audio_kept|]. intros path.
    apply preserves_bind; [destruct path; stable_go|]. intros found.
    apply preserves_compose_clip; apply _.
  - intros e. pose proof (preserves_count_failed registry_is_kept). stable_go.
Qed.

Lemma preserves_sequential_kept cfg slides template logo lang speed :
  preserves registry_is_kept
    (process_sequential E cfg slides template logo lang speed).
Proof.
  unfold process_sequential, build.
  pose proof preserves_builder_kept.
  apply preserves_for_each. intros acc [i slide]. stable_go.
Qed.

Lemma preserves_parallel_kept cfg slides template logo lang speed :
  preserves registry_is_kept
    (process_parallel E cfg slides template logo lang speed).
Proof.
  unfold process_parallel.
  assert (preserves registry_is_kept (run_pool E cfg slides template logo lang speed)).
  { unfold run_pool. apply preserves_for_each. intros results future.
    destruct (slides !! future) as [slide|]; [|apply preserves_ret].
    apply preserves_bind; [|intros; apply preserves_ret].
    apply preserves_run_future, preserves_builder_kept. }
  pose proof (preserves_collect_completed E registry_is_kept).
  stable_go.
Qed.

Lemma preserves_anything {A} (m : M A) : preserves (fun _ => True) m.
Proof. by intros w _. Qed.

Lemma cleanup_empties :
  hoare (fun _ => True) (_cleanup_temp_files E)
    (fun r w => match r with Ok _ => registry_is_empty w | Raise _ => False end).
Proof.
  intros w _. unfold wp. by destruct (cleanup_run E w) as (w' & -> & _).
Qed.

Lemma export_cleans cfg start_time clips :
  hoare registry_is_kept (export_clips E cfg start_time clips)
    (fun r w => match r with
                | Ok o => cleaned_unless_no_clip (Ok o) w
                | Raise _ => True
                end).
Proof.
  unfold export_clips. destruct clips as [|c clips]; simpl negb; cbv iota.
  { intros w Hw. unfold wp. simpl. right. split; [done|]. split; [|done].
    apply last_snoc. }
  eapply hoare_conseq with (P' := fun _ => True); [|done|intros r w Hr; exact Hr].
  do 16 (eapply hoare_after; [apply preserves_anything| |done]; intros ?).
  eapply hoare_bind; [apply cleanup_empties| |done]. intros ?.
  eapply hoare_after; [apply (preserves_emit registry_is_empty)| |done].
  intros ?. apply hoare_ret. intros w Hw. by left.
Qed.

Lemma pipeline_cleans slides company_name template lang speed config parallel :
  VIDEO_LIBS_AVAILABLE E = true -> slides <> [] ->
  hoare (fun _ => True)
    (create_professional_placement_video E slides company_name template lang
       speed config parallel)
    (fun r w => exists o, r = Ok o /\ cleaned_unless_no_clip r w).
Proof.
  intros Hlibs Hslides. unfold create_professional_placement_video.
  rewrite Hlibs. simpl negb. cbv iota.
  destruct slides as [|slide0 slides']; [done|]. simpl negb. cbv iota.
  set (slides := slide0 :: slides').
  set (cfg := default default_config config).
  eapply hoare_bind with
    (Q1 := fun r w => match r with Ok _ => registry_is_kept w | Raise _ => False end);
    [by intros w _; constructor| |done].
  intros ?.
  eapply hoare_bind with
    (Q1 := fun r w => match r with Ok _ => registry_is_kept w | Raise _ => False end);
    [by intros w Hw| |done].
  intros k0.
  eapply hoare_try with
    (Q1 := fun r w => match r with
                      | Ok o => cleaned_unless_no_clip (Ok o) w
                      | Raise _ => True
                      end).
  - pose proof (preserves_set_total_slides registry_is_kept).
    eapply hoare_after; [stable_go| |done]. intros ?.
    eapply hoare_after; [stable_go| |done]. intros ?.
    eapply hoare_after; [apply preserves_extract_logo; apply _| |done].
    intros logo.
    eapply hoare_after; [stable_go| |done]. intros ?.
    eapply hoare_after; [| |done].
    + destruct (parallel && _);
        [apply preserves_parallel_kept|apply preserves_sequential_kept].
    + intros clips. apply export_cleans.
  - intros o w Ho. by exists o.
  - intros e.
    eapply hoare_conseq with (P' := fun _ => True);
      [|done|intros r w Hr; exact Hr].
    do 2 (eapply hoare_bind with
            (Q1 := fun r _ => match r with Ok _ => True | Raise _ => False end);
          [by intros w _| |done]; intros ?).
    eapply hoare_bind; [apply cleanup_empties| |done]. intros ?.
    intros w Hw. unfold wp. simpl. exists None. split; [done|]. by left.
Qed.

(** X22. A run on slides ends with an empty registry of temporary files,
    with one exception: when no clip could be built it reports so and
    returns nothing without cleaning up, and every file registered during
    the run is still on the disk. *)
Theorem registry_is_emptied_unless_no_clip (slides : list Slide)
    (company_name : str) (template : string) (tts_lang : string)
    (speed_factor : float) (config : option VideoConfig)
    (parallel_processing : bool) (w : World) :
  VIDEO_LIBS_AVAILABLE E = true -> slides <> [] ->
  let r := create_professional_placement_video E slides company_name template
             tts_lang speed_factor config parallel_processing w in
  temp_files r.2 = [] \/
  (r.1 = Ok None /\
   last (trace r.2)
   = Some (StError (Say "No video clips were generated successfully.")) /\
   registry_is_kept r.2).
Proof.
  intros Hlibs Hslides. cbv zeta.
  destruct (pipeline_cleans slides company_name template tts_lang speed_factor
              config parallel_processing Hlibs Hslides w I) as (o & Ho & H).
  exact H.
Qed.

End KeptFiles.

(** ** Every slide is counted *)

Section Counting.

Context `{FO : FloatOps} (E : Env).

Local Instance counted_stable n k : Stable (slides_counted n k).
Proof. by split. Qed.

Local Instance counted_stable_disk n k : StableDisk (slides_counted n k).
Proof. by split. Qed.

Local Instance counted_stable_temp n k : StableTemp (slides_counted n k).
Proof. by intros g w. Qed.

(** A loop with an invariant of what it has gone through. *)
Lemma hoare_for_each_done {A S} (I : list A -> S -> World -> Prop)
    (xs : list A) (body : S -> A -> M S) : forall (done : list A) (acc : S),
  (forall done x acc, x ∈ xs ->
     hoare (I done acc) (body acc x)
       (fun r w => match r with Ok acc' => I (done ++ [x]) acc' w | Raise _ => False end)) ->
  hoare (I done acc) (for_each xs body acc)
    (fun r w => match r with Ok acc' => I (done ++ xs) acc' w | Raise _ => False end).
Proof.
  induction xs as [|x xs IH]; intros done acc Hbody; simpl.
  - rewrite app_nil_r. by apply hoare_ret.
  - eapply hoare_bind; [apply Hbody; left| |done].
    intros acc'. replace (done ++ x :: xs) with ((done ++ [x]) ++ xs)
      by (by rewrite <- app_assoc).
    apply IH. intros d y a Hy. apply Hbody. by right.
Qed.

Lemma builder_counted n k cfg slide template slide_num total logo lang speed :
  hoare (slides_counted n k)
    (_create_slide_video_clip E cfg slide template slide_num total logo lang speed)
    (fun r w => match r with
                | Ok _ => slides_counted n (k + 1) w
                | Raise _ => False
                end).
Proof.
  intros w [Hn Hk]. unfold wp.
  pose proof (builder_metrics E cfg slide template slide_num total logo lang
                speed w) as H. cbv zeta in H.
  destruct (_create_slide_video_clip _ _ _ _ _ _ _ _ _ w) as [[[c|]|e] w'];
    simpl in *; [| |done]; unfold slides_counted; rewrite H; simpl; lia.
Qed.

Lemma sequential_counted n k cfg slides template logo lang speed :
  hoare (slides_counted n k)
    (process_sequential E cfg slides template logo lang speed)
    (fun r w => match r with
                | Ok _ => slides_counted n (k + len slides) w
                | Raise _ => False
                end).
Proof.
  unfold process_sequential.
  pose proof (hoare_for_each_done
                (fun (done : list (nat * Slide)) (_ : list Clip) =>
                   slides_counted n (k + len done))
                (enumerate slides)) as H.
  eapply hoare_conseq; [apply (H _ [] [])| |].
  - intros done [i slide] acc _.
    eapply hoare_bind with
      (Q1 := fun r w => match r with
                        | Ok _ => slides_counted n (k + len done) w
                        | Raise _ => False
                        end); [by intros w Hw| |done].
    intros ?.
    eapply hoare_bind; [apply builder_counted| |done]. intros clip.
    apply hoare_ret. intros w Hw. unfold len. rewrite length_app. simpl.
    replace (k + Z.of_nat (length done + 1)) with (k + Z.of_nat (length done) + 1)
      by lia. exact Hw.
  - intros w Hw. unfold len. simpl. by rewrite Z.add_0_r.
  - intros [clips|e] w Hw; [|done]. simpl in Hw. unfold len, enumerate in Hw.
    by rewrite length_imap in Hw.
Qed.

Lemma run_pool_counted n k cfg slides template logo lang speed :
  Forall (fun f => is_Some (slides !! f)) (as_completed E) ->
  hoare (slides_counted n k)
    (run_pool E cfg slides template logo lang speed)
    (fun r w => match r with
                | Ok results =>
                    slides_counted n (k + len (as_completed E)) w /\
                    futures_returned (as_completed E) results
                | Raise _ => False
                end).
Proof.
  intros Hall. unfold run_pool.
  pose proof (hoare_for_each_done
                (fun (done : list nat) results w =>
                   slides_counted n (k + len done) w /\
                   futures_returned done results)
                (as_completed E)) as H.
  eapply hoare_conseq; [apply (H _ [] ∅)| |].
  - intros done future results Hin.
    rewrite Forall_forall in Hall. destruct (Hall _ Hin) as [slide ->].
    intros w [Hw Hres]. unfold wp, bind, run_future, build, ret.
    pose proof (builder_counted n (k + len done) cfg slide template
                  (Z.of_nat future + 1) (len slides) logo lang speed w Hw) as Hb.
    unfold wp in Hb.
    destruct (_create_slide_video_clip _ _ _ _ _ _ _ _ _ w) as [[oc|e] w'];
      simpl in *; [|done].
    split.
    + unfold len. rewrite length_app. simpl.
      replace (k + Z.of_nat (length done + 1)) with (k + Z.of_nat (length done) + 1)
        by lia. exact Hb.
    + intros f Hf. apply elem_of_app in Hf as [Hf|Hf].
      * destruct (decide (future = f)) as [->|Hne].
        -- rewrite lookup_insert_eq. by eexists.
        -- rewrite lookup_insert_ne by done. by apply Hres.
      * apply list_elem_of_singleton in Hf as ->. rewrite lookup_insert_eq.
        by eexists.
  - intros w Hw. split; [|by intros f Hf%elem_of_nil].
    unfold len. simpl. by rewrite Z.add_0_r.
  - by intros [results|e] w Hw.
Qed.

Lemma collect_counted n k n_slides fidx results :
  Forall (fun f => fidx !! f = Some f) (as_completed E) ->
  futures_returned (as_completed E) results ->
  hoare (slides_counted n k) (collect_completed E n_slides fidx results)
    (fun r w => match r with
                | Ok _ => slides_counted n k w
                | Raise _ => False
                end).
Proof.
  intros Hidx Hres. unfold collect_completed.
  eapply hoare_bind with
    (Q1 := fun r w => match r with
                      | Ok _ => slides_counted n k w
                      | Raise _ => False
                      end); [| |done].
  - eapply hoare_conseq;
      [apply (hoare_for_each_done
                (fun (_ : list nat) (_ : list (nat * Clip)) => slides_counted n k)
                (as_completed E) _ [] [])| |].
    + intros done f acc Hin.
      rewrite Forall_forall in Hidx. pose proof (Hidx _ Hin) as Hf.
      destruct (Hres _ Hin) as [oc Hoc].
      intros w Hw. unfold wp, collect_step, bind, try_except, future_result.
      rewrite Hf, Hoc. by destruct oc.
    + done.
    + by intros [acc|e] w Hw.
  - intros acc. by apply hoare_ret.
Qed.

Lemma parallel_counted n k cfg slides template logo lang speed :
  as_completed E ≡ₚ seq 0 (length slides) ->
  hoare (slides_counted n k)
    (process_parallel E cfg slides template logo lang speed)
    (fun r w => match r with
                | Ok _ => slides_counted n (k + len slides) w
                | Raise _ => False
                end).
Proof.
  intros Hperm. unfold process_parallel.
  assert (forall f, f ∈ as_completed E -> (f < length slides)%nat) as Hlt.
  { intros f Hf. rewrite Hperm in Hf. apply elem_of_seq in Hf. lia. }
  eapply hoare_bind with
    (Q1 := fun r w => match r with Ok _ => slides_counted n k w | Raise _ => False end);
    [by intros w Hw| |done]. intros ?.
  eapply hoare_bind with
    (Q1 := fun r w => match r with Ok _ => slides_counted n k w | Raise _ => False end);
    [by intros w Hw| |done]. intros ?.
  eapply hoare_bind; [apply run_pool_counted| |done].
  { apply Forall_forall. intros f Hf. apply lookup_lt_is_Some. by apply Hlt. }
  intros results w [Hw Hres].
  assert (len (as_completed E) = len slides) as Hlen.
  { unfold len. by rewrite Hperm, length_seq. }
  rewrite Hlen in Hw.
  apply (collect_counted n (k + len slides)); [|done|done].
  apply Forall_forall. intros f Hf. apply future_index_lookup. by apply Hlt.
Qed.

Lemma cleanup_counted n k :
  hoare (slides_counted n k) (_cleanup_temp_files E)
    (fun r w => match r with Ok _ => slides_counted n k w | Raise _ => False end).
Proof.
  intros w Hw. unfold wp.
  destruct (cleanup_run E w) as (w' & -> & _ & Hm & _). simpl.
  unfold slides_counted in *. simpl. by rewrite Hm.
Qed.

Lemma cleanup_preserves_count n k :
  preserves (slides_counted n k) (_cleanup_temp_files E).
Proof.
  intros w Hw. pose proof (cleanup_counted n k w Hw) as H. unfold wp in *.
  by destruct (_cleanup_temp_files E w) as [[[]|e] w'].
Qed.

Lemma logo_counted n k company_name :
  hoare (slides_counted n k) (extract_company_logo E company_name)
    (fun r w => match r with Ok _ => slides_counted n k w | Raise _ => False end).
Proof.
  intros w Hw. unfold wp.
  pose proof (preserves_extract_logo (slides_counted n k) E company_name w Hw)
    as Hk. unfold wp in Hk.
  assert (exists img, (extract_company_logo E company_name w).1 = Ok img)
    as [img Himg].
  { unfold extract_company_logo. apply try_except_total. intros e w1.
    destruct (initials_logo_total E company_name w1) as (img & w2 & ->).
    by exists img. }
  by rewrite Himg.
Qed.

Lemma export_counted n k cfg start_time clips :
  preserves (slides_counted n k) (export_clips E cfg start_time clips).
Proof.
  pose proof (cleanup_preserves_count n k) as Hc.
  assert (forall t, preserves (slides_counted n k) (set_generation_time t)) as Hg
    by (by intros t w Hw).
  assert (forall s, preserves (slides_counted n k) (set_file_size_mb s)) as Hs
    by (by intros s w Hw).
  unfold export_clips. stable_go.
Qed.


End Counting.

(** ** The parser and the link on examples *)

Lemma parse_formatted_script_witness :
  (isdecimal ascii_unicode 58%N = false /\
   forallb (well_formed_block ascii_unicode) two_blocks = true) /\
  parse_script_into_slides ascii_unicode (script_of two_blocks)
  = map slide_of_block two_blocks.
Proof.
  assert (isdecimal ascii_unicode 58%N = false) as H1 by reflexivity.
  assert (forallb (well_formed_block ascii_unicode) two_blocks = true) as H2
    by (vm_compute; reflexivity).
  split; [by split|].
  exact (parse_formatted_script ascii_unicode H1 two_blocks H2).
Defined.

Lemma script_without_marker_has_no_slide_witness :
  occurs (lit "[SLIDE ") (lit "Slide one: hello") = false /\
  parse_script_into_slides ascii_unicode (lit "Slide one: hello") = [].
Proof.
  assert (occurs (lit "[SLIDE ") (lit "Slide one: hello") = false) as H
    by reflexivity.
  split; [exact H|].
  exact (script_without_marker_has_no_slide ascii_unicode
           (lit "Slide one: hello") H).
Defined.

Lemma link_text_is_escaped_witness :
  generate_whatsapp_web_link ascii_unicode hello_message
    (Some (lit "+91 98-76")) = Some hello_link /\
  exists base q,
    hello_link = base ++ lit "?text=" ++ q /\
    quote hello_message = Some q /\
    forallb url_safe q = true.
Proof.
  assert (generate_whatsapp_web_link ascii_unicode hello_message
            (Some (lit "+91 98-76")) = Some hello_link) as H
    by (vm_compute; reflexivity).
  split; [exact H|].
  exact (link_text_is_escaped ascii_unicode hello_message
           (Some (lit "+91 98-76")) hello_link H).
Defined.

Lemma link_determines_message_witness :
  (generate_whatsapp_web_link ascii_unicode hello_message
     (Some (lit "+91 98-76")) = Some hello_link /\
   generate_whatsapp_web_link ascii_unicode
     (lit "Hi there & welcome" ++ [233%N] ++ [128512%N])
     (Some (lit "+91 98-76")) = Some hello_link) /\
  hello_message = lit "Hi there & welcome" ++ [233%N] ++ [128512%N].
Proof.
  assert (generate_whatsapp_web_link ascii_unicode hello_message
            (Some (lit "+91 98-76")) = Some hello_link) as H1
    by (vm_compute; reflexivity).
  assert (generate_whatsapp_web_link ascii_unicode
            (lit "Hi there & welcome" ++ [233%N] ++ [128512%N])
            (Some (lit "+91 98-76")) = Some hello_link) as H2
    by (vm_compute; reflexivity).
  split; [by split|].
  exact (link_determines_message ascii_unicode hello_message
           (lit "Hi there & welcome" ++ [233%N] ++ [128512%N])
           (Some (lit "+91 98-76")) hello_link H1 H2).
Defined.

Lemma link_fails_on_surrogates_only_witness :
  forallb is_code_point (hello_message ++ [55357%N]) = true /\
  (generate_whatsapp_web_link ascii_unicode (hello_message ++ [55357%N]) None
   = None <->
   existsb is_surrogate (hello_message ++ [55357%N]) = true).
Proof.
  assert (forallb is_code_point (hello_message ++ [55357%N]) = true) as H
    by reflexivity.
  split; [exact H|].
  exact (link_fails_on_surrogates_only ascii_unicode
           (hello_message ++ [55357%N]) None H).
Defined.

Lemma returned_path_holds_the_video_witness :
  hello_video quiet_host = (Ok (Some 3%nat), (hello_video quiet_host).2) /\
  exists clips,
    clips <> [] /\
    Forall (well_timed (default default_config (Some small_config))) clips /\
    disk (hello_video quiet_host).2 !! 3%nat = Some (Mp4 clips) /\
    temp_files (hello_video quiet_host).2 = [].
Proof.
  assert (hello_video quiet_host = (Ok (Some 3%nat), (hello_video quiet_host).2))
    as H by (vm_compute; reflexivity).
  split; [exact H|].
  exact (returned_path_holds_the_video quiet_host [hello_slide] (lit "Acme Ltd")
           "minimalist" "en" (1 # 1)%Q (Some small_config) true new_world
           (hello_video quiet_host).2 3%nat H).
Defined.

(** ** A card as an example *)

Lemma card_lines_are_short_witness :
  (long_slide !! "title" = Some (lit "Hello") /\
   create_interactive_slide quiet_host ascii_unicode long_slide "Modern" 2 3
     LogoNone = inr long_card) /\
  exists lines,
    card_texts long_card
    = upper_case ascii_unicode (lit "Hello") :: lines ++ [slide_label 2 3] /\
    (length lines <= 8)%nat /\
    Forall (fun line => (1 <= length line <= 37)%nat) lines.
Proof.
  assert (long_slide !! "title" = Some (lit "Hello")) as H1
    by (vm_compute; reflexivity).
  assert (create_interactive_slide quiet_host ascii_unicode long_slide "Modern"
            2 3 LogoNone = inr long_card) as H2 by (vm_compute; reflexivity).
  split; [by split|].
  exact (card_lines_are_short quiet_host ascii_unicode long_slide "Modern" 2 3
           LogoNone long_card (lit "Hello") H1 H2).
Defined.

Lemma card_shows_the_start_of_four_sentences_witness :
  (long_slide !! "title" = Some (lit "Hello") /\
   long_slide !! "content" = Some long_content /\
   create_interactive_slide quiet_host ascii_unicode long_slide "Modern" 2 3
     LogoNone = inr long_card) /\
  exists lines,
    card_texts long_card
    = upper_case ascii_unicode (lit "Hello") :: lines ++ [slide_label 2 3] /\
    concat lines = concat (map (take 74) (take 4 (card_points long_content))).
Proof.
  assert (long_slide !! "title" = Some (lit "Hello")) as H1
    by (vm_compute; reflexivity).
  assert (long_slide !! "content" = Some long_content) as H2
    by (vm_compute; reflexivity).
  assert (create_interactive_slide quiet_host ascii_unicode long_slide "Modern"
            2 3 LogoNone = inr long_card) as H3 by (vm_compute; reflexivity).
  split; [by repeat split|].
  exact (card_shows_the_start_of_four_sentences quiet_host ascii_unicode
           long_slide "Modern" 2 3 LogoNone long_card (lit "Hello") long_content
           H1 H2 H3).
Defined.

Lemma boxes_fit_the_page_witness :
  (long_slide !! "content" = Some long_content /\
   create_interactive_slide quiet_host ascii_unicode long_slide "Modern" 2 3
     LogoNone = inr long_card) /\
  length (card_boxes long_card) = Nat.min 4 (length (card_points long_content)) /\
  Forall (fun b => exists y, b = (80, y, 1000, y + 180) /\ 270 <= y <= 1050)
         (card_boxes long_card) /\
  forall i j b1 b2,
    (i < j)%nat -> card_boxes long_card !! i = Some b1 ->
    card_boxes long_card !! j = Some b2 ->
    box_bottom b1 + 30 <= box_top b2.
Proof.
  assert (long_slide !! "content" = Some long_content) as H2
    by (vm_compute; reflexivity).
  assert (create_interactive_slide quiet_host ascii_unicode long_slide "Modern"
            2 3 LogoNone = inr long_card) as H3 by (vm_compute; reflexivity).
  split; [by split|].
  exact (boxes_fit_the_page quiet_host ascii_unicode long_slide "Modern" 2 3
           LogoNone long_card long_content H2 H3).
Defined.

Lemma card_title_is_centred_witness :
  (long_slide !! "title" = Some (lit "Hello") /\
   create_interactive_slide quiet_host ascii_unicode long_slide "Modern" 2 3
     LogoNone = inr long_card) /\
  exists x font,
    In (CardText x (if shows_logo 2 LogoNone then 270 else 120)
          (upper_case ascii_unicode (lit "Hello")) font
          (accent (color_scheme "Modern")))
       (card_ops long_card) /\
    (x == inject_Z 1080
          - (x + inject_Z (bbox_width (textbbox quiet_host font
                                         (upper_case ascii_unicode (lit "Hello"))))))%Q.
Proof.
  assert (long_slide !! "title" = Some (lit "Hello")) as H1
    by (vm_compute; reflexivity).
  assert (create_interactive_slide quiet_host ascii_unicode long_slide "Modern"
            2 3 LogoNone = inr long_card) as H2 by (vm_compute; reflexivity).
  split; [by split|].
  exact (card_title_is_centred quiet_host ascii_unicode long_slide "Modern" 2 3
           LogoNone long_card (lit "Hello") H1 H2).
Defined.

(** ** A run without clips and a slide without content, as examples *)

Lemma registry_is_emptied_unless_no_clip_witness :
  (VIDEO_LIBS_AVAILABLE no_clip_host = true /\ [hello_slide] <> []) /\
  (temp_files (hello_video no_clip_host).2 = [] \/
   ((hello_video no_clip_host).1 = Ok None /\
    last (trace (hello_video no_clip_host).2)
    = Some (StError (Say "No video clips were generated successfully.")) /\
    registry_is_kept (hello_video no_clip_host).2)).
Proof.
  assert (VIDEO_LIBS_AVAILABLE no_clip_host = true) as H1 by reflexivity.
  assert ([hello_slide] <> []) as H2 by discriminate.
  split; [by split|].
  exact (registry_is_emptied_unless_no_clip no_clip_host [hello_slide]
           (lit "Acme Ltd") "minimalist" "en" (1 # 1)%Q (Some small_config) true
           new_world H1 H2).
Defined.

Lemma slide_without_text_gets_a_silent_clip_witness :
  (has_no_narration title_slide = true /\
   title_clip_run.1 = Ok (Some title_clip)) /\
  clip_audio title_clip = None /\
  clip_duration title_clip = min_slide_duration small_config.
Proof.
  assert (has_no_narration title_slide = true) as H1 by (vm_compute; reflexivity).
  assert (title_clip_run.1 = Ok (Some title_clip)) as H2
    by (vm_compute; reflexivity).
  split; [by split|].
  exact (slide_without_text_gets_a_silent_clip quiet_host small_config
           title_slide "minimalist" 1 1 LogoNone "en" (1 # 1)%Q new_world
           title_clip H1 H2).
Defined.

